(** * geoh5py drillhole merge engine: tolerant matching, merging, ingestion *)

From Stdlib Require Import QArith Qabs Lqa.
From stdpp Require Import base tactics option list strings sorting.

(** ** Floats, exceptions, numpy primitives *)

(** A float is a rational or NaN; NaN is what [np.ones(n) * np.nan] fills
    padding with. Arithmetic on numbers is exact. *)
Inductive float := NaN | Num (q : Q).

Inductive exn :=
| AssertionError (msg : string)
| IndexError
| ValueError
| KeyError
| TypeError
| AttributeError.

Inductive result (A : Type) := Ok (a : A) | Raise (e : exn).
Arguments Ok {A} a.
Arguments Raise {A} e.

#[global] Instance result_ret : MRet result := fun A a => Ok a.
#[global] Instance result_bind : MBind result := fun A B f m =>
  match m with Ok a => f a | Raise e => Raise e end.
#[global] Instance result_fmap : FMap result := fun A B f m =>
  match m with Ok a => Ok (f a) | Raise e => Raise e end.

Definition Qltb (x y : Q) : bool := negb (Qle_bool y x).

(** The order of [np.argsort] and [np.searchsorted]: numbers ascending,
    NaN after every number. *)
Definition fle (x y : float) : bool :=
  match x, y with
  | _, NaN => true
  | NaN, Num _ => false
  | Num a, Num b => Qle_bool a b
  end.

(** [np.abs(x - b) < collocation_distance]; false as soon as a NaN is involved. *)
Definition close (eps : Q) (x b : float) : bool :=
  match x, b with
  | Num p, Num q => Qltb (Qabs (p - q)) eps
  | _, _ => false
  end.

(** [a[i]] for one Python integer: negative indices count from the end. *)
Definition py_index {A} (l : list A) (i : Z) : result A :=
  let n := Z.of_nat (length l) in
  let k := if decide (i < 0)%Z then (n + i)%Z else i in
  if decide (0 ≤ k < n)%Z
  then match l !! Z.to_nat k with Some x => Ok x | None => Raise IndexError end
  else Raise IndexError.

(** [a[idx]] for an integer index array. *)
Definition fancy {A} (l : list A) (idx : list Z) : result (list A) :=
  mapM (py_index l) idx.

Definition take_idx {A} (l : list A) (idx : list nat) : result (list A) :=
  fancy l (Z.of_nat <$> idx).

(** [a[idx] = vals]: the assignments happen in order, a repeated index keeps
    the last value. *)
Fixpoint put {A} (l : list A) (idx : list nat) (vals : list A) : result (list A) :=
  match idx, vals with
  | [], [] => Ok l
  | i :: idx', v :: vals' =>
      if decide (i < length l) then put (<[i:=v]> l) idx' vals' else Raise IndexError
  | _, _ => Raise ValueError
  end.

(** [np.delete(a, idx)]: drops every listed position once. *)
Definition np_delete {A} (l : list A) (idx : list nat) : result (list A) :=
  if decide (Forall (λ i, i < length l) idx)
  then Ok ((imap (λ i x, if decide (i ∈ idx) then [] else [x]) l) ≫= id)
  else Raise IndexError.

(** [np.where] on a boolean vector and on a boolean matrix (row-major). *)
Definition np_where (l : list bool) : list nat :=
  (imap (λ i (b : bool), if b then [i] else []) l) ≫= id.

Definition np_where2 (m : list (list bool)) : list (nat * nat) :=
  (imap (λ r row, (λ c, (r, c)) <$> np_where row) m) ≫= id.

(** [np.argsort]: a stable insertion sort of the (value, position) pairs. *)
Section argsort.
Context {A : Type} (le : A → A → bool).

Fixpoint insert_by (x : A * nat) (l : list (A * nat)) : list (A * nat) :=
  match l with
  | [] => [x]
  | y :: l' => if le x.1 y.1 then x :: l else y :: insert_by x l'
  end.

Definition sort_pairs (v : list A) : list (A * nat) :=
  foldr insert_by [] (zip v (seq 0 (length v))).

Definition argsort_by (v : list A) : list nat := (sort_pairs v).*2.
End argsort.

Definition argsort (v : list float) : list nat := argsort_by fle v.
Definition argsort_int (v : list nat) : list nat := argsort_by Nat.leb v.

(** [np.unique(a, return_inverse=True)]: the distinct values in ascending
    order, and for every entry of [a] its position among them. *)
Definition feq (x y : float) : bool :=
  match x, y with
  | Num a, Num b => Qeq_bool a b
  | NaN, NaN => true
  | _, _ => false
  end.

Fixpoint uniq (l : list float) : list float :=
  match l with
  | [] => []
  | x :: l' =>
      match uniq l' with
      | y :: r => if feq x y then y :: r else x :: y :: r
      | [] => [x]
      end
  end.

Fixpoint find_index (x : float) (u : list float) : nat :=
  match u with
  | [] => 0
  | y :: u' => if feq x y then 0 else S (find_index x u')
  end.

Definition np_unique (a : list float) : list float * list nat :=
  let u := uniq (sort_pairs fle a).*1 in
  (u, (λ x, find_index x u) <$> a).

(** [a.flatten()] and [a.reshape((-1, 2))] for arrays of shape (m, 2). *)
Definition flatten2 {A} (rows : list (A * A)) : list A :=
  rows ≫= (λ r, [r.1; r.2]).

Fixpoint reshape2 {A} (l : list A) : list (A * A) :=
  match l with
  | a :: b :: l' => (a, b) :: reshape2 l'
  | _ => []
  end.

(** [np.searchsorted(a, v, side="right")] on an ascending array: the number
    of leading entries that are [<= v]. *)
Fixpoint searchsorted_right (a : list float) (v : float) : nat :=
  match a with
  | [] => 0
  | x :: a' => if fle x v then S (searchsorted_right a' v) else 0
  end.

(** ** shared/utils.py *)

(** [m[r, c]] on a list of rows. *)
Definition index2 {A} (m : list (list A)) (r c : nat) : result A :=
  match m !! r with
  | Some row => match row !! c with Some x => Ok x | None => Raise IndexError end
  | None => Raise IndexError
  end.

Definition match_values (vec_a vec_b : list float) (collocation_distance : Q)
  : result (list (nat * nat)) :=
  let ind_sort := argsort vec_a in
  sorted ← take_idx vec_a ind_sort;
  let ind := (λ b, Z.of_nat (searchsorted_right sorted b) `min` (Z.of_nat (length vec_a) - 1))%Z
               <$> vec_b in
  let nearests := (λ i, [i; i - 1]%Z) <$> ind in
  near_vals ← mapM (fancy sorted) nearests;
  let match_ := np_where2 (zip_with (λ row b, (λ x, close collocation_distance x b) <$> row)
                             near_vals vec_b) in
  mapM (λ '(r, c), k ← index2 nearests r c; i ← py_index ind_sort k; mret (i, r)) match_.

(** What a call of [merge_arrays] leaves behind: the returned array, the
    mapping, and the contents of the caller's [head] and [tail] arrays, which
    the function writes to in place before it rebinds its local [tail]. *)
Record merged := Merged {
  m_out : list float;
  m_mapping : list (nat * nat);
  m_head : list float;
  m_tail : list float
}.

Definition merge_arrays (head tail : list float) (replace : string)
    (mapping : option (list (nat * nat))) (collocation_distance : Q) : result merged :=
  mapping ← match mapping with
            | None => match_values head tail collocation_distance
            | Some m => Ok m
            end;
  if decide (0 < length mapping) then
    '(head', tail') ←
      (if String.eqb replace "B->A" then
         vals ← take_idx tail (mapping.*2);
         head' ← put head (mapping.*1) vals;
         mret (head', tail)
       else
         vals ← take_idx head (mapping.*1);
         tail' ← put tail (mapping.*2) vals;
         mret (head, tail'));
    rest ← np_delete tail' (mapping.*2);
    mret (Merged (head' ++ rest) mapping head' tail')
  else mret (Merged (head ++ tail) mapping head tail).


(** ** Entities *)

Definition point : Type := float * float * float.

Inductive Association := OBJECT | CELL | VERTEX | FACE | GROUP.

#[global] Instance Association_eq_dec : EqDecision Association.
Proof. solve_decision. Defined.

Record Data := mkData {
  name : string;
  association : Association;
  values : option (list float)
}.

Record Drillhole := mkDrillhole {
  collar : option point;
  surveys : option (list (float * float * float));
  vertices : option (list point);
  cells : option (list (nat * nat));
  children : list Data;
  default_collocation_distance : Q
}.

(** Methods of the entity run in a state monad over the drillhole in which a
    raised exception keeps the mutations made before it. *)
Definition M (A : Type) : Type := Drillhole → Drillhole * result A.

#[global] Instance M_ret : MRet M := fun A a s => (s, Ok a).
#[global] Instance M_bind : MBind M := fun A B f m s =>
  match m s with
  | (s', Ok a) => f a s'
  | (s', Raise e) => (s', Raise e)
  end.

Definition lift {A} (r : result A) : M A := fun s => (s, r).
Definition get : M Drillhole := fun s => (s, Ok s).
Definition modify (f : Drillhole → Drillhole) : M unit := fun s => (f s, Ok ()).
Definition raise {A} (e : exn) : M A := fun s => (s, Raise e).
Definition assert_ (b : bool) (msg : string) : M unit :=
  if b then mret () else raise (AssertionError msg).

Definition set_vertices (v : list point) (s : Drillhole) : Drillhole :=
  mkDrillhole (collar s) (surveys s) (Some v) (cells s) (children s)
    (default_collocation_distance s).
Definition set_cells (c : list (nat * nat)) (s : Drillhole) : Drillhole :=
  mkDrillhole (collar s) (surveys s) (vertices s) (Some c) (children s)
    (default_collocation_distance s).
Definition set_children (ch : list Data) (s : Drillhole) : Drillhole :=
  mkDrillhole (collar s) (surveys s) (vertices s) (cells s) ch
    (default_collocation_distance s).

(** Modelled from the spec: [n_vertices] of the object base class, whose
    source is not among the files modelled here: the number of rows of
    [vertices], [None] while there is no vertex array. *)
Definition n_vertices (s : Drillhole) : option nat := length <$> vertices s.

(** Modelled from the spec: [n_cells] of the object base class: the number of
    rows of [cells], [None] while there is no cell array. *)
Definition n_cells (s : Drillhole) : option nat := length <$> cells s.

(** Modelled from the spec: [get_data(name)] of the object base class, whose
    source is not among the files modelled here: the child data entities
    carrying that name, in child order. *)
Definition get_data (nm : string) (s : Drillhole) : list Data :=
  filter (λ d, name d = nm) (children s).

(** Modelled from the spec: [workspace.create_entity(Data, ...)] of the
    workspace class, whose source is not among the files modelled here: with
    this drillhole as parent it appends one data entity to the ordered
    children. *)
Definition create_entity (d : Data) : M unit :=
  modify (λ s, set_children (children s ++ [d]) s).

(** Modelled from the spec: [workspace.finalize()] of the workspace class:
    it flushes staged attributes to the persistent store and leaves the
    in-memory entity as it is. *)
Definition finalize : M unit := mret ().

(** Modelled from the spec: the setter of [Data.values], applied to the first
    child carrying the name, which is the entity the [_depth], [_from] and
    [_to] properties return: the array is stored as given. *)
Fixpoint set_first_values (nm : string) (v : list float) (ch : list Data) : list Data :=
  match ch with
  | [] => []
  | d :: ch' =>
      if decide (name d = nm) then mkData (name d) (association d) (Some v) :: ch'
      else d :: set_first_values nm v ch'
  end.

Definition set_data_values (nm : string) (v : list float) : M unit :=
  modify (λ s, set_children (set_first_values nm v (children s)) s).

(** Modelled from the spec: the number of entries a data array is expected
    to have: one per vertex or one per cell; the data class is not among the
    files modelled here. *)
Definition n_values (s : Drillhole) (d : Data) : option nat :=
  match association d with
  | VERTEX => n_vertices s
  | CELL => n_cells s
  | _ => None
  end.

(** Modelled from the spec: [Data.check_vector_length]: a per-vertex
    (per-cell) array shorter than the number of vertices (cells), or absent,
    is padded at the end with the missing marker NaN; other arrays are
    returned as they are. *)
Definition check_vector_length (s : Drillhole) (d : Data) (v : option (list float))
  : option (list float) :=
  match n_values s d with
  | Some n =>
      let l := default [] v in
      if decide (length l < n) then Some (l ++ replicate (n - length l) NaN) else v
  | None => v
  end.

(** The array a data entity presents for its association: its values seen
    through [check_vector_length]. *)
Definition data_values (s : Drillhole) (d : Data) : option (list float) :=
  check_vector_length s d (values d).

(** ** objects/drillhole.py *)

(** One value of the dictionary handed to [add_data]; an absent key is [None].
    [from-to] is a Python list of rows or an array of shape
    [(length rows, shape1)]. *)
Record ndarray2 := mkArray2 { shape1 : nat; rows : list (list float) }.

Inductive from_to_arg := FromToList (l : list (list float)) | FromToArray (a : ndarray2).

Record attr := mkAttr {
  a_values : option (list float);
  a_collocation_distance : option float;
  a_depth : option (list float);
  a_from_to : option from_to_arg;
  a_association : option string
}.

Definition column (k : nat) (a : ndarray2) : list float :=
  (λ r, default NaN (r !! k)) <$> rows a.

Definition all_diff_ge0 (d : list float) : bool :=
  forallb (λ p, match p with
                | (Num x, Num y) => Qle_bool 0 (y - x)
                | _ => false
                end) (zip d (tail d)).

Definition eq_index (x y : option nat) : bool :=
  match x, y with
  | Some a, Some b => Nat.eqb a b
  | _, _ => false
  end.

Section Drillhole.
(** The point of the path at one depth: the dip/azimuth interpolation of
    [desurvey], which works entry by entry on the depths it is given. *)
Variable desurvey_at : point → list (float * float * float) → float → point.

Definition desurvey (depths : list float) : M (list point) :=
  s ← get;
  match surveys s, collar s with
  | Some sv, Some c => mret (desurvey_at c sv <$> depths)
  | _, _ => raise (AssertionError
              "'surveys' and 'collar' attributes required for desurvey operation")
  end.

(** Returns the indices given to the new vertices. *)
Definition add_vertices (xyz : list point) : M (list nat) :=
  s ← get;
  match vertices s with
  | None => modify (set_vertices xyz);; mret (seq 0 (length xyz))
  | Some v => modify (set_vertices (v ++ xyz));; mret (seq (length v) (length xyz))
  end.

(** Returns the augmented values and, next to them, the contents of the
    caller's [depth] array after the call: [merge_arrays] writes to it. The
    second merge runs with the default tolerance 1e-4, which it does not
    use since the mapping is given. *)
Definition validate_log_data (depth input_values : list float) (collocation_distance : Q)
  : M (list float * list float) :=
  assert_ (bool_decide (length depth = length input_values))
    "Mismatch between input 'depth' shape and 'values' shape";;
  s ← get;
  (if decide (get_data "DEPTH" s = [])
   then create_entity (mkData "DEPTH" VERTEX None) else mret ());;
  s ← get;
  match head (get_data "DEPTH" s) with
  | None => raise AttributeError
  | Some d =>
      match values d with
      | None =>
          xyz ← desurvey depth;
          add_vertices xyz;;
          s ← get;
          match n_vertices s with
          | None => raise TypeError
          | Some n =>
              if decide (n < length depth) then raise ValueError else
              let depth' := replicate (n - length depth) NaN ++ depth in
              let values := replicate (n - length input_values) NaN ++ input_values in
              set_data_values "DEPTH" depth';;
              mret (values, depth)
          end
      | Some dv =>
          m ← lift (merge_arrays dv depth "A->B" None collocation_distance);
          match n_vertices s with
          | None => raise TypeError
          | Some n =>
              mv ← lift (merge_arrays (replicate n NaN) input_values "B->A"
                           (Some (m_mapping m)) (1 # 10000));
              rest ← lift (np_delete (m_tail m) ((m_mapping m).*2));
              xyz ← desurvey rest;
              add_vertices xyz;;
              set_data_values "DEPTH" (m_out m);;
              finalize;;
              mret (m_out mv, m_tail m)
          end
      end
  end.

(** Returns the augmented values and the contents of the caller's [from_to]
    array after the call: its columns are views that [merge_arrays] writes
    to. A [from_to] given as a list reaches [np.vtack], which numpy does not
    have. The arrays [in_match], [out_match], [vert_new] and [new_cells] of
    shape (n, 2) are kept as their two columns; NaN in the index arrays is
    [None]. *)
Definition validate_interval_data (from_to : from_to_arg) (input_values : list float)
    (collocation_distance : Q) : M (list float * ndarray2) :=
  match from_to with
  | FromToList _ => raise AttributeError
  | FromToArray from_to =>
    assert_ (bool_decide (length (rows from_to) = length input_values))
      "Mismatch between input 'from_to' shape and 'values' shape";;
    assert_ (bool_decide (shape1 from_to = 2)) "The `from-to` values must have shape(*, 2)";;
    let froms := column 0 from_to in
    let tos := column 1 from_to in
    let flat := flatten2 (zip froms tos) in
    s ← get;
    match head (get_data "FROM" s), head (get_data "TO" s) with
    | None, None =>
        let '(uni_depth, inv_map) := np_unique flat in
        xyz ← desurvey uni_depth;
        idx ← add_vertices xyz;
        c ← lift (take_idx idx inv_map);
        modify (set_cells (reshape2 c));;
        create_entity (mkData "FROM" CELL (Some froms));;
        create_entity (mkData "TO" CELL (Some tos));;
        mret (input_values, from_to)
    | Some _from, Some _to =>
        match values _from, values _to with
        | Some from_values, Some to_values =>
            from_ind ← lift (match_values from_values froms collocation_distance);
            to_ind ← lift (match_values to_values tos collocation_distance);
            (* Find matching cells *)
            let nan_in := replicate (length from_values) (@None nat) in
            in0 ← lift (put nan_in (from_ind.*1) (Some <$> from_ind.*2));
            in1 ← lift (put nan_in (to_ind.*1) (Some <$> to_ind.*2));
            let nan_out := replicate (length froms) (@None nat) in
            out0 ← lift (put nan_out (from_ind.*2) (Some <$> from_ind.*1));
            out1 ← lift (put nan_out (to_ind.*2) (Some <$> to_ind.*1));
            let in_hit := np_where (zip_with eq_index in0 in1) in
            let out_hit := np_where (zip_with eq_index out0 out1) in
            (if decide (length in_hit = length out_hit) then mret ()
             else raise ValueError);;
            let cell_map := zip in_hit out_hit in
            (* Add vertices *)
            let all_new := replicate (length froms) true in
            new0 ← lift (put all_new (from_ind.*2) (replicate (length from_ind) false));
            new1 ← lift (put all_new (to_ind.*2) (replicate (length to_ind) false));
            let ind_new := np_where (flatten2 (zip new0 new1)) in
            picked ← lift (take_idx flat ind_new);
            let '(uni_new, inv_map) := np_unique picked in
            (* Add cells *)
            let new_cells := replicate (length flat) (@None nat) in
            xyz ← desurvey uni_new;
            idx ← add_vertices xyz;
            fresh ← lift (take_idx idx inv_map);
            new_cells ← lift (put new_cells ind_new (Some <$> fresh));
            let new_cells := reshape2 new_cells in
            s ← get;
            match cells s with
            | None => raise TypeError
            | Some cs =>
                from_cells ← lift (take_idx (cs.*1) (from_ind.*1));
                col0 ← lift (put (new_cells.*1) (from_ind.*2) (Some <$> from_cells));
                to_cells ← lift (take_idx (cs.*2) (to_ind.*1));
                col1 ← lift (put (new_cells.*2) (to_ind.*2) (Some <$> to_cells));
                new_cells ← lift (np_delete (zip col0 col1) (cell_map.*2));
                (* Append values *)
                mv ← lift (merge_arrays (replicate (length cs) NaN) input_values "B->A"
                             (Some cell_map) (1 # 10000));
                mf ← lift (merge_arrays from_values froms "A->B" (Some cell_map) (1 # 10000));
                set_data_values "FROM" (m_out mf);;
                mt ← lift (merge_arrays to_values tos "A->B" (Some cell_map) (1 # 10000));
                set_data_values "TO" (m_out mt);;
                modify (set_cells (cs ++ ((λ r, (default 0 r.1, default 0 r.2)) <$> new_cells)));;
                mret (m_out mv,
                      mkArray2 2 ((λ r, [r.1; r.2]) <$> zip (m_tail mf) (m_tail mt)))
            end
        | _, _ => raise ValueError
        end
    | _, _ => raise AttributeError
    end
  end.

(** The loop over the children in [sort_depths]; a child that raises leaves
    the children before it permuted. *)
Fixpoint sort_children (s : Drillhole) (sort_ind : list nat) (ch : list Data)
  : list Data * result unit :=
  match ch with
  | [] => ([], Ok ())
  | child :: ch' =>
      if decide (association child = VERTEX) then
        match check_vector_length s child (values child) with
        | None => (ch, Raise TypeError)
        | Some v =>
            match take_idx v sort_ind with
            | Raise e => (ch, Raise e)
            | Ok v' =>
                let '(r, res) := sort_children s sort_ind ch' in
                (mkData (name child) (association child) (Some v') :: r, res)
            end
        end
      else
        let '(r, res) := sort_children s sort_ind ch' in (child :: r, res)
  end.

Definition sort_depths : M unit :=
  s ← get;
  match get_data "DEPTH" s with
  | [] => mret ()
  | data_obj :: _ =>
      match check_vector_length s data_obj (values data_obj) with
      | None => raise ValueError
      | Some depths =>
          if all_diff_ge0 depths then mret () else
          let sort_ind := argsort depths in
          (λ s', let '(ch, res) := sort_children s sort_ind (children s') in
                 (set_children ch s', res));;
          s ← get;
          match vertices s with
          | None => mret ()
          | Some v => v' ← lift (take_idx v sort_ind); modify (set_vertices v')
          end;;
          match cells s with
          | None => mret ()
          | Some cs =>
              key_map ← lift (take_idx (argsort_int sort_ind) (flatten2 cs));
              modify (set_cells (reshape2 key_map))
          end
      end
  end;;
  finalize.

(** One turn of the loop of [add_data]. The data object it creates is
    returned as its position among the children. *)
Definition add_entry (nm : string) (a : attr) : M nat :=
  match a_values a with
  | None => raise (AssertionError "Given attr for data should include 'values'")
  | Some vals =>
      s ← get;
      collocation_distance ←
        match a_collocation_distance a with
        | Some cd =>
            match cd with
            | Num q =>
                assert_ (Qltb 0 q) "Input depth 'collocation_distance' must be >0.";;
                mret q
            | NaN => raise (AssertionError "Input depth 'collocation_distance' must be >0.")
            end
        | None => mret (default_collocation_distance s)
        end;
      '(assoc, vals) ←
        match a_depth a, a_from_to a with
        | Some depth, _ =>
            r ← validate_log_data depth vals collocation_distance;
            mret (VERTEX, r.1)
        | None, Some from_to =>
            r ← validate_interval_data from_to vals collocation_distance;
            mret (CELL, r.1)
        | None, None =>
            match a_association a with
            | None => raise KeyError
            | Some assoc =>
                assert_ (String.eqb assoc "OBJECT")
                  "Input data dictionary must contain 'depth', 'from-to' or 'association': 'OBJECT'";;
                mret (OBJECT, vals)
            end
        end;
      s ← get;
      create_entity (mkData nm assoc (Some vals));;
      mret (length (children s))
  end.

Fixpoint add_entries (data : list (string * attr)) : M (list nat) :=
  match data with
  | [] => mret []
  | (nm, a) :: data' =>
      d ← add_entry nm a;
      ds ← add_entries data';
      mret (d :: ds)
  end.

Definition add_data (data : list (string * attr)) : M (list nat) :=
  data_objects ← add_entries data;
  (* Check the depths and re-sort data if necessary *)
  sort_depths;;
  finalize;;
  mret data_objects.
End Drillhole.

(** ** Notions used in the statements *)

#[global] Instance float_inhabited : Inhabited float := populate NaN.

Definition num (z : Z) : float := Num (inject_Z z).

Definition le_pair {A} (le : A → A → bool) (p q : A * nat) : Prop := le p.1 q.1 = true.

(** The array [vec_a[ind_sort]] of [match_values]. *)
Definition sorted_of (a : list float) : list float := (sort_pairs fle a).*1.

(** The candidates [nearests[j] = (ind, ind - 1)] as positions of the sorted
    array, where [ss] is the insertion point and [n] the length: the index
    [-1] reads the last entry. *)
Definition neighbours (n ss : nat) : list nat :=
  let ind := ss `min` (n - 1) in
  [ind; if decide (ind = 0) then n - 1 else ind - 1].

(** The positions of the sorted array that query value [bj] is compared with. *)
Definition candidates (a : list float) (bj : float) : list nat :=
  neighbours (length a) (searchsorted_right (sorted_of a) bj).

(** [x] is one of the two neighbours of [bj] in the sorted order of [a]: the
    entry at the insertion point of [bj] or the entry just before it. *)
Definition is_neighbour (a : list float) (bj x : float) : Prop :=
  let ss := searchsorted_right (sorted_of a) bj in
  sorted_of a !! ss = Some x ∨ (0 < ss ∧ sorted_of a !! (ss - 1) = Some x).

(** Ascending in the order of [np.argsort] (NaN last). *)
Definition ascending (l : list float) : Prop :=
  ∀ k1 k2 x y, k1 ≤ k2 → l !! k1 = Some x → l !! k2 = Some y → fle x y = true.

Definition is_num (x : float) : Prop := ∃ q, x = Num q.

(** What one child looks like after the loop of [sort_depths]. *)
Definition child_sorted (s : Drillhole) (σ : list nat) (c c' : Data) : Prop :=
  name c' = name c ∧ association c' = association c ∧
  if decide (association c = VERTEX)
  then ∃ v v', data_values s c = Some v ∧ take_idx v σ = Ok v' ∧ values c' = Some v'
  else c' = c.

(** The number of vertices, 0 while there is no vertex array. *)
Definition nv (s : Drillhole) : nat := default 0 (n_vertices s).

(** The state invariant of log ingestion; [sorted] tells whether the pass of
    [sort_depths] that ends [add_data] has run. *)
Record log_invariant (sorted : bool) (s : Drillhole) : Prop := LogInvariant {
  inv_vertex : ∀ c, c ∈ children s → association c = VERTEX →
                    ∃ v, values c = Some v ∧ length v ≤ nv s;
  inv_depth : match head (get_data "DEPTH" s) with
              | None => vertices s = None
              | Some d =>
                  association d = VERTEX ∧
                  ∃ v, values d = Some v ∧ length v = nv s ∧ Forall is_num v ∧
                       (sorted = true → all_diff_ge0 v = true)
              end;
  inv_cells : ∀ cs c, cells s = Some cs → c ∈ cs → c.1 < nv s ∧ c.2 < nv s
}.

Section calls.
Variable desurvey_at : point → list (float * float * float) → float → point.

End calls.

(** A dictionary entry that is a log batch with numbers as depths. *)
Definition log_entry (e : string * attr) : Prop :=
  ∃ depth, a_depth e.2 = Some depth ∧ Forall is_num depth.

(** ** Example data *)

(** A straight vertical hole: the point at depth [d] below the collar. *)
Definition vertical (c : point) (sv : list (float * float * float)) (d : float) : point :=
  (c.1.1, c.1.2, match c.2, d with Num z, Num q => Num (z - q) | _, _ => NaN end).

Definition fresh_hole : Drillhole :=
  mkDrillhole (Some (num 0, num 0, num 0)) (Some [(num 0, num (-90), num 0)]) None None []
    (1 # 100).

Definition log_batch (depth values : list float) (cd : option float) : attr :=
  mkAttr (Some values) cd (Some depth) None None.

Definition interval_batch (from_to : list (list float)) (values : list float)
    (cd : option float) : attr :=
  mkAttr (Some values) cd None (Some (FromToArray (mkArray2 2 from_to))) None.

(** A hole with two sorted samples and one segment between them. *)
Definition two_sample_hole : Drillhole :=
  mkDrillhole (Some (num 0, num 0, num 0)) (Some [(num 0, num (-90), num 0)])
    (Some [(num 0, num 0, num (-10)); (num 0, num 0, num (-20))])
    (Some [(0, 1)])
    [mkData "DEPTH" VERTEX (Some [num 10; num 20]); mkData "Au" VERTEX (Some [num 1; num 2])]
    (1 # 100).


(** A hole whose DEPTH is out of order, with a short per-vertex array and a
    per-cell array. *)
Definition unsorted_hole : Drillhole :=
  mkDrillhole (Some (num 0, num 0, num 0)) (Some [(num 0, num (-90), num 0)])
    (Some [(num 0, num 0, num (-30)); (num 0, num 0, num (-10)); (num 0, num 0, num (-20))])
    (Some [(0, 1); (1, 2)])
    [mkData "DEPTH" VERTEX (Some [num 30; num 10; num 20]);
     mkData "Au" VERTEX (Some [num 3; num 1]);
     mkData "FROM" CELL (Some [num 30; num 10])]
    (1 # 100).

(** The errors of input validation in [add_data]: a length mismatch between
    values and depths or intervals, intervals that are not pairs, no depth,
    from-to or OBJECT association, a collocation distance that is not
    positive. *)
Definition validation_error (e : exn) : Prop :=
  e = AssertionError "Mismatch between input 'depth' shape and 'values' shape" ∨
  e = AssertionError "Mismatch between input 'from_to' shape and 'values' shape" ∨
  e = AssertionError "The `from-to` values must have shape(*, 2)" ∨
  e = AssertionError
        "Input data dictionary must contain 'depth', 'from-to' or 'association': 'OBJECT'" ∨
  e = KeyError ∨
  e = AssertionError "Input depth 'collocation_distance' must be >0.".

(** The errors raised once an entry has passed validation. *)
Definition internal_error (e : exn) : Prop :=
  e = IndexError ∨ e = ValueError ∨ e = TypeError ∨ e = AttributeError ∨
  e = AssertionError "'surveys' and 'collar' attributes required for desurvey operation".

Section example_holes.
Variable desurvey_at : point → list (float * float * float) → float → point.

(** The point of the hole of [fresh_hole] at an integer depth. *)
Definition at_depth (z : Z) : point :=
  desurvey_at (num 0, num 0, num 0) [(num 0, num (-90), num 0)] (num z).

(** The drillhole with segments FROM = [0, 10], TO = [10, 20]. *)
Definition two_segment_hole (a b : float) : Drillhole :=
  (add_data desurvey_at
     [("A"%string, interval_batch [[num 0; num 10]; [num 10; num 20]] [a; b] None)]
     fresh_hole).1.

(** The drillhole with two segments that start at the same depth:
    FROM = [0, 0], TO = [10, 5]. *)
Definition shared_from_hole (a b : float) : Drillhole :=
  (add_data desurvey_at
     [("A"%string, interval_batch [[num 0; num 10]; [num 0; num 5]] [a; b] None)]
     fresh_hole).1.
End example_holes.

(** The collocation distance [add_data] uses for an entry: the entry's own,
    which must be positive, or the drillhole's default. *)
Definition tolerance (cd : option float) (s : Drillhole) : option Q :=
  match cd with
  | Some (Num q) => if Qltb 0 q then Some q else None
  | Some NaN => None
  | None => Some (default_collocation_distance s)
  end.

(** ** Notions used in the further properties *)

(** The numbers of an array are pairwise at least twice the tolerance apart. *)
Definition separated (eps : Q) (a : list float) : Prop :=
  ∀ i i' x y, i ≠ i' → a !! i = Some (Num x) → a !! i' = Some (Num y) →
              (2 * eps <= Qabs (x - y))%Q.

(** A computation keeps the relation [R] between the drillhole it starts
    from and the one it leaves, whether it returns or raises. *)
Definition preserves (R : relation Drillhole) {A} (m : M A) : Prop := ∀ s, R s (m s).1.

(** Same collar, surveys and default collocation distance. *)
Definition same_survey (s s' : Drillhole) : Prop :=
  collar s' = collar s ∧ surveys s' = surveys s ∧
  default_collocation_distance s' = default_collocation_distance s.

(** What identifies a data entity among the children: name and association. *)
Definition key (d : Data) : string * Association := (name d, association d).

(** The children of [s] are the first children of [s'], values aside. *)
Definition children_extended (s s' : Drillhole) : Prop :=
  (key <$> children s) `prefix_of` (key <$> children s').

(** The vertices of [s] are the first vertices of [s']. *)
Definition vertices_extended (s s' : Drillhole) : Prop :=
  default [] (vertices s) `prefix_of` default [] (vertices s').

(** The association [add_data] gives the data entity of a dictionary entry. *)
Definition kind (a : attr) : Association :=
  match a_depth a, a_from_to a with
  | Some _, _ => VERTEX
  | None, Some _ => CELL
  | None, None => OBJECT
  end.




(** The setter of [default_collocation_distance]. *)
Definition set_default_collocation_distance (tol : float) : M unit :=
  match tol with
  | Num q =>
      assert_ (Qltb 0 q) "Tolerance value should be >0";;
      modify (λ s, mkDrillhole (collar s) (surveys s) (vertices s) (cells s) (children s) q)
  | NaN => raise (AssertionError "Tolerance value should be >0")
  end.

(** A call on the drillhole: the setter of the default collocation distance
    or [add_data]. *)
Inductive call :=
| SetTolerance (tol : float)
| AddData (data : list (string * attr)).

Section sequence.
Variable desurvey_at : point → list (float * float * float) → float → point.

(** The drillhole a call leaves, whether it returns or raises. *)
Definition run_call (c : call) (s : Drillhole) : Drillhole :=
match c with
| SetTolerance tol => (set_default_collocation_distance tol s).1
| AddData data => (add_data desurvey_at data s).1
end.

Definition run_sequence (cs : list call) (s : Drillhole) : Drillhole :=
foldl (λ s c, run_call c s) s cs.
End sequence.

(** * Properties *)

(** ** Order and tolerance on floats *)

Lemma Qltb_lt (x y : Q) : Qltb x y = true ↔ (x < y)%Q.
Proof.
  unfold Qltb. rewrite negb_true_iff. split.
  - intros H. apply Qnot_le_lt. intros Hle. apply Qle_bool_iff in Hle. congruence.
  - intros H. destruct (Qle_bool y x) eqn:E; [|done].
    apply Qle_bool_iff in E. lra.
Qed.

Lemma fle_total (x y : float) : fle x y = true ∨ fle y x = true.
Proof.
  destruct x as [|p], y as [|q]; simpl; auto.
  destruct (Qle_bool p q) eqn:E; [auto|]. right.
  apply Qle_bool_iff. destruct (Qlt_le_dec q p) as [H|H]; [lra|].
  apply Qle_bool_iff in H. congruence.
Qed.

Lemma fle_trans (x y z : float) : fle x y = true → fle y z = true → fle x z = true.
Proof.
  destruct x as [|p], y as [|q], z as [|r]; simpl; try done.
  rewrite !Qle_bool_iff. lra.
Qed.

Lemma fle_false (x y : float) : fle x y = false → fle y x = true.
Proof. intros H. destruct (fle_total x y); congruence. Qed.

Lemma fle_Num (p q : Q) : fle (Num p) (Num q) = true ↔ (p <= q)%Q.
Proof. apply Qle_bool_iff. Qed.

Lemma fle_Num_false (p q : Q) : fle (Num p) (Num q) = false ↔ (q < p)%Q.
Proof.
  simpl. split.
  - intros H. apply Qnot_le_lt. intros Hle. apply Qle_bool_iff in Hle. congruence.
  - intros H. destruct (Qle_bool p q) eqn:E; [|done]. apply Qle_bool_iff in E. lra.
Qed.

Lemma close_spec (eps : Q) (x b : float) :
  close eps x b = true ↔ ∃ p q, x = Num p ∧ b = Num q ∧ (Qabs (p - q) < eps)%Q.
Proof.
  destruct x as [|p], b as [|q]; simpl; try (split; [done|intros (?&?&?&?&?); done]).
  rewrite Qltb_lt. split; [eauto|]. by intros (?&?&[= ->]&[= ->]&?).
Qed.

(** A number between a close pair is close as well. *)
Lemma close_between (eps p q r : Q) :
  (Qabs (p - r) < eps)%Q → ((p <= q <= r) ∨ (r <= q <= p))%Q → (Qabs (q - r) < eps)%Q.
Proof.
  intros H Hb. apply Qabs_Qlt_condition in H. apply Qabs_Qlt_condition. lra.
Qed.

(** ** The exception monad *)

Lemma mapM_Ok_fmap {A B} (f : A → result B) (g : A → B) (l : list A) :
  Forall (λ x, f x = Ok (g x)) l → mapM f l = Ok (g <$> l).
Proof.
  induction 1 as [|x l Hx _ IH]; [done|].
  simpl. rewrite Hx. simpl. rewrite IH. done.
Qed.

Lemma mapM_fmap {A B C} (f : B → result C) (h : A → B) (l : list A) :
  mapM f (h <$> l) = mapM (f ∘ h) l.
Proof. induction l as [|x l IH]; [done|]. simpl. by rewrite <- IH. Qed.

Lemma mapM_Ok_length {A B} (f : A → result B) (l : list A) (k : list B) :
  mapM f l = Ok k → length k = length l.
Proof.
  revert k. induction l as [|x l IH]; intros k; simpl; [by intros [= <-]|].
  destruct (f x); [|done]. simpl. destruct (mapM f l); [|done]. simpl.
  intros [= <-]. simpl. f_equal. by apply IH.
Qed.

Lemma py_index_nat {A} (l : list A) (i : nat) (x : A) :
  l !! i = Some x → py_index l (Z.of_nat i) = Ok x.
Proof.
  intros H. unfold py_index. pose proof (lookup_lt_Some _ _ _ H). cbv zeta.
  destruct (decide (Z.of_nat i < 0)%Z); [lia|].
  destruct (decide _); [|lia].
  by rewrite Nat2Z.id, H.
Qed.

Lemma py_index_neg {A} (l : list A) (x : A) :
  l !! (length l - 1) = Some x → py_index l (-1) = Ok x.
Proof.
  intros H. unfold py_index. pose proof (lookup_lt_Some _ _ _ H). cbv zeta.
  destruct (decide (-1 < 0)%Z); [|lia].
  destruct (decide _); [|lia].
  replace (Z.to_nat (Z.of_nat (length l) + -1)) with (length l - 1) by lia.
  by rewrite H.
Qed.

Lemma py_index_nil {A} (i : Z) : py_index (@nil A) i = Raise IndexError.
Proof. unfold py_index. simpl. repeat case_decide; done || lia. Qed.

Lemma py_index_Ok {A} (l : list A) (i : Z) (x : A) :
  py_index l i = Ok x → x ∈ l.
Proof.
  unfold py_index. cbv zeta. destruct (decide (0 ≤ _ < _)%Z); [|done].
  destruct (l !! _) eqn:E; [|done]. intros [= <-]. by eapply list_elem_of_lookup_2.
Qed.
(** ** Sorting *)

Lemma StronglySorted_lookup_lt {A} (R : relation A) (l : list A) (i j : nat) (x y : A) :
  StronglySorted R l → i < j → l !! i = Some x → l !! j = Some y → R x y.
Proof.
  intros Hs. revert i j. induction Hs as [|z l Hs IH Hz]; intros i j Hij Hi Hj; [done|].
  destruct j as [|j]; [lia|]. simpl in Hj. destruct i as [|i]; simpl in Hi.
  - simplify_eq. eapply Forall_forall in Hz; [exact Hz|]. by eapply list_elem_of_lookup_2.
  - eapply IH; [|done..]. lia.
Qed.

Section argsort_facts.
Context {A : Type} (le : A → A → bool).
Hypothesis le_total : ∀ x y, le x y = true ∨ le y x = true.
Hypothesis le_trans : ∀ x y z, le x y = true → le y z = true → le x z = true.

Lemma insert_by_perm x l : insert_by le x l ≡ₚ x :: l.
Proof.
  induction l as [|y l IH]; simpl; [done|].
  destruct (le x.1 y.1); [done|]. rewrite IH. apply Permutation_swap.
Qed.

Lemma sort_pairs_perm v : sort_pairs le v ≡ₚ zip v (seq 0 (length v)).
Proof.
  unfold sort_pairs. generalize (zip v (seq 0 (length v))).
  induction l as [|x l IH]; simpl; [done|].
  by rewrite insert_by_perm, IH.
Qed.

Lemma insert_by_sorted x l :
  StronglySorted (le_pair le) l → StronglySorted (le_pair le) (insert_by le x l).
Proof using le_total le_trans.
  induction 1 as [|y l Hs IH Hy]; simpl.
  - repeat constructor.
  - destruct (le x.1 y.1) eqn:E.
    + constructor; [by constructor|]. constructor; [done|].
      eapply Forall_impl; [exact Hy|]. intros z Hz. unfold le_pair in *. eauto.
    + constructor; [done|]. rewrite insert_by_perm. constructor; [|done].
      unfold le_pair. destruct (le_total x.1 y.1); congruence.
Qed.

Lemma sort_pairs_sorted v : StronglySorted (le_pair le) (sort_pairs le v).
Proof using le_total le_trans.
  unfold sort_pairs. generalize (zip v (seq 0 (length v))).
  induction l as [|x l IH]; simpl; [constructor|]. by apply insert_by_sorted.
Qed.

Lemma sort_pairs_elem v x i : (x, i) ∈ sort_pairs le v ↔ v !! i = Some x.
Proof.
  rewrite sort_pairs_perm. rewrite list_elem_of_lookup. split.
  - intros [k Hk]. apply lookup_zip_with_Some in Hk as (a & b & [= -> ->] & Ha & Hb).
    apply lookup_seq in Hb as [-> _]. done.
  - intros H. exists i. apply lookup_zip_with_Some. exists x, i.
    split_and!; [done..|]. apply lookup_seq. split; [done|]. by eapply lookup_lt_Some.
Qed.

Lemma sort_pairs_length v : length (sort_pairs le v) = length v.
Proof.
  rewrite sort_pairs_perm. rewrite length_zip_with, length_seq. lia.
Qed.

Lemma argsort_by_perm v : argsort_by le v ≡ₚ seq 0 (length v).
Proof.
  unfold argsort_by. rewrite sort_pairs_perm. rewrite snd_zip; [done|].
  rewrite length_seq. lia.
Qed.

Lemma argsort_by_length v : length (argsort_by le v) = length v.
Proof. by rewrite argsort_by_perm, length_seq. Qed.

Lemma take_idx_argsort v : take_idx v (argsort_by le v) = Ok (sort_pairs le v).*1.
Proof.
  unfold take_idx, fancy, argsort_by. rewrite !mapM_fmap.
  apply mapM_Ok_fmap. apply Forall_forall. intros [x i] Hin. simpl.
  apply py_index_nat. by apply sort_pairs_elem.
Qed.

Lemma sort_pairs_lookup_le v k1 k2 p q :
  k1 ≤ k2 → sort_pairs le v !! k1 = Some p → sort_pairs le v !! k2 = Some q →
  le p.1 q.1 = true.
Proof using le_total le_trans.
  intros Hk H1 H2. destruct (decide (k1 = k2)) as [->|Hne].
  - simplify_eq. destruct (le_total p.1 p.1); done.
  - pose proof (sort_pairs_sorted v) as Hs.
    eapply (StronglySorted_lookup_lt (le_pair le) _ k1 k2); [done|lia|done..].
Qed.
End argsort_facts.
(** ** Array primitives *)

Lemma elem_of_np_where (l : list bool) (i : nat) : i ∈ np_where l ↔ l !! i = Some true.
Proof.
  unfold np_where. rewrite list_elem_of_bind. split.
  - intros (y & Hi & Hy). apply elem_of_lookup_imap in Hy as (k & b & -> & Hk).
    destruct b; [|by apply elem_of_nil in Hi]. by apply list_elem_of_singleton in Hi as ->.
  - intros H. exists [i]. split; [by apply list_elem_of_singleton|].
    apply elem_of_lookup_imap. by exists i, true.
Qed.

Lemma elem_of_np_where2 (m : list (list bool)) (r c : nat) :
  (r, c) ∈ np_where2 m ↔ ∃ row, m !! r = Some row ∧ row !! c = Some true.
Proof.
  unfold np_where2. rewrite list_elem_of_bind. split.
  - intros (y & Hi & Hy). apply elem_of_lookup_imap in Hy as (k & row & -> & Hk).
    apply list_elem_of_fmap in Hi as (c' & [= -> ->] & Hc). exists row. split; [done|].
    by apply elem_of_np_where.
  - intros (row & Hr & Hc). exists ((λ c, (r, c)) <$> np_where row). split.
    + apply list_elem_of_fmap. exists c. split; [done|]. by apply elem_of_np_where.
    + apply elem_of_lookup_imap. by exists r, row.
Qed.

Lemma searchsorted_right_le (a : list float) (v : float) :
  searchsorted_right a v ≤ length a.
Proof. induction a as [|x a IH]; simpl; [lia|]. destruct (fle x v); simpl; lia. Qed.

Lemma searchsorted_right_before (a : list float) (v x : float) (k : nat) :
  k < searchsorted_right a v → a !! k = Some x → fle x v = true.
Proof.
  revert k. induction a as [|y a IH]; intros k; simpl; [lia|].
  destruct (fle y v) eqn:E; [|lia]. destruct k as [|k]; simpl.
  - by intros _ [= <-].
  - intros Hk. apply IH. lia.
Qed.

Lemma searchsorted_right_at (a : list float) (v x : float) :
  a !! searchsorted_right a v = Some x → fle x v = false.
Proof.
  induction a as [|y a IH]; simpl; [done|].
  destruct (fle y v) eqn:E; simpl; [done|]. by intros [= <-].
Qed.

Lemma neighbours_lt (n ss k : nat) : 0 < n → k ∈ neighbours n ss → k < n.
Proof.
  intros Hn. unfold neighbours. cbv zeta. rewrite !elem_of_cons, elem_of_nil.
  case_decide; lia.
Qed.

Lemma fancy_nearest {A} `{Inhabited A} (l : list A) (ss : nat) :
  0 < length l →
  fancy l [Z.of_nat ss `min` (Z.of_nat (length l) - 1);
           Z.of_nat ss `min` (Z.of_nat (length l) - 1) - 1]%Z
  = Ok ((l !!!.) <$> neighbours (length l) ss).
Proof.
  intros Hn. unfold fancy, neighbours. cbv zeta.
  replace (Z.of_nat ss `min` (Z.of_nat (length l) - 1))%Z
    with (Z.of_nat (ss `min` (length l - 1))) by lia.
  set (ind := ss `min` (length l - 1)).
  assert (Hi : ind < length l) by lia.
  assert (H1 : py_index l (Z.of_nat ind - 1)
               = Ok (l !!! (if decide (ind = 0) then length l - 1 else ind - 1))).
  { case_decide as Hz.
    - rewrite Hz. change (Z.of_nat 0 - 1)%Z with (-1)%Z.
      apply py_index_neg, list_lookup_lookup_total_lt. lia.
    - replace (Z.of_nat ind - 1)%Z with (Z.of_nat (ind - 1)) by lia.
      apply py_index_nat, list_lookup_lookup_total_lt. lia. }
  cbn [mapM]. rewrite H1, (py_index_nat l ind (l !!! ind)); [done|].
  by apply list_lookup_lookup_total_lt.
Qed.
(** ** match_values *)

Lemma sorted_of_length a : length (sorted_of a) = length a.
Proof. unfold sorted_of. by rewrite length_fmap, sort_pairs_length. Qed.

Lemma take_idx_argsort_float a : take_idx a (argsort a) = Ok (sorted_of a).
Proof. apply take_idx_argsort. Qed.

Lemma argsort_length a : length (argsort a) = length a.
Proof. apply argsort_by_length. Qed.

Lemma fancy_two {A} (l : list A) (z0 z1 : Z) (v : list A) :
  fancy l [z0; z1] = Ok v →
  ∃ v0 v1, v = [v0; v1] ∧ py_index l z0 = Ok v0 ∧ py_index l z1 = Ok v1.
Proof.
  unfold fancy. cbn [mapM]. destruct (py_index l z0) as [v0|]; [|done].
  destruct (py_index l z1) as [v1|]; [|done]. intros [= <-]. eauto.
Qed.

Lemma match_values_eq (a b : list float) (eps : Q) :
  a ≠ [] →
  match_values a b eps =
    Ok ((λ rc, (argsort a !!! (candidates a (b !!! rc.1) !!! rc.2), rc.1)) <$>
        np_where2 ((λ bj, (λ x, close eps x bj) <$> ((sorted_of a !!!.) <$> candidates a bj))
                     <$> b)).
Proof.
  intros Ha. assert (Hn : 0 < length a) by (destruct a; [done|simpl; lia]).
  unfold match_values. cbv zeta. rewrite take_idx_argsort_float.
  cbn [mbind result_bind].
  rewrite <- list_fmap_compose. rewrite mapM_fmap.
  rewrite (mapM_Ok_fmap _ (λ bj, (sorted_of a !!!.) <$> candidates a bj)).
  2:{ apply Forall_forall. intros bj _. cbn [compose]. unfold candidates.
      rewrite <- (sorted_of_length a). apply fancy_nearest.
      rewrite sorted_of_length. done. }
  cbn [mbind result_bind]. rewrite zip_with_fmap_l, zip_with_diag.
  apply mapM_Ok_fmap. apply Forall_forall. intros [r c] Hrc.
  apply elem_of_np_where2 in Hrc as (row & Hr & Hc).
  apply list_lookup_fmap_Some in Hr as (bj & -> & Hb).
  unfold index2. rewrite list_lookup_fmap, Hb. cbn [fmap option_fmap option_map compose].
  pose proof (fancy_nearest (argsort a) (searchsorted_right (sorted_of a) bj)) as Hf.
  rewrite argsort_length in Hf. specialize (Hf Hn).
  apply fancy_two in Hf as (v0 & v1 & Hv & H0 & H1).
  cbn [fst snd]. rewrite (list_lookup_total_correct _ _ _ Hb).
  fold (candidates a bj) in Hv.
  assert (Hc2 : c < 2).
  { apply lookup_lt_Some in Hc. rewrite !length_fmap in Hc. exact Hc. }
  destruct (candidates a bj) as [|k0 [|k1 [|]]] eqn:Hk; try discriminate Hv.
  injection Hv as <- <-.
  destruct c as [|[|c]]; [| |lia]; cbn [lookup list_lookup mbind result_bind].
  - rewrite H0. done.
  - rewrite H1. done.
Qed.
Lemma sort_pairs_lookup_total (a : list float) (k : nat) :
  k < length a →
  sort_pairs fle a !! k = Some (sorted_of a !!! k, argsort a !!! k).
Proof.
  intros Hk. rewrite <- (sort_pairs_length fle a) in Hk.
  destruct (lookup_lt_is_Some_2 _ _ Hk) as [[x i] Hp]. rewrite Hp. f_equal. f_equal.
  - symmetry. apply list_lookup_total_correct. unfold sorted_of.
    by rewrite list_lookup_fmap, Hp.
  - symmetry. apply list_lookup_total_correct. unfold argsort, argsort_by.
    by rewrite list_lookup_fmap, Hp.
Qed.

Lemma match_row_lookup (a : list float) (eps : Q) (bj : float) (c : nat) :
  ((λ x, close eps x bj) <$> ((sorted_of a !!!.) <$> candidates a bj)) !! c = Some true ↔
  ∃ k, candidates a bj !! c = Some k ∧ close eps (sorted_of a !!! k) bj = true.
Proof.
  generalize (candidates a bj). intros cs. rewrite !list_lookup_fmap.
  destruct (cs !! c) as [k|]; simpl.
  - split; [intros [= H]; eauto|]. by intros (? & [= <-] & ->).
  - split; [done|]. by intros (? & ? & _).
Qed.

Lemma match_values_elem (a b : list float) (eps : Q) (res : list (nat * nat)) :
  a ≠ [] → match_values a b eps = Ok res →
  ∀ i j, (i, j) ∈ res ↔
    ∃ bj k x, b !! j = Some bj ∧ k ∈ candidates a bj ∧
              sort_pairs fle a !! k = Some (x, i) ∧ close eps x bj = true.
Proof.
  intros Ha Hm i j. assert (Hn : 0 < length a) by (destruct a; [done|simpl; lia]).
  rewrite match_values_eq in Hm by done. injection Hm as <-.
  rewrite list_elem_of_fmap. split.
  - intros ([r c] & [= -> ->] & Hrc). cbn [fst snd].
    apply elem_of_np_where2 in Hrc as (row & Hr & Hc).
    apply list_lookup_fmap_Some in Hr as (bj & Hrow & Hb). rewrite Hrow in Hc.
    apply match_row_lookup in Hc as (k & Hk & Hc).
    rewrite (list_lookup_total_correct _ _ _ Hb), (list_lookup_total_correct _ _ _ Hk).
    exists bj, k, (sorted_of a !!! k).
    assert (Hin : k ∈ candidates a bj) by (by eapply list_elem_of_lookup_2).
    split_and!; [done|done| |done].
    apply sort_pairs_lookup_total. by eapply neighbours_lt.
  - intros (bj & k & x & Hb & Hk & Hp & Hc).
    apply list_elem_of_lookup_1 in Hk as Hk'. destruct Hk' as [c Hkc].
    exists (j, c). cbn [fst snd].
    rewrite (list_lookup_total_correct _ _ _ Hb), (list_lookup_total_correct _ _ _ Hkc).
    rewrite sort_pairs_lookup_total in Hp by (by eapply neighbours_lt).
    injection Hp as <- <-. split; [done|].
    apply elem_of_np_where2. eexists. split.
    + apply list_lookup_fmap_Some. eauto.
    + apply match_row_lookup. eauto.
Qed.

Lemma match_values_nil_l (x : float) (b : list float) (eps : Q) :
  match_values [] (x :: b) eps = Raise IndexError.
Proof. reflexivity. Qed.

Lemma match_values_nil_r (a : list float) (eps : Q) : match_values a [] eps = Ok [].
Proof.
  destruct a as [|x a]; [reflexivity|]. by rewrite match_values_eq.
Qed.

Lemma match_values_total (a b : list float) (eps : Q) :
  a ≠ [] ∨ b = [] → ∃ res, match_values a b eps = Ok res.
Proof.
  intros [Ha| ->]; [|by rewrite match_values_nil_r; eauto].
  rewrite match_values_eq by done. eauto.
Qed.

(** Every pair relates an entry of [a] (at its position before sorting) and
    a query value that are within the tolerance. *)
Lemma match_values_close (a b : list float) (eps : Q) (res : list (nat * nat)) (i j : nat) :
  match_values a b eps = Ok res → (i, j) ∈ res →
  ∃ x y, a !! i = Some (Num x) ∧ b !! j = Some (Num y) ∧ (Qabs (x - y) < eps)%Q.
Proof.
  intros Hm Hin. destruct (decide (a = [])) as [->|Ha].
  { destruct b; [|done]. injection Hm as <-. by apply elem_of_nil in Hin. }
  apply (match_values_elem a b eps res Ha Hm) in Hin as (bj & k & x & Hb & Hk & Hp & Hc).
  apply close_spec in Hc as (p & q & -> & -> & Hpq). exists p, q. split_and!; [|done..].
  apply (sort_pairs_elem fle). by eapply list_elem_of_lookup_2.
Qed.

(** C6: [match_values] is sound. It returns whenever [A] is non-empty or [B]
    is empty; each returned pair [(i, j)] holds a position [i] of [A] as
    passed (before sorting) and a position [j] of [B] with
    [|A[i] - B[j]| < eps]; and no pair is returned when no entry of [A] is
    within [eps] of an entry of [B]. Neither sortedness of [A] nor [eps > 0]
    is needed. *)
Theorem match_values_sound (A B : list float) (eps : Q) :
  (A ≠ [] ∨ B = [] → ∃ res, match_values A B eps = Ok res) ∧
  ∀ res, match_values A B eps = Ok res →
    (∀ i j, (i, j) ∈ res →
       ∃ x y, A !! i = Some (Num x) ∧ B !! j = Some (Num y) ∧ (Qabs (x - y) < eps)%Q) ∧
    ((∀ i j x y, A !! i = Some (Num x) → B !! j = Some (Num y) → ¬ (Qabs (x - y) < eps)%Q) →
     res = []).
Proof.
  split; [apply match_values_total|]. intros res Hm. split.
  - intros i j. by apply match_values_close.
  - intros Hfar. destruct res as [|[i j] res]; [done|]. exfalso.
    destruct (match_values_close A B eps _ i j Hm) as (x & y & Hx & Hy & Hxy);
      [by left|]. by eapply Hfar.
Qed.

Lemma match_values_sound_witness :
  match_values [num 10; num 30; num 20] [Num (20001 # 1000); num 40] (1 # 100) = Ok [(2, 0)] ∧
  ∃ x y, [num 10; num 30; num 20] !! 2 = Some (Num x) ∧
         [Num (20001 # 1000); num 40] !! 0 = Some (Num y) ∧ (Qabs (x - y) < 1 # 100)%Q.
Proof.
  split; [reflexivity|].
  destruct (match_values_sound [num 10; num 30; num 20] [Num (20001 # 1000); num 40] (1 # 100))
    as [_ H].
  destruct (H [(2, 0)] eq_refl) as [Hs _]. apply (Hs 2 0). by left.
Defined.

(** ** The insertion point and the two candidates *)

Lemma sorted_of_le (a : list float) (k1 k2 : nat) (x y : float) :
  k1 ≤ k2 → sorted_of a !! k1 = Some x → sorted_of a !! k2 = Some y → fle x y = true.
Proof.
  unfold sorted_of. rewrite !list_lookup_fmap. intros Hk H1 H2.
  destruct (sort_pairs fle a !! k1) as [p|] eqn:E1; [|done].
  destruct (sort_pairs fle a !! k2) as [q|] eqn:E2; [|done].
  simpl in *. simplify_eq.
  eapply (sort_pairs_lookup_le fle fle_total fle_trans); eauto.
Qed.

(** In the sorted array the entries before the insertion point are those
    that are [<= v]. *)
Lemma insertion_point (a : list float) (v x : float) (k : nat) :
  sorted_of a !! k = Some x →
  (k < searchsorted_right (sorted_of a) v ↔ fle x v = true).
Proof.
  intros Hk. split; [by eauto using searchsorted_right_before|].
  intros Hle. destruct (decide (k < searchsorted_right (sorted_of a) v)) as [|Hge]; [done|].
  exfalso. assert (Hlt : searchsorted_right (sorted_of a) v < length (sorted_of a)).
  { apply lookup_lt_Some in Hk. lia. }
  destruct (lookup_lt_is_Some_2 _ _ Hlt) as [y Hy].
  pose proof (searchsorted_right_at _ _ _ Hy) as Hf.
  assert (fle y x = true) by (eapply sorted_of_le; [|exact Hy|exact Hk]; lia).
  rewrite (fle_trans y x v) in Hf; done.
Qed.

Lemma sorted_of_lookup_elem (a : list float) (i : nat) (x : float) :
  a !! i = Some x → ∃ k, sort_pairs fle a !! k = Some (x, i).
Proof. intros H. apply list_elem_of_lookup_1. by apply sort_pairs_elem. Qed.

(** A query value with an entry of [a] within the tolerance is matched: one of
    its two candidates lies between the two. *)
Lemma match_values_complete (a b : list float) (eps : Q) (res : list (nat * nat))
    (i j : nat) (x bj : float) :
  match_values a b eps = Ok res →
  a !! i = Some x → b !! j = Some bj → close eps x bj = true →
  ∃ i', (i', j) ∈ res.
Proof.
  intros Hm Ha Hb Hc. assert (Hne : a ≠ []) by (by intros ->).
  assert (Hn : 0 < length a) by (apply lookup_lt_Some in Ha; lia).
  apply close_spec in Hc as (p & q & -> & -> & Hpq).
  destruct (sorted_of_lookup_elem a i _ Ha) as [kx Hkx].
  assert (Hsx : sorted_of a !! kx = Some (Num p)).
  { unfold sorted_of. by rewrite list_lookup_fmap, Hkx. }
  pose proof (insertion_point a (Num q) _ _ Hsx) as Hip.
  set (ss := searchsorted_right (sorted_of a) (Num q)) in *.
  assert (Hss : ss ≤ length a).
  { unfold ss. rewrite <- (sorted_of_length a). apply searchsorted_right_le. }
  assert (Hkxn : kx < length a).
  { apply lookup_lt_Some in Hsx. by rewrite sorted_of_length in Hsx. }
  assert (∃ k y, k ∈ neighbours (length a) ss ∧ sorted_of a !! k = Some y ∧
                 close eps y (Num q) = true) as (k & y & Hk & Hy & Hcl).
  { destruct (fle (Num p) (Num q)) eqn:Hle.
    - assert (Hlt : kx < ss) by (by apply Hip).
      assert (Hl : ss - 1 < length (sorted_of a)) by (rewrite sorted_of_length; lia).
      destruct (lookup_lt_is_Some_2 _ _ Hl) as [y Hy]. exists (ss - 1), y.
      split_and!; [|done|].
      + unfold neighbours. cbv zeta. rewrite !elem_of_cons. case_decide; lia.
      + assert (Hyq : fle y (Num q) = true).
        { apply (insertion_point a (Num q) y (ss - 1) Hy). fold ss. lia. }
        assert (Hpy : fle (Num p) y = true).
        { eapply sorted_of_le; [|exact Hsx|exact Hy]. lia. }
        destruct y as [|r]; [done|]. apply fle_Num in Hyq, Hpy, Hle.
        apply close_spec. exists r, q. split_and!; [done..|].
        eapply close_between; [exact Hpq|]. left. lra.
    - assert (Hge : ¬ kx < ss) by (intros H; apply Hip in H; congruence).
      assert (Hl : ss < length (sorted_of a)) by (rewrite sorted_of_length; lia).
      destruct (lookup_lt_is_Some_2 _ _ Hl) as [y Hy]. exists ss, y.
      split_and!; [|done|].
      + unfold neighbours. cbv zeta. rewrite !elem_of_cons. lia.
      + assert (Hyq : fle y (Num q) = false).
        { apply (searchsorted_right_at (sorted_of a)). exact Hy. }
        assert (Hyp : fle y (Num p) = true).
        { eapply sorted_of_le; [|exact Hy|exact Hsx]. lia. }
        destruct y as [|r]; [done|]. apply fle_Num in Hyp.
        apply fle_Num_false in Hyq, Hle.
        apply close_spec. exists r, q. split_and!; [done..|].
        eapply close_between; [exact Hpq|]. right. lra. }
  assert (Hkn : k < length a) by (by eapply neighbours_lt).
  exists (argsort a !!! k). apply (match_values_elem a b eps res Hne Hm).
  exists (Num q), k, y. split_and!; [done|done| |done].
  rewrite sort_pairs_lookup_total by done. f_equal. f_equal.
  by apply list_lookup_total_correct.
Qed.

(** C7 (as stated) fails above the last entry: the query 3.5 is compared with
    the last two entries of [1, 2, 3], and the pair with the entry 2 is
    returned although 2 is neither at the insertion point nor just before
    it. *)
Lemma match_values_local_counterexample :
  ∃ res i j x bj,
    match_values [num 1; num 2; num 3] [Num (7 # 2)] 2 = Ok res ∧ (i, j) ∈ res ∧
    [num 1; num 2; num 3] !! i = Some x ∧ [Num (7 # 2)] !! j = Some bj ∧
    ¬ is_neighbour [num 1; num 2; num 3] bj x.
Proof.
  exists [(2, 0); (1, 0)], 1, 0, (num 2), (Num (7 # 2)).
  split_and!; [reflexivity|by right; left|reflexivity|reflexivity|].
  intros [H|[_ H]]; vm_compute in H; discriminate H.
Qed.

(** C7 (amended): a query value [bj] with at least one entry of [A] at or
    below it is compared only with the sorted entries at [ind] and [ind - 1],
    where [ind] is the insertion point of [bj], capped at the last position:
    every returned pair [(i, j)] has [A[i]] at one of these two positions of
    the sorted array. Entries before the insertion point are those [<= bj]. *)
Theorem match_values_local (A B : list float) (eps : Q) (res : list (nat * nat))
    (i j : nat) (bj : float) :
  match_values A B eps = Ok res → (i, j) ∈ res → B !! j = Some bj →
  0 < searchsorted_right (sorted_of A) bj →
  let ss := searchsorted_right (sorted_of A) bj in
  let ind := ss `min` (length A - 1) in
  (∃ k x, (k = ind ∨ S k = ind) ∧ sorted_of A !! k = Some x ∧
          argsort A !! k = Some i ∧ A !! i = Some x) ∧
  (∀ k x, sorted_of A !! k = Some x → (k < ss ↔ fle x bj = true)).
Proof.
  intros Hm Hin Hb Hss ss ind. split; [|intros k x; apply insertion_point].
  destruct (decide (A = [])) as [->|Hne].
  { destruct B; [|done]. injection Hm as <-. by apply elem_of_nil in Hin. }
  apply (match_values_elem A B eps res Hne Hm) in Hin as (bj' & k & x & Hb' & Hk & Hp & _).
  rewrite Hb in Hb'. injection Hb' as <-. exists k, x. split_and!.
  - unfold candidates, neighbours in Hk. cbv zeta in Hk. fold ss in Hk. fold ind in Hk.
    rewrite !elem_of_cons, elem_of_nil in Hk. case_decide; lia.
  - unfold sorted_of. by rewrite list_lookup_fmap, Hp.
  - unfold argsort, argsort_by. by rewrite list_lookup_fmap, Hp.
  - apply (sort_pairs_elem fle). by eapply list_elem_of_lookup_2.
Qed.

Lemma match_values_local_witness :
  ∃ k x, (k = 2 ∨ S k = 2) ∧ sorted_of [num 10; num 30; num 20] !! k = Some x ∧
         argsort [num 10; num 30; num 20] !! k = Some 2 ∧
         [num 10; num 30; num 20] !! 2 = Some x.
Proof.
  refine (proj1 (match_values_local [num 10; num 30; num 20] [num 20] 1 [(2, 0)] 2 0 (num 20)
                   _ _ _ _)).
  - reflexivity.
  - by left.
  - reflexivity.
  - vm_compute. lia.
Defined.

(** C8 (as stated) fails: an empty reference array with a non-empty query
    array raises. *)
Lemma match_values_empty_counterexample :
  match_values [] [num 1] 1 = Raise IndexError ∧ match_values [] [num 1] 1 ≠ Ok [].
Proof. split; [reflexivity|discriminate]. Qed.

(** C8 (amended): [match_values] returns no pair, and does not raise, when
    the query array is empty; with an empty reference array and a non-empty
    query array it raises IndexError. *)
Theorem match_values_empty (A B : list float) (eps : Q) :
  (B = [] → match_values A B eps = Ok []) ∧
  (A = [] → B ≠ [] → match_values A B eps = Raise IndexError).
Proof.
  split.
  - intros ->. apply match_values_nil_r.
  - intros -> HB. destruct B; [done|]. apply match_values_nil_l.
Qed.

Lemma match_values_empty_witness :
  match_values [num 1; num 2] [] 1 = Ok [] ∧ match_values [] [num 1] 1 = Raise IndexError.
Proof.
  split.
  - exact (proj1 (match_values_empty [num 1; num 2] [] 1) eq_refl).
  - refine (proj2 (match_values_empty [] [num 1] 1) eq_refl _). discriminate.
Defined.

(** ** Index arrays: reading, writing, deleting *)

Lemma mapM_Ok_lookup {A B} (f : A → result B) (l : list A) (r : list B) (k : nat) (x : A) :
  mapM f l = Ok r → l !! k = Some x → ∃ y, r !! k = Some y ∧ f x = Ok y.
Proof.
  revert r k. induction l as [|a l IH]; intros r k; [done|]. cbn [mapM].
  destruct (f a) as [b|] eqn:Ea; [|done]. cbn [mbind result_bind].
  destruct (mapM f l) as [r'|] eqn:Er; [|done]. cbn [mbind result_bind mret result_ret].
  intros [= <-]. destruct k as [|k]; simpl.
  - intros [= <-]. eauto.
  - intros Hk. by apply IH.
Qed.

Lemma py_index_nat_inv {A} (l : list A) (i : nat) (y : A) :
  py_index l (Z.of_nat i) = Ok y → l !! i = Some y.
Proof.
  unfold py_index. cbv zeta. destruct (decide (Z.of_nat i < 0)%Z); [lia|].
  destruct (decide _); [|done]. rewrite Nat2Z.id. by destruct (l !! i); intros [= ->].
Qed.

Lemma take_idx_length {A} (l : list A) (idx : list nat) (r : list A) :
  take_idx l idx = Ok r → length r = length idx.
Proof.
  unfold take_idx, fancy. intros H. apply mapM_Ok_length in H. by rewrite length_fmap in H.
Qed.

Lemma take_idx_lookup {A} (l : list A) (idx : list nat) (r : list A) (k i : nat) :
  take_idx l idx = Ok r → idx !! k = Some i → ∃ y, r !! k = Some y ∧ l !! i = Some y.
Proof.
  unfold take_idx, fancy. intros H Hk.
  destruct (mapM_Ok_lookup _ _ _ k (Z.of_nat i) H) as (y & Hy & Hp).
  - by rewrite list_lookup_fmap, Hk.
  - exists y. split; [done|]. by apply py_index_nat_inv.
Qed.

Lemma take_idx_total {A} `{Inhabited A} (l : list A) (idx : list nat) :
  Forall (λ i, i < length l) idx → take_idx l idx = Ok ((l !!!.) <$> idx).
Proof.
  intros Hall. unfold take_idx, fancy. rewrite mapM_fmap. apply mapM_Ok_fmap.
  eapply Forall_impl; [exact Hall|]. intros i Hi. cbn [compose].
  apply py_index_nat. by apply list_lookup_lookup_total_lt.
Qed.

Lemma put_total {A} (l : list A) (idx : list nat) (vals : list A) :
  length idx = length vals → Forall (λ i, i < length l) idx →
  ∃ l', put l idx vals = Ok l'.
Proof.
  revert l vals. induction idx as [|i idx IH]; intros l [|v vals] Hlen Hall;
    try discriminate Hlen; [by eexists|].
  simpl. apply Forall_cons in Hall as [Hi Hall]. rewrite decide_True by done.
  apply IH; [by injection Hlen|]. by rewrite length_insert.
Qed.

Lemma put_spec {A} (l : list A) (idx : list nat) (vals l' : list A) :
  put l idx vals = Ok l' →
  length l' = length l ∧ length idx = length vals ∧ Forall (λ i, i < length l) idx ∧
  ∀ i, (i ∉ idx → l' !! i = l !! i) ∧
       (i ∈ idx → ∃ k v, idx !! k = Some i ∧ vals !! k = Some v ∧ l' !! i = Some v).
Proof.
  revert l vals. induction idx as [|i0 idx IH]; intros l [|v0 vals]; simpl; try done.
  - intros [= <-]. split_and!; [done..|]. intros i. split; [done|]. by intros ?%elem_of_nil.
  - case_decide as Hi0; [|done]. intros Hput.
    destruct (IH _ _ Hput) as (Hlen & Hlv & Hall & Hi). rewrite length_insert in Hlen, Hall.
    split_and!; [done|by f_equal|by constructor|]. intros i. split.
    + intros Hni. apply not_elem_of_cons in Hni as [Hne Hni].
      rewrite (proj1 (Hi i) Hni). by apply list_lookup_insert_ne.
    + intros Hin. destruct (decide (i ∈ idx)) as [Hin'|Hni].
      * destruct (proj2 (Hi i) Hin') as (k & v & Hk & Hv & Hl). by exists (S k), v.
      * apply elem_of_cons in Hin as [->|]; [|done]. exists 0, v0.
        split_and!; [done..|]. rewrite (proj1 (Hi i0) Hni).
        by apply list_lookup_insert_eq.
Qed.

Lemma np_delete_nil {A} (l : list A) : np_delete l [] = Ok l.
Proof.
  unfold np_delete. rewrite decide_True by constructor. f_equal.
  rewrite (imap_ext _ (const (λ x, [x]))).
  2:{ intros i x _. by destruct (decide (i ∈ [])) as [?%elem_of_nil|]. }
  rewrite imap_const. induction l as [|x l IH]; [done|]. csimpl. by rewrite IH.
Qed.

Lemma np_delete_elem {A} (l : list A) (idx : list nat) (r : list A) (x : A) :
  np_delete l idx = Ok r → (x ∈ r ↔ (∃ j, (j ∉ idx) ∧ l !! j = Some x)).
Proof.
  unfold np_delete. case_decide; [|done]. intros [= <-].
  rewrite list_elem_of_bind. split.
  - intros (y & Hx & Hy). apply elem_of_lookup_imap in Hy as (j & x' & -> & Hj).
    case_decide; [by apply elem_of_nil in Hx|]. apply list_elem_of_singleton in Hx as ->.
    eauto.
  - intros (j & Hj & Hl). exists [x]. split; [by apply list_elem_of_singleton|].
    apply elem_of_lookup_imap. exists j, x. by rewrite decide_False.
Qed.


Lemma np_delete_length_gen {A} (l : list A) (idx : list nat) (k : nat) :
  length (imap (λ i (x : A), if decide (k + i ∈ idx) then [] else [x]) l ≫= id)
  = length (filter (λ i, i ∉ idx) (seq k (length l))).
Proof.
  revert k. induction l as [|x l IH]; intros k; [done|]. csimpl.
  rewrite length_app. rewrite filter_cons. replace (k + 0) with k by lia.
  rewrite (imap_ext _ (λ i x, if decide (S k + i ∈ idx) then [] else [x])).
  2:{ intros i y _. simpl. by replace (k + S i) with (S (k + i)) by lia. }
  rewrite IH. destruct (decide (k ∈ idx)).
  - by rewrite decide_False by tauto.
  - by rewrite decide_True by done.
Qed.

Lemma np_delete_length {A} (l : list A) (idx : list nat) (r : list A) :
  np_delete l idx = Ok r →
  length r = length (filter (λ i, i ∉ idx) (seq 0 (length l))).
Proof.
  unfold np_delete. case_decide; [|done]. intros [= <-].
  by rewrite <- np_delete_length_gen.
Qed.

Lemma np_delete_total {A} (l : list A) (idx : list nat) :
  Forall (λ i, i < length l) idx → ∃ r, np_delete l idx = Ok r.
Proof. intros H. unfold np_delete. rewrite decide_True by done. eauto. Qed.

Lemma np_delete_all {A} (l : list A) (idx : list nat) (r : list A) :
  np_delete l idx = Ok r → (∀ j, j < length l → j ∈ idx) → r = [].
Proof.
  intros Hd Hall. apply length_zero_iff_nil. rewrite (np_delete_length _ _ _ Hd).
  apply length_zero_iff_nil. apply elem_of_nil_inv. intros j Hj.
  apply list_elem_of_filter in Hj as [Hn Hj]. apply elem_of_seq in Hj. apply Hn, Hall. lia.
Qed.

(** ** merge_arrays *)

Lemma lookup_fst_snd {A B} (l : list (A * B)) (k : nat) (a : A) (b : B) :
  l.*1 !! k = Some a → l.*2 !! k = Some b → l !! k = Some (a, b).
Proof.
  rewrite !list_lookup_fmap. destruct (l !! k) as [[a' b']|]; simpl; [|done].
  by intros [= ->] [= ->].
Qed.

Lemma merge_arrays_inv (head tail : list float) (replace : string)
    (mapping : option (list (nat * nat))) (eps : Q) (m : merged) :
  merge_arrays head tail replace mapping eps = Ok m →
  (∃ rest, np_delete (m_tail m) ((m_mapping m).*2) = Ok rest ∧ m_out m = m_head m ++ rest) ∧
  (m_mapping m = [] → m_head m = head ∧ m_tail m = tail) ∧
  (m_mapping m ≠ [] →
   if String.eqb replace "B->A" then
     m_tail m = tail ∧ length (m_head m) = length head ∧
     ∀ i, (i ∉ (m_mapping m).*1 → m_head m !! i = head !! i) ∧
          (i ∈ (m_mapping m).*1 →
           ∃ j y, (i, j) ∈ m_mapping m ∧ tail !! j = Some y ∧ m_head m !! i = Some y)
   else
     m_head m = head ∧ length (m_tail m) = length tail ∧
     ∀ j, (j ∉ (m_mapping m).*2 → m_tail m !! j = tail !! j) ∧
          (j ∈ (m_mapping m).*2 →
           ∃ i x, (i, j) ∈ m_mapping m ∧ head !! i = Some x ∧ m_tail m !! j = Some x)).
Proof.
  unfold merge_arrays.
  destruct (match mapping with None => _ | Some m0 => _ end) as [mp|] eqn:Emp; [|done].
  cbn [mbind result_bind]. case_decide as Hlen.
  2:{ intros [= <-]. simpl. assert (mp = []) as -> by (destruct mp; [done|simpl in Hlen; lia]).
      split_and!; [|done|done]. exists tail. by rewrite np_delete_nil. }
  destruct (String.eqb replace "B->A") eqn:Erep.
  - destruct (take_idx tail mp.*2) as [vals|] eqn:Ev; [|done]. cbn [mbind result_bind].
    destruct (put head mp.*1 vals) as [head'|] eqn:Ep; [|done].
    cbn [mbind result_bind mret result_ret].
    destruct (np_delete tail mp.*2) as [rest|] eqn:Ed; [|done].
    cbn [mbind result_bind mret result_ret]. intros [= <-]. simpl.
    split_and!; [by eauto|by intros ->; simpl in Hlen; lia|]. intros _.
    destruct (put_spec _ _ _ _ Ep) as (Hl & Hlv & Hall & Hi).
    split_and!; [done..|]. intros i. split; [apply Hi|]. intros Hin.
    destruct (proj2 (Hi i) Hin) as (k & v & Hk & Hv & Hh).
    assert (∃ j, mp.*2 !! k = Some j) as [j Hj].
    { apply lookup_lt_is_Some. apply lookup_lt_Some in Hk. by rewrite length_fmap in *. }
    destruct (take_idx_lookup _ _ _ _ _ Ev Hj) as (y & Hy & Ht).
    exists j, y. rewrite Hv in Hy. injection Hy as ->. split_and!; [|done..].
    eapply list_elem_of_lookup_2. by apply lookup_fst_snd.
  - destruct (take_idx head mp.*1) as [vals|] eqn:Ev; [|done]. cbn [mbind result_bind].
    destruct (put tail mp.*2 vals) as [tail'|] eqn:Ep; [|done].
    cbn [mbind result_bind mret result_ret].
    destruct (np_delete tail' mp.*2) as [rest|] eqn:Ed; [|done].
    cbn [mbind result_bind mret result_ret]. intros [= <-]. simpl.
    split_and!; [by eauto|by intros ->; simpl in Hlen; lia|]. intros _.
    destruct (put_spec _ _ _ _ Ep) as (Hl & Hlv & Hall & Hi).
    split_and!; [done..|]. intros j. split; [apply Hi|]. intros Hin.
    destruct (proj2 (Hi j) Hin) as (k & v & Hk & Hv & Hh).
    assert (∃ i, mp.*1 !! k = Some i) as [i Hik].
    { apply lookup_lt_is_Some. apply lookup_lt_Some in Hk. by rewrite length_fmap in *. }
    destruct (take_idx_lookup _ _ _ _ _ Ev Hik) as (y & Hy & Ht).
    exists i, y. rewrite Hv in Hy. injection Hy as ->. split_and!; [|done..].
    eapply list_elem_of_lookup_2. by apply lookup_fst_snd.
Qed.



(** ** sort_depths *)

Ltac unfold_M :=
  unfold finalize, create_entity, set_data_values, assert_;
  unfold mbind, M_bind, mret, M_ret, get, modify, lift, raise;
  cbv beta.

Lemma StronglySorted_seq (j n : nat) : StronglySorted le (seq j n).
Proof.
  revert j. induction n as [|n IH]; intros j; simpl; constructor; [apply IH|].
  apply Forall_forall. intros i Hi. apply elem_of_seq in Hi. lia.
Qed.

Lemma leb_total (x y : nat) : Nat.leb x y = true ∨ Nat.leb y x = true.
Proof. rewrite !Nat.leb_le. lia. Qed.

Lemma leb_trans (x y z : nat) : Nat.leb x y = true → Nat.leb y z = true → Nat.leb x z = true.
Proof. rewrite !Nat.leb_le. lia. Qed.

(** [np.argsort] of a permutation is its inverse. *)
Lemma argsort_int_inverse (σ : list nat) (a a' : nat) :
  σ ≡ₚ seq 0 (length σ) → argsort_int σ !! a = Some a' → σ !! a' = Some a.
Proof.
  intros Hperm Ha. unfold argsort_int, argsort_by in Ha.
  rewrite list_lookup_fmap in Ha.
  destruct (sort_pairs Nat.leb σ !! a) as [[x k]|] eqn:Hp; [|done].
  simpl in Ha. injection Ha as ->.
  assert (Hfst : (sort_pairs Nat.leb σ).*1 = seq 0 (length σ)).
  { apply (StronglySorted_unique le).
    - eapply (StronglySorted_fmap fst (le_pair Nat.leb) le);
        [|apply (sort_pairs_sorted Nat.leb leb_total leb_trans)].
      intros p q. unfold le_pair. by rewrite Nat.leb_le.
    - apply StronglySorted_seq.
    - rewrite sort_pairs_perm. rewrite fst_zip; [done|]. rewrite length_seq. lia. }
  assert (Hx : (sort_pairs Nat.leb σ).*1 !! a = Some x) by (by rewrite list_lookup_fmap, Hp).
  rewrite Hfst in Hx. apply lookup_seq in Hx as [-> _].
  apply (sort_pairs_elem Nat.leb). by eapply list_elem_of_lookup_2.
Qed.

Lemma argsort_int_length (σ : list nat) : length (argsort_int σ) = length σ.
Proof. apply argsort_by_length. Qed.

Lemma argsort_perm (v : list float) : argsort v ≡ₚ seq 0 (length v).
Proof. apply argsort_by_perm. Qed.

Lemma argsort_lt (v : list float) : Forall (λ i, i < length v) (argsort v).
Proof.
  apply Forall_forall. intros i Hi. rewrite argsort_perm in Hi.
  apply elem_of_seq in Hi. lia.
Qed.

Lemma sorted_of_ascending (v : list float) : ascending (sorted_of v).
Proof. intros k1 k2 x y. apply sorted_of_le. Qed.

Lemma reshape2_flatten2 {A} (l : list (A * A)) : reshape2 (flatten2 l) = l.
Proof.
  induction l as [|[a b] l IH]; [done|]. unfold flatten2 in *. csimpl. by rewrite IH.
Qed.

Lemma take_idx_flatten2 {A} `{Inhabited A} (l : list A) (cs : list (nat * nat)) :
  Forall (λ c, c.1 < length l ∧ c.2 < length l) cs →
  take_idx l (flatten2 cs) = Ok (flatten2 ((λ c, (l !!! c.1, l !!! c.2)) <$> cs)).
Proof.
  intros Hall. rewrite take_idx_total.
  - f_equal. unfold flatten2. induction cs as [|c cs IH]; [done|]. csimpl.
    apply Forall_cons in Hall as [_ Hall]. by rewrite IH.
  - unfold flatten2. apply Forall_forall. intros i Hi.
    apply list_elem_of_bind in Hi as (c & Hi & Hc).
    eapply Forall_forall in Hall; [|exact Hc].
    rewrite !elem_of_cons, elem_of_nil in Hi. destruct Hi as [->|[->|[]]]; tauto.
Qed.

Lemma sort_children_spec (s : Drillhole) (σ : list nat) (n : nat) (ch : list Data) :
  Forall (λ i, i < n) σ →
  (∀ c, c ∈ ch → association c = VERTEX → ∃ v, data_values s c = Some v ∧ length v = n) →
  ∃ ch', sort_children s σ ch = (ch', Ok ()) ∧ Forall2 (child_sorted s σ) ch ch'.
Proof.
  intros Hσ. induction ch as [|c ch IH]; intros Hch; [by eexists|].
  destruct IH as (ch' & Hs & HF); [intros c' Hc'; apply Hch; by right|].
  simpl. case_decide as Hv.
  - destruct (Hch c (ltac:(by left)) Hv) as (v & Hdv & Hlen).
    unfold data_values in Hdv. rewrite Hdv.
    rewrite take_idx_total by (by rewrite Hlen). rewrite Hs.
    eexists. split; [done|]. constructor; [|done].
    unfold child_sorted. simpl. split_and!; [done..|]. rewrite decide_True by done.
    exists v, ((v !!!.) <$> σ). split_and!; [done| |done].
    apply take_idx_total. by rewrite Hlen.
  - rewrite Hs. eexists. split; [done|]. constructor; [|done].
    unfold child_sorted. by rewrite decide_False.
Qed.

Lemma sort_depths_spec (s : Drillhole) (d : Data) (depths : list float) :
  head (get_data "DEPTH" s) = Some d →
  data_values s d = Some depths →
  (∀ c, c ∈ children s → association c = VERTEX →
        ∃ v, data_values s c = Some v ∧ length v = length depths) →
  (∀ v, vertices s = Some v → length v = length depths) →
  (∀ cs c, cells s = Some cs → c ∈ cs → c.1 < length depths ∧ c.2 < length depths) →
  ∃ s', sort_depths s = (s', Ok ()) ∧
    (all_diff_ge0 depths = true → s' = s) ∧
    (all_diff_ge0 depths = false →
     let σ := argsort depths in
     σ ≡ₚ seq 0 (length depths) ∧
     (∃ depths', take_idx depths σ = Ok depths' ∧ ascending depths') ∧
     collar s' = collar s ∧ surveys s' = surveys s ∧
     default_collocation_distance s' = default_collocation_distance s ∧
     option_Forall2 (λ v v', take_idx v σ = Ok v') (vertices s) (vertices s') ∧
     Forall2 (child_sorted s σ) (children s) (children s') ∧
     option_Forall2 (Forall2 (λ c c', σ !! c'.1 = Some c.1 ∧ σ !! c'.2 = Some c.2))
       (cells s) (cells s') ∧
     (∀ v v' cs cs' k c c',
        vertices s = Some v → vertices s' = Some v' →
        cells s = Some cs → cells s' = Some cs' →
        cs !! k = Some c → cs' !! k = Some c' →
        v' !! c'.1 = v !! c.1 ∧ v' !! c'.2 = v !! c.2)).
Proof.
  intros Hd Hdv Hch Hv Hc.
  assert (Hgd : ∃ rest, get_data "DEPTH" s = d :: rest).
  { destruct (get_data "DEPTH" s) as [|d' rest]; [done|]. injection Hd as ->. eauto. }
  destruct Hgd as [rest Hgd]. unfold data_values in Hdv.
  unfold sort_depths. unfold_M. rewrite Hgd, Hdv.
  destruct (all_diff_ge0 depths) eqn:Hsorted.
  { exists s. split_and!; done. }
  set (σ := argsort depths).
  assert (Hσ : Forall (λ i, i < length depths) σ) by apply argsort_lt.
  assert (Hperm : σ ≡ₚ seq 0 (length depths)) by apply argsort_perm.
  destruct (sort_children_spec s σ (length depths) (children s) Hσ Hch) as (ch' & Hsc & HF).
  rewrite Hsc. destruct s as [co su vs cs ch dcd]. simpl in *.
  assert (Hinv : ∀ a a', a < length depths → argsort_int σ !!! a = a' → σ !! a' = Some a).
  { intros a a' Ha <-. apply argsort_int_inverse.
    - by rewrite Hperm, length_seq.
    - apply list_lookup_lookup_total_lt. rewrite argsort_int_length.
      by rewrite Hperm, length_seq. }
  assert (Hvs : ∀ v, vs = Some v → take_idx v σ = Ok ((v !!!.) <$> σ)).
  { intros v ->. apply take_idx_total. by rewrite (Hv v eq_refl). }
  assert (Hcs : ∀ c, cs = Some c →
            take_idx (argsort_int σ) (flatten2 c)
            = Ok (flatten2 ((λ p, (argsort_int σ !!! p.1, argsort_int σ !!! p.2)) <$> c))).
  { intros c ->. apply take_idx_flatten2. apply Forall_forall. intros p Hp.
    rewrite argsort_int_length. rewrite Hperm, length_seq. by eapply Hc. }
  assert (Hdep : ∃ depths', take_idx depths σ = Ok depths' ∧ ascending depths').
  { exists (sorted_of depths). split; [apply take_idx_argsort_float|].
    apply sorted_of_ascending. }
  destruct vs as [v|], cs as [c|]; simpl;
    rewrite ?(Hvs v eq_refl), ?(Hcs c eq_refl), ?reshape2_flatten2; simpl;
    (eexists; split; [reflexivity|]); (split; [done|]); intros _; simpl;
    (split_and!; [done|done|done|done|done|try (constructor; by auto)|done| |]).
  - constructor. apply Forall2_fmap_r. apply Forall_Forall2_diag.
    apply Forall_forall. intros p Hp. destruct (Hc c p eq_refl Hp). simpl. eauto.
  - intros v0 v' cs0 cs' k p p' [= <-] [= <-] [= <-] [= <-] Hk Hk'.
    rewrite list_lookup_fmap, Hk in Hk'. simpl in Hk'. injection Hk' as <-. simpl.
    assert (Hp : p ∈ c) by (by eapply list_elem_of_lookup_2).
    destruct (Hc c p eq_refl Hp) as [H1 H2].
    rewrite !list_lookup_fmap.
    rewrite (Hinv p.1 _ H1 eq_refl), (Hinv p.2 _ H2 eq_refl). simpl.
    rewrite !list_lookup_lookup_total_lt by (by rewrite (Hv v eq_refl)). done.
  - constructor.
  - intros v0 v' cs0 cs' k p p' _ _ [=].
  - constructor. apply Forall2_fmap_r. apply Forall_Forall2_diag.
    apply Forall_forall. intros p Hp. destruct (Hc c p eq_refl Hp). simpl. eauto.
  - intros v0 v' cs0 cs' k p p' [=].
  - constructor.
  - intros v0 v' cs0 cs' k p p' [=].
Qed.

(** C2: on a drillhole whose vertices and per-vertex arrays have the length
    of DEPTH and whose cells hold valid vertex indices, [sort_depths] returns,
    and: when DEPTH is non-decreasing nothing changes; otherwise the one
    permutation [argsort DEPTH], which puts DEPTH in ascending order, is
    applied to the vertices and to every per-vertex data array, every other
    child is kept, and each cell's vertex indices are sent through the inverse
    permutation, so that a cell's two vertices have the coordinates they had
    before. *)
Theorem sort_depths_permutes (s : Drillhole) (d : Data) (depths : list float) :
  head (get_data "DEPTH" s) = Some d →
  data_values s d = Some depths →
  (∀ c, c ∈ children s → association c = VERTEX →
        ∃ v, data_values s c = Some v ∧ length v = length depths) →
  (∀ v, vertices s = Some v → length v = length depths) →
  (∀ cs c, cells s = Some cs → c ∈ cs → c.1 < length depths ∧ c.2 < length depths) →
  ∃ s', sort_depths s = (s', Ok ()) ∧
    (all_diff_ge0 depths = true → s' = s) ∧
    (all_diff_ge0 depths = false →
     let σ := argsort depths in
     σ ≡ₚ seq 0 (length depths) ∧
     (∃ depths', take_idx depths σ = Ok depths' ∧ ascending depths') ∧
     collar s' = collar s ∧ surveys s' = surveys s ∧
     default_collocation_distance s' = default_collocation_distance s ∧
     option_Forall2 (λ v v', take_idx v σ = Ok v') (vertices s) (vertices s') ∧
     Forall2 (child_sorted s σ) (children s) (children s') ∧
     option_Forall2 (Forall2 (λ c c', σ !! c'.1 = Some c.1 ∧ σ !! c'.2 = Some c.2))
       (cells s) (cells s') ∧
     (∀ v v' cs cs' k c c',
        vertices s = Some v → vertices s' = Some v' →
        cells s = Some cs → cells s' = Some cs' →
        cs !! k = Some c → cs' !! k = Some c' →
        v' !! c'.1 = v !! c.1 ∧ v' !! c'.2 = v !! c.2)).
Proof. apply sort_depths_spec. Qed.

(** ** validate_log_data *)

Section log_ingestion.
Variable desurvey_at : point → list (float * float * float) → float → point.

Lemma desurvey_run (depths : list float) (s : Drillhole) :
  desurvey desurvey_at depths s =
    (s, match surveys s, collar s with
        | Some sv, Some c => Ok (desurvey_at c sv <$> depths)
        | _, _ => Raise (AssertionError
                    "'surveys' and 'collar' attributes required for desurvey operation")
        end).
Proof. unfold desurvey. unfold_M. by destruct (surveys s), (collar s). Qed.

Lemma add_vertices_run (xyz : list point) (s : Drillhole) :
  add_vertices xyz s =
    (set_vertices (default [] (vertices s) ++ xyz) s,
     Ok (seq (length (default [] (vertices s))) (length xyz))).
Proof. unfold add_vertices. unfold_M. by destruct (vertices s). Qed.

Lemma get_data_app (nm : string) (s : Drillhole) (ch : list Data) :
  get_data nm (set_children (children s ++ ch) s)
  = get_data nm s ++ filter (λ d, name d = nm) ch.
Proof. unfold get_data. simpl. by rewrite filter_app. Qed.

Lemma get_data_set_children (nm : string) (ch : list Data) (s : Drillhole) :
  get_data nm (set_children ch s) = filter (λ d, name d = nm) ch.
Proof. done. Qed.

Lemma set_first_values_filter (nm : string) (v : list float) (ch : list Data) :
  filter (λ d, name d = nm) (set_first_values nm v ch) =
    match filter (λ d, name d = nm) ch with
    | [] => []
    | d :: r => mkData (name d) (association d) (Some v) :: r
    end.
Proof.
  induction ch as [|d ch IH]; [done|]. simpl. rewrite filter_cons. case_decide as Hd.
  - rewrite filter_cons. simpl. by rewrite decide_True.
  - rewrite filter_cons. rewrite decide_False by done. done.
Qed.

Lemma set_first_values_none (nm : string) (v : list float) (ch : list Data) :
  filter (λ d, name d = nm) ch = [] → set_first_values nm v ch = ch.
Proof.
  induction ch as [|d ch IH]; [done|]. rewrite filter_cons. simpl.
  case_decide as Hd; [done|]. intros Hf. by rewrite IH.
Qed.

Lemma set_first_values_app (nm : string) (v : list float) (ch ch' : list Data) :
  filter (λ d, name d = nm) ch = [] →
  set_first_values nm v (ch ++ ch') = ch ++ set_first_values nm v ch'.
Proof.
  induction ch as [|d ch IH]; [done|]. rewrite filter_cons. simpl.
  case_decide as Hd; [done|]. intros Hf. by rewrite IH.
Qed.

Lemma set_first_values_elem (nm : string) (v : list float) (ch : list Data) (c : Data) :
  c ∈ set_first_values nm v ch →
  c ∈ ch ∨ ∃ d, head (filter (λ d, name d = nm) ch) = Some d ∧
                c = mkData (name d) (association d) (Some v).
Proof.
  induction ch as [|d ch IH]; [by left|]. simpl. rewrite filter_cons. case_decide as Hd.
  - intros [->|Hin]%elem_of_cons; [right; eauto|]. left. by right.
  - intros [->|Hin]%elem_of_cons; [left; by left|].
    destruct (IH Hin) as [?|?]; [left; by right|by right].
Qed.

(** First batch: no DEPTH entity yet. *)
Lemma validate_log_data_first (depth vals : list float) (eps : Q) (s s' : Drillhole)
    (r : list float * list float) :
  get_data "DEPTH" s = [] →
  validate_log_data desurvey_at depth vals eps s = (s', Ok r) →
  length depth = length vals ∧
  ∃ sv c, surveys s = Some sv ∧ collar s = Some c ∧
    let v' := default [] (vertices s) ++ (desurvey_at c sv <$> depth) in
    s' = set_children
           (children s ++
              [mkData "DEPTH" VERTEX (Some (replicate (length v' - length depth) NaN ++ depth))])
           (set_vertices v' s) ∧
    r = (replicate (length v' - length vals) NaN ++ vals, depth).
Proof.
  intros Hnone. unfold validate_log_data. unfold_M.
  case_bool_decide as Hlen; [|done]. cbv beta iota.
  destruct (decide (get_data "DEPTH" s = [])) as [_|?]; [|done]. cbv beta iota.
  rewrite get_data_app, Hnone. cbn [filter list_filter app head values].
  rewrite decide_True by done. cbn [head values].
  rewrite desurvey_run. cbn [surveys collar set_children].
  destruct (surveys s) as [sv|] eqn:Esv; [|done].
  destruct (collar s) as [c|] eqn:Ec; [|done].
  rewrite add_vertices_run. cbn [n_vertices vertices set_vertices set_children fmap option_fmap option_map].
  case_decide as Hn; [done|]. intros [= <- <-]. split; [done|].
  exists sv, c. split_and!; [done..| |done].
  cbn [children set_vertices set_children]. unfold set_children, set_vertices. simpl.
  f_equal. by rewrite set_first_values_app.
Qed.

(** Later batches: DEPTH holds values. *)
Lemma validate_log_data_merge (depth vals : list float) (eps : Q) (s s' : Drillhole)
    (r : list float * list float) (d : Data) (dv : list float) :
  head (get_data "DEPTH" s) = Some d → values d = Some dv →
  validate_log_data desurvey_at depth vals eps s = (s', Ok r) →
  length depth = length vals ∧
  ∃ m mv rest vs sv c,
    merge_arrays dv depth "A->B" None eps = Ok m ∧ vertices s = Some vs ∧
    merge_arrays (replicate (length vs) NaN) vals "B->A" (Some (m_mapping m)) (1 # 10000)
      = Ok mv ∧
    np_delete (m_tail m) (m_mapping m).*2 = Ok rest ∧
    surveys s = Some sv ∧ collar s = Some c ∧
    s' = set_children (set_first_values "DEPTH" (m_out m) (children s))
           (set_vertices (vs ++ (desurvey_at c sv <$> rest)) s) ∧
    r = (m_out mv, m_tail m).
Proof.
  intros Hd Hdv. unfold validate_log_data. unfold_M.
  case_bool_decide as Hlen; [|done]. cbv beta iota.
  destruct (decide (get_data "DEPTH" s = [])) as [Hnil|_]; [by rewrite Hnil in Hd|].
  cbv beta iota. rewrite Hd, Hdv.
  destruct (merge_arrays dv depth "A->B" None eps) as [m|] eqn:Em; [|done].
  unfold n_vertices. destruct (vertices s) as [vs|] eqn:Evs; [|done].
  cbn [fmap option_fmap option_map].
  destruct (merge_arrays (replicate (length vs) NaN) vals _ _ _) as [mv|] eqn:Emv; [|done].
  destruct (np_delete (m_tail m) (m_mapping m).*2) as [rest|] eqn:Er; [|done].
  rewrite desurvey_run.
  destruct (surveys s) as [sv|] eqn:Esv; [|done].
  destruct (collar s) as [c|] eqn:Ec; [|done].
  rewrite add_vertices_run. rewrite Evs. cbn [default].
  intros [= <- <-]. split; [done|].
  exists m, mv, rest, vs, sv, c. split_and!; done.
Qed.

Lemma merge_arrays_mapping_some (head tail : list float) (replace : string)
    (mp : list (nat * nat)) (eps : Q) (m : merged) :
  merge_arrays head tail replace (Some mp) eps = Ok m → m_mapping m = mp.
Proof.
  unfold merge_arrays. cbn [mbind result_bind]. case_decide; [|by intros [= <-]].
  destruct (if String.eqb replace "B->A" then _ else _) as [[h t]|]; [|done].
  cbn [mbind result_bind]. destruct (np_delete t mp.*2); [|done]. by intros [= <-].
Qed.

(** Lengths around one call of [merge_arrays]. *)
Lemma merge_arrays_shape (head tail : list float) (replace : string)
    (mapping : option (list (nat * nat))) (eps : Q) (m : merged) :
  merge_arrays head tail replace mapping eps = Ok m →
  ∃ rest, np_delete (m_tail m) (m_mapping m).*2 = Ok rest ∧ m_out m = m_head m ++ rest ∧
          length (m_head m) = length head ∧ length (m_tail m) = length tail.
Proof.
  intros Hm. destruct (merge_arrays_inv _ _ _ _ _ _ Hm) as ((rest & Hd & Ho) & Hnil & Hne).
  exists rest. split_and!; [done..| |].
  - destruct (decide (m_mapping m = [])) as [He|He]; [by rewrite (proj1 (Hnil He))|].
    specialize (Hne He). destruct (String.eqb replace "B->A"); [tauto|].
    by rewrite (proj1 Hne).
  - destruct (decide (m_mapping m = [])) as [He|He]; [by rewrite (proj2 (Hnil He))|].
    specialize (Hne He). destruct (String.eqb replace "B->A"); [|tauto].
    by rewrite (proj1 Hne).
Qed.

(** With the default ["A->B"] the head is kept and the tail only receives
    entries of the head. *)
Lemma merge_arrays_default (head tail : list float) (mapping : option (list (nat * nat)))
    (eps : Q) (m : merged) :
  merge_arrays head tail "A->B" mapping eps = Ok m →
  m_head m = head ∧
  ∀ j y, m_tail m !! j = Some y → tail !! j = Some y ∨ y ∈ head.
Proof.
  intros Hm. destruct (merge_arrays_inv _ _ _ _ _ _ Hm) as (_ & Hnil & Hne).
  destruct (decide (m_mapping m = [])) as [He|He].
  - destruct (Hnil He) as [-> ->]. eauto.
  - specialize (Hne He). cbn in Hne. destruct Hne as (-> & _ & Hj). split; [done|].
    intros j y Hy. destruct (decide (j ∈ (m_mapping m).*2)) as [Hin|Hni].
    + destruct (proj2 (Hj j) Hin) as (i & x & _ & Hx & Ht). right.
      rewrite Ht in Hy. injection Hy as <-. by eapply list_elem_of_lookup_2.
    + left. by rewrite <- (proj1 (Hj j) Hni).
Qed.

Lemma nv_set_vertices (v : list point) (s : Drillhole) : nv (set_vertices v s) = length v.
Proof. done. Qed.

Lemma validate_log_data_invariant (depth vals : list float) (eps : Q) (s s' : Drillhole)
    (r : list float * list float) (b : bool) :
  log_invariant b s → Forall is_num depth →
  validate_log_data desurvey_at depth vals eps s = (s', Ok r) →
  log_invariant false s' ∧ length r.1 = nv s' ∧ is_Some (head (get_data "DEPTH" s')).
Proof.
  intros [Hv Hd Hc] Hnum Hrun.
  destruct (head (get_data "DEPTH" s)) as [d|] eqn:Ed.
  - destruct Hd as (Hassoc & dv & Hdv & Hlen & Hdnum & _).
    destruct (validate_log_data_merge _ _ _ _ _ _ _ _ Ed Hdv Hrun)
      as (Hl & m & mv & rest & vs & sv & c & Hm & Hvs & Hmv & Hrest & _ & _ & -> & ->).
    assert (Hnvs : nv s = length vs) by (unfold nv, n_vertices; by rewrite Hvs).
    destruct (merge_arrays_shape _ _ _ _ _ _ Hm) as (rest0 & Hr0 & Hout & Hlh & Hlt).
    rewrite Hrest in Hr0. injection Hr0 as <-.
    destruct (merge_arrays_default _ _ _ _ _ Hm) as [Hhead Htail].
    destruct (merge_arrays_shape _ _ _ _ _ _ Hmv) as (restv & Hrv & Houtv & Hlhv & Hltv).
    rewrite (merge_arrays_mapping_some _ _ _ _ _ _ Hmv) in Hrv.
    assert (Hlr : length restv = length rest).
    { rewrite (np_delete_length _ _ _ Hrv), (np_delete_length _ _ _ Hrest).
      by rewrite Hltv, Hlt, Hl. }
    assert (Hnv' : nv (set_children (set_first_values "DEPTH" (m_out m) (children s))
                     (set_vertices (vs ++ (desurvey_at c sv <$> rest)) s))
                   = length vs + length rest).
    { unfold nv, n_vertices. simpl. by rewrite length_app, length_fmap. }
    assert (Hlout : length (m_out m) = length vs + length rest).
    { rewrite Hout, length_app, Hlh. lia. }
    assert (Hfilter : ∃ tl, get_data "DEPTH" s = d :: tl).
    { destruct (get_data "DEPTH" s) as [|d' tl]; [done|]. injection Ed as ->. eauto. }
    destruct Hfilter as [tl Hfilter].
    split_and!.
    + split.
      * intros c' Hin Hvx. rewrite Hnv'. simpl in Hin.
        apply set_first_values_elem in Hin as [Hin|(d' & Hd' & ->)].
        -- destruct (Hv c' Hin Hvx) as (v & Hval & Hle). exists v. split; [done|]. lia.
        -- simpl. eexists. split; [done|]. lia.
      * unfold get_data at 1. cbn [children set_children].
        rewrite set_first_values_filter. unfold get_data in Hfilter. rewrite Hfilter.
        cbn [head association values]. split; [done|].
        eexists. split_and!; [done|by rewrite Hnv'| |done].
        rewrite Hout, Hhead. apply Forall_app. split; [done|].
        apply Forall_forall. intros x Hx.
        apply (np_delete_elem _ _ _ x Hrest) in Hx as (j & _ & Hj).
        destruct (Htail j x Hj) as [Ht|Hh].
        -- eapply Forall_forall in Hnum; [exact Hnum|]. by eapply list_elem_of_lookup_2.
        -- eapply Forall_forall in Hdnum; [exact Hdnum|done].
      * intros cs p Hcs Hp. rewrite Hnv'. destruct (Hc cs p Hcs Hp). lia.
    + cbn [fst]. rewrite Hnv', Houtv, length_app, Hlhv, length_replicate. lia.
    + unfold get_data. cbn [children set_children]. rewrite set_first_values_filter.
      unfold get_data in Hfilter. rewrite Hfilter. by eexists.
  - assert (Hnil : get_data "DEPTH" s = []) by (by destruct (get_data "DEPTH" s)).
    destruct (validate_log_data_first _ _ _ _ _ _ Hnil Hrun)
      as (Hl & sv & c & _ & _ & -> & ->).
    rewrite Hd. cbn [default app]. rewrite length_fmap, Nat.sub_diag. cbn [replicate app].
    rewrite Hl, Nat.sub_diag. cbn [replicate app].
    assert (Hnv0 : nv s = 0) by (unfold nv, n_vertices; by rewrite Hd).
    split_and!.
    + split.
      * intros c' Hin Hvx. cbn [children set_children] in Hin.
        apply elem_of_app in Hin as [Hin|Hin].
        -- destruct (Hv c' Hin Hvx) as (v & Hval & Hle). exists v. split; [done|].
           rewrite Hnv0 in Hle. lia.
        -- apply list_elem_of_singleton in Hin as ->. eexists. split; [done|].
           unfold nv, n_vertices. simpl. by rewrite length_fmap, Hl.
      * rewrite get_data_set_children, filter_app. unfold get_data in Hnil. rewrite Hnil.
        cbn [app]. rewrite filter_cons.
        rewrite decide_True by done. cbn [head association values]. split; [done|].
        eexists. split_and!; [done| |done|done].
        unfold nv, n_vertices. simpl. by rewrite length_fmap, Hl.
      * intros cs p Hcs Hp. destruct (Hc cs p Hcs Hp). lia.
    + cbn [fst]. unfold nv, n_vertices. simpl. by rewrite length_fmap, Hl.
    + rewrite get_data_set_children, filter_app. unfold get_data in Hnil. rewrite Hnil.
      cbn [app]. rewrite filter_cons.
      rewrite decide_True by done. by eexists.
Qed.
End log_ingestion.

(** ** The sort invariant of log ingestion *)

Lemma ascending_cons_inv (x : float) (l : list float) : ascending (x :: l) → ascending l.
Proof. intros H k1 k2 a b Hk H1 H2. apply (H (S k1) (S k2)); [lia|done..]. Qed.

Lemma ascending_all_diff (l : list float) :
  ascending l → Forall is_num l → all_diff_ge0 l = true.
Proof.
  unfold all_diff_ge0. induction l as [|x l IH]; [done|]. intros Ha Hn.
  destruct l as [|y l]; [done|]. cbn [tail zip zip_with forallb].
  apply andb_true_intro. split.
  - apply Forall_cons in Hn as [[p ->] Hn]. apply Forall_cons in Hn as [[q ->] _].
    specialize (Ha 0 1 (Num p) (Num q) ltac:(lia) eq_refl eq_refl).
    apply fle_Num in Ha. apply Qle_bool_iff. lra.
  - apply IH; [by eapply ascending_cons_inv|by apply Forall_cons in Hn as [_ ?]].
Qed.

Lemma Forall2_filter_name {R : Data → Data → Prop} (nm : string) (l l' : list Data) :
  Forall2 (λ c c', name c' = name c ∧ R c c') l l' →
  Forall2 (λ c c', name c' = name c ∧ R c c')
    (filter (λ d, name d = nm) l) (filter (λ d, name d = nm) l').
Proof.
  induction 1 as [|c c' l l' [Hn HR] _ IH]; [constructor|].
  rewrite !filter_cons. rewrite Hn. case_decide; [|done]. by constructor.
Qed.

Section invariant.
Variable desurvey_at : point → list (float * float * float) → float → point.

Lemma add_entry_log_invariant (nm : string) (a : attr) (s s' : Drillhole) (k : nat)
    (b : bool) :
  log_entry (nm, a) → log_invariant b s →
  add_entry desurvey_at nm a s = (s', Ok k) →
  log_invariant false s' ∧ is_Some (head (get_data "DEPTH" s')).
Proof.
  intros (depth & Hdepth & Hnum) Hinv. simpl in Hdepth.
  unfold add_entry. destruct (a_values a) as [vals|]; [|done]. unfold_M.
  rewrite Hdepth.
  assert (Hgo : ∀ eps,
    (let (s1, r) := validate_log_data desurvey_at depth vals eps s in
     match r with
     | Ok r0 => (set_children (children s1 ++ [mkData nm VERTEX (Some r0.1)]) s1,
                 Ok (length (children s1)))
     | Raise e => (s1, Raise e)
     end) = (s', Ok k) →
    log_invariant false s' ∧ is_Some (head (get_data "DEPTH" s'))).
  { intros eps. destruct (validate_log_data _ _ _ _ _) as [s1 [r|e]] eqn:Ev; [|done].
    intros [= <- <-].
    destruct (validate_log_data_invariant _ _ _ _ _ _ _ _ Hinv Hnum Ev)
      as ([Hv Hd Hc] & Hlen & [d Hhead]).
    assert (Hgd : head (get_data "DEPTH"
                    (set_children (children s1 ++ [mkData nm VERTEX (Some r.1)]) s1))
                  = Some d).
    { rewrite get_data_app. destruct (get_data "DEPTH" s1); [done|]. done. }
    split; [|by rewrite Hgd]. split.
    - intros c Hin Hvx. cbn [children set_children] in Hin.
      change (nv (set_children _ s1)) with (nv s1).
      apply elem_of_app in Hin as [Hin|Hin]; [by apply Hv|].
      apply list_elem_of_singleton in Hin as ->. eexists. split; [done|]. simpl. lia.
    - rewrite Hgd. rewrite Hhead in Hd. exact Hd.
    - exact Hc. }
  destruct (a_collocation_distance a) as [[|q]|]; [done| |].
  - destruct (Qltb 0 q); [|done]. cbv beta iota. intros H. apply (Hgo q).
    destruct (validate_log_data desurvey_at depth vals q s) as [s1 [r|e]]; exact H.
  - cbv beta iota. intros H. apply (Hgo (default_collocation_distance s)).
    destruct (validate_log_data desurvey_at depth vals _ s) as [s1 [r|e]]; exact H.
Qed.


Lemma data_values_depth (b : bool) (s : Drillhole) (d : Data) (dv : list float) :
  association d = VERTEX → values d = Some dv → length dv = nv s →
  data_values s d = Some dv.
Proof.
  intros Ha Hv Hl. unfold data_values, check_vector_length, n_values. rewrite Ha, Hv.
  unfold nv in Hl. destruct (n_vertices s) as [n|]; [|done]. simpl in *.
  rewrite decide_False by lia. done.
Qed.

Lemma data_values_vertex (s : Drillhole) (c : Data) (v : list float) :
  association c = VERTEX → values c = Some v → length v ≤ nv s →
  ∃ v', data_values s c = Some v' ∧ length v' = nv s.
Proof.
  intros Ha Hv Hl. unfold data_values, check_vector_length, n_values. rewrite Ha, Hv.
  unfold nv in *. destruct (n_vertices s) as [n|]; simpl in *.
  - case_decide.
    + eexists. split; [done|]. rewrite length_app, length_replicate. lia.
    + exists v. split; [done|]. lia.
  - exists v. split; [done|]. lia.
Qed.

Lemma sort_depths_log_invariant (s : Drillhole) :
  log_invariant false s →
  ∃ s', sort_depths s = (s', Ok ()) ∧ log_invariant true s'.
Proof.
  intros [Hv Hd Hc].
  destruct (head (get_data "DEPTH" s)) as [d|] eqn:Ed.
  2:{ exists s. split.
      - unfold sort_depths. unfold_M. by destruct (get_data "DEPTH" s).
      - split; [done| |done]. by rewrite Ed. }
  destruct Hd as (Hassoc & dv & Hdv & Hlen & Hnum & _).
  assert (Hdd : data_values s d = Some dv) by (by apply (data_values_depth false)).
  destruct (sort_depths_spec s d dv Ed Hdd) as (s' & Hrun & Hsame & Hperm).
  { intros c Hin Hvx. destruct (Hv c Hin Hvx) as (v & Hval & Hle).
    rewrite Hlen. by eapply data_values_vertex. }
  { intros v Hvs. rewrite Hlen. unfold nv, n_vertices. by rewrite Hvs. }
  { intros cs p Hcs Hp. rewrite Hlen. by eapply Hc. }
  exists s'. split; [done|]. destruct (all_diff_ge0 dv) eqn:Hsorted.
  { rewrite (Hsame eq_refl). split; [done| |done]. rewrite Ed. split; [done|]. eauto. }
  destruct (Hperm eq_refl) as (Hσ & (dv' & Hdv' & Hasc) & _ & _ & _ & Hvert & Hch & Hcells & _).
  assert (Hlσ : length (argsort dv) = nv s) by (by rewrite Hσ, length_seq).
  assert (Hnv : nv s' = nv s).
  { inversion Hvert as [v v' Htake Hv1 Hv2|Hv1 Hv2]; unfold nv, n_vertices.
    - rewrite <- Hv1, <- Hv2. simpl. apply take_idx_length in Htake.
      rewrite Htake, Hlσ. unfold nv, n_vertices. by rewrite <- Hv1.
    - by rewrite <- Hv1, <- Hv2. }
  split.
  - intros c' Hin Hvx. rewrite Hnv.
    apply list_elem_of_lookup_1 in Hin as [k Hk].
    destruct (Forall2_lookup_r _ _ _ _ _ Hch Hk) as (c & Hck & _ & Hassoc' & Hcs).
    rewrite Hassoc' in Hvx. rewrite decide_True in Hcs by done.
    destruct Hcs as (v & v' & _ & Htake & Hval). exists v'. split; [done|].
    apply take_idx_length in Htake. lia.
  - pose proof (Forall2_filter_name "DEPTH" _ _ Hch) as Hf.
    fold (get_data "DEPTH" s) in Hf. fold (get_data "DEPTH" s') in Hf.
    destruct (get_data "DEPTH" s) as [|d0 tl]; [done|]. injection Ed as ->.
    apply Forall2_cons_inv_l in Hf as (d' & tl' & (_ & Hassoc' & Hcs) & _ & Heq).
    rewrite Heq. cbn [head].
    rewrite decide_True in Hcs by done.
    destruct Hcs as (v & v' & Hdv0 & Htake & Hval). rewrite Hdd in Hdv0.
    injection Hdv0 as <-. rewrite Hdv' in Htake. injection Htake as <-.
    split; [congruence|]. exists dv'. rewrite Hnv.
    assert (Hnum' : Forall is_num dv').
    { apply Forall_forall. intros x Hx. apply list_elem_of_lookup_1 in Hx as [k Hk].
      assert (∃ i, argsort dv !! k = Some i) as [i Hi].
      { apply lookup_lt_is_Some. apply lookup_lt_Some in Hk.
        by rewrite <- (take_idx_length _ _ _ Hdv'). }
      destruct (take_idx_lookup _ _ _ _ _ Hdv' Hi) as (y & Hy & Hdy).
      rewrite Hk in Hy. injection Hy as <-.
      eapply Forall_forall in Hnum; [exact Hnum|]. by eapply list_elem_of_lookup_2. }
    split_and!; [done| |done|].
    + apply take_idx_length in Hdv'. lia.
    + intros _. by apply ascending_all_diff.
  - intros cs' p' Hcs' Hp'. rewrite Hnv. rewrite Hcs' in Hcells.
    inversion Hcells as [cs ? HF Hc1 Hc2|]. subst.
    apply list_elem_of_lookup_1 in Hp' as [k Hk].
    destruct (Forall2_lookup_r _ _ _ _ _ HF Hk) as (p & _ & H1 & H2).
    apply lookup_lt_Some in H1, H2. lia.
Qed.


End invariant.

Lemma fresh_hole_invariant : log_invariant true fresh_hole.
Proof.
  split.
  - intros c Hin. by apply elem_of_nil in Hin.
  - done.
  - intros cs c [=].
Qed.

Lemma two_sample_hole_invariant : log_invariant true two_sample_hole.
Proof.
  split.
  - intros c Hin _. cbn [children two_sample_hole] in Hin.
    rewrite !elem_of_cons, elem_of_nil in Hin.
    destruct Hin as [->|[->|[]]]; eexists; (split; [reflexivity|]); vm_compute; lia.
  - cbn. split; [done|]. eexists. split_and!; [reflexivity|reflexivity| |done].
    repeat constructor; by eexists.
  - intros cs c [= <-] Hin. apply list_elem_of_singleton in Hin as ->. vm_compute. lia.
Qed.

(** C4: with DEPTH = [10, 20, 30], ingesting depth = [20.001, 40] with
    collocation distance 0.01 adds exactly one vertex, desurveyed at depth 40;
    the new field holds the first new value at the existing depth-20 vertex
    and the second at the new vertex, DEPTH keeps 20 and gains 40, and the
    field ingested before keeps its three values. This holds for any survey
    geometry and any values. *)
Theorem log_ingestion_overlap
    (desurvey_at : point → list (float * float * float) → float → point)
    (a b c v0 v1 : float) :
  let s1 := (add_data desurvey_at
               [("A"%string, log_batch [num 10; num 20; num 30] [a; b; c] None)]
               fresh_hole).1 in
  let r := add_data desurvey_at
             [("B"%string, log_batch [Num (20001 # 1000); num 40] [v0; v1]
                             (Some (Num (1 # 100))))] s1 in
  get_data "DEPTH" s1 = [mkData "DEPTH" VERTEX (Some [num 10; num 20; num 30])] ∧
  n_vertices s1 = Some 3 ∧
  r.2 = Ok [2] ∧
  n_vertices r.1 = Some 4 ∧
  vertices r.1 = (λ v, v ++ [desurvey_at (num 0, num 0, num 0) [(num 0, num (-90), num 0)]
                               (num 40)]) <$> vertices s1 ∧
  get_data "DEPTH" r.1 = [mkData "DEPTH" VERTEX (Some [num 10; num 20; num 30; num 40])] ∧
  get_data "B" r.1 = [mkData "B" VERTEX (Some [NaN; v0; NaN; v1])] ∧
  get_data "A" r.1 = [mkData "A" VERTEX (Some [a; b; c])] ∧
  data_values r.1 (mkData "A" VERTEX (Some [a; b; c])) = Some [a; b; c; NaN].
Proof. cbv zeta. split_and!; vm_compute; reflexivity. Qed.

Lemma sort_depths_permutes_witness :
  ∃ s', sort_depths unsorted_hole = (s', Ok ()) ∧
        cells s' = Some [(2, 0); (0, 1)] ∧
        get_data "DEPTH" s' = [mkData "DEPTH" VERTEX (Some [num 10; num 20; num 30])] ∧
        get_data "Au" s' = [mkData "Au" VERTEX (Some [num 1; NaN; num 3])] ∧
        get_data "FROM" s' = [mkData "FROM" CELL (Some [num 30; num 10])].
Proof.
  destruct (sort_depths_permutes unsorted_hole
              (mkData "DEPTH" VERTEX (Some [num 30; num 10; num 20]))
              [num 30; num 10; num 20]) as (s' & Hrun & _).
  - reflexivity.
  - reflexivity.
  - intros c Hin Hvx. cbn [children unsorted_hole] in Hin.
    rewrite !elem_of_cons, elem_of_nil in Hin.
    destruct Hin as [->|[->|[->|[]]]]; try discriminate Hvx;
      eexists; (split; [reflexivity|reflexivity]).
  - intros v [= <-]. reflexivity.
  - intros cs c [= <-] Hin. rewrite !elem_of_cons, elem_of_nil in Hin.
    destruct Hin as [->|[->|[]]]; vm_compute; lia.
  - exists s'. split; [exact Hrun|]. vm_compute in Hrun. injection Hrun as <-.
    split_and!; reflexivity.
Defined.

(** ** Which errors leave which state *)

Lemma mapM_Raise {A B} (f : A → result B) (l : list A) (e : exn) :
  mapM f l = Raise e → ∃ x, x ∈ l ∧ f x = Raise e.
Proof.
  induction l as [|x l IH]; [done|]. cbn [mapM].
  destruct (f x) as [y|e'] eqn:Ex; cbn [mbind result_bind].
  - destruct (mapM f l) as [k|e'] eqn:Ek; [done|]. cbn [mbind result_bind].
    intros [= ->]. destruct (IH eq_refl) as (x' & Hin & Hx'). exists x'. split; [by right|done].
  - intros [= ->]. exists x. split; [by left|done].
Qed.

Lemma py_index_Raise {A} (l : list A) (i : Z) (e : exn) :
  py_index l i = Raise e → e = IndexError.
Proof. unfold py_index. cbv zeta. repeat case_match; by intros [= <-]. Qed.

Lemma take_idx_Raise {A} (l : list A) (idx : list nat) (e : exn) :
  take_idx l idx = Raise e → e = IndexError.
Proof.
  unfold take_idx, fancy. intros (x & _ & Hx)%mapM_Raise. by eapply py_index_Raise.
Qed.

Lemma put_Raise {A} (l : list A) (idx : list nat) (vals : list A) (e : exn) :
  put l idx vals = Raise e → e = IndexError ∨ e = ValueError.
Proof.
  revert l vals. induction idx as [|i idx IH]; intros l [|v vals]; simpl; try done.
  - intros [= <-]. by right.
  - intros [= <-]. by right.
  - case_decide; [apply IH|]. intros [= <-]. by left.
Qed.

Lemma np_delete_Raise {A} (l : list A) (idx : list nat) (e : exn) :
  np_delete l idx = Raise e → e = IndexError.
Proof. unfold np_delete. case_decide; [done|]. by intros [= <-]. Qed.

Lemma match_values_Raise (a b : list float) (eps : Q) (e : exn) :
  match_values a b eps = Raise e → e = IndexError.
Proof.
  unfold match_values. cbv zeta.
  destruct (take_idx a (argsort a)) as [sorted|e'] eqn:E1; cbn [mbind result_bind].
  2:{ intros [= <-]. by eapply take_idx_Raise. }
  destruct (mapM (fancy sorted) _) as [nv|e'] eqn:E2; cbn [mbind result_bind].
  2:{ intros [= <-]. apply mapM_Raise in E2 as (x & _ & Hx).
      unfold fancy in Hx. apply mapM_Raise in Hx as (y & _ & Hy). by eapply py_index_Raise. }
  intros ([r c] & _ & Hx)%mapM_Raise. unfold index2 in Hx.
  repeat case_match; cbn [mbind result_bind] in Hx; try (by injection Hx as <-).
  destruct (py_index (argsort a) _) eqn:E3; [done|]. cbn in Hx. injection Hx as <-.
  by eapply py_index_Raise.
Qed.

Lemma merge_arrays_Raise (head tail : list float) (replace : string)
    (mapping : option (list (nat * nat))) (eps : Q) (e : exn) :
  merge_arrays head tail replace mapping eps = Raise e → e = IndexError ∨ e = ValueError.
Proof.
  unfold merge_arrays.
  destruct (match mapping with None => _ | Some m0 => _ end) as [mp|e'] eqn:Emp;
    cbn [mbind result_bind].
  2:{ intros [= <-]. destruct mapping; [done|]. left. by eapply match_values_Raise. }
  case_decide; [|done].
  destruct (String.eqb replace "B->A").
  - destruct (take_idx tail mp.*2) as [vals|e'] eqn:E1; cbn [mbind result_bind].
    2:{ intros [= <-]. left. by eapply take_idx_Raise. }
    destruct (put head mp.*1 vals) as [h|e'] eqn:E2; cbn [mbind result_bind mret result_ret].
    2:{ intros [= <-]. by eapply put_Raise. }
    destruct (np_delete tail mp.*2) as [r|e'] eqn:E3; cbn [mbind result_bind]; [done|].
    intros [= <-]. left. by eapply np_delete_Raise.
  - destruct (take_idx head mp.*1) as [vals|e'] eqn:E1; cbn [mbind result_bind].
    2:{ intros [= <-]. left. by eapply take_idx_Raise. }
    destruct (put tail mp.*2 vals) as [t|e'] eqn:E2; cbn [mbind result_bind mret result_ret].
    2:{ intros [= <-]. by eapply put_Raise. }
    destruct (np_delete t mp.*2) as [r|e'] eqn:E3; cbn [mbind result_bind]; [done|].
    intros [= <-]. left. by eapply np_delete_Raise.
Qed.

Lemma internal_not_validation (e : exn) : internal_error e → ¬ validation_error e.
Proof.
  unfold internal_error, validation_error. intros Hi Hv.
  destruct Hi as [->|[->|[->|[->| ->]]]];
    repeat (destruct Hv as [Hv|Hv]; [discriminate Hv|]); discriminate Hv.
Qed.

Ltac internal :=
  match goal with
  | H : take_idx _ _ = Raise _ |- _ => apply take_idx_Raise in H as ->
  | H : np_delete _ _ = Raise _ |- _ => apply np_delete_Raise in H as ->
  | H : match_values _ _ _ = Raise _ |- _ => apply match_values_Raise in H as ->
  | H : put _ _ _ = Raise _ |- _ => apply put_Raise in H as [-> | ->]
  | H : merge_arrays _ _ _ _ _ = Raise _ |- _ => apply merge_arrays_Raise in H as [-> | ->]
  | _ => idtac
  end;
  unfold internal_error; tauto.

Section errors.
Variable desurvey_at : point → list (float * float * float) → float → point.

Lemma validate_log_data_Raise (depth vals : list float) (eps : Q) (s s' : Drillhole)
    (e : exn) :
  validate_log_data desurvey_at depth vals eps s = (s', Raise e) →
  s' = s ∨ internal_error e.
Proof.
  unfold validate_log_data. unfold_M.
  case_bool_decide; cbv beta iota; [|intros [= <- _]; by left].
  intros Hrun. right. revert Hrun.
  repeat (cbv beta iota; rewrite ?desurvey_run, ?add_vertices_run; case_match;
          simplify_eq; try done);
    cbv beta iota; intros [= <- <-]; internal.
Qed.

Lemma validate_interval_data_Raise (from_to : from_to_arg) (vals : list float) (eps : Q)
    (s s' : Drillhole) (e : exn) :
  validate_interval_data desurvey_at from_to vals eps s = (s', Raise e) →
  s' = s ∨ internal_error e.
Proof.
  unfold validate_interval_data. destruct from_to as [l|from_to].
  { unfold_M. intros [= <- _]. by left. }
  unfold_M.
  case_bool_decide; cbv beta iota; [|intros [= <- _]; by left].
  case_bool_decide; cbv beta iota; [|intros [= <- _]; by left].
  intros Hrun. right. revert Hrun.
  repeat (cbv beta iota; rewrite ?desurvey_run, ?add_vertices_run; case_match;
          simplify_eq; try done);
    cbv beta iota; intros [= <- <-]; internal.
Qed.

Lemma sort_children_Raise (s : Drillhole) (σ : list nat) (ch ch' : list Data) (e : exn) :
  sort_children s σ ch = (ch', Raise e) → internal_error e.
Proof.
  revert ch'. induction ch as [|c ch IH]; intros ch'; [done|]. simpl.
  destruct (sort_children s σ ch) as [r res] eqn:E. case_decide.
  - destruct (check_vector_length s c (values c)) as [v|]; [|intros [= _ <-]; internal].
    destruct (take_idx v σ) as [v'|e'] eqn:Et; [|intros [= _ <-]; internal].
    intros [= _ ->]. by eapply IH.
  - intros [= _ ->]. by eapply IH.
Qed.

Lemma sort_depths_Raise (s s' : Drillhole) (e : exn) :
  sort_depths s = (s', Raise e) → internal_error e.
Proof.
  unfold sort_depths. unfold_M.
  repeat (cbv beta iota; case_match; simplify_eq; try done);
    cbv beta iota; intros [= <- <-]; try internal;
    by eapply sort_children_Raise.
Qed.

(** An entry that fails validation leaves the drillhole as it found it. *)
Lemma add_entry_Raise (nm : string) (a : attr) (s s' : Drillhole) (e : exn) :
  add_entry desurvey_at nm a s = (s', Raise e) → s' = s ∨ internal_error e.
Proof.
  unfold add_entry. unfold_M.
  destruct (a_values a) as [vals|]; [|intros [= <- _]; by left].
  destruct (a_collocation_distance a) as [[|q]|]; cbv beta iota;
    [intros [= <- _]; by left|destruct (Qltb 0 q); [|intros [= <- _]; by left]|];
    cbv beta iota.
  all: destruct (a_depth a) as [depth|]; [|destruct (a_from_to a) as [ft|]].
  all: try match goal with
       | |- context [validate_log_data _ ?d ?v ?q ?s] =>
           destruct (validate_log_data desurvey_at d v q s) as [s1 [r|e1]] eqn:E;
           [done|intros [= <- <-]; by eapply validate_log_data_Raise]
       | |- context [validate_interval_data _ ?d ?v ?q ?s] =>
           destruct (validate_interval_data desurvey_at d v q s) as [s1 [r|e1]] eqn:E;
           [done|intros [= <- <-]; by eapply validate_interval_data_Raise]
       end.
  all: destruct (a_association a) as [assoc|]; [|intros [= <- _]; by left].
  all: destruct (String.eqb assoc "OBJECT"); [done|intros [= <- _]; by left].
Qed.

Lemma add_entries_Raise (data : list (string * attr)) (s s' : Drillhole) (e : exn) :
  add_entries desurvey_at data s = (s', Raise e) →
  ∃ before nm a after s1 ks,
    data = before ++ (nm, a) :: after ∧
    add_entries desurvey_at before s = (s1, Ok ks) ∧
    add_entry desurvey_at nm a s1 = (s', Raise e).
Proof.
  revert s. induction data as [|[nm a] data IH]; intros s; [done|].
  cbn [add_entries]. unfold_M.
  destruct (add_entry desurvey_at nm a s) as [s1 [k|e1]] eqn:E1.
  - destruct (add_entries desurvey_at data s1) as [s2 [ks|e2]] eqn:E2; [done|].
    intros [= <- <-].
    destruct (IH _ E2) as (before & nm' & a' & after & s3 & ks & -> & Hb & Ha).
    exists ((nm, a) :: before), nm', a', after, s3, (k :: ks). split_and!; [done| |done].
    cbn [add_entries]. unfold_M. by rewrite E1, Hb.
  - intros [= <- <-]. exists [], nm, a, data, s, []. done.
Qed.
End errors.

(** C9 (as stated) fails for a dictionary with several entries: the first
    batch is ingested before the second one is validated. *)
Lemma add_data_validation_counterexample :
  ∃ s' e,
    add_data vertical
      [("A"%string, log_batch [num 10; num 20] [num 1; num 2] None);
       ("B"%string, log_batch [num 30] [num 1; num 2] None)] fresh_hole = (s', Raise e) ∧
    validation_error e ∧
    vertices fresh_hole = None ∧
    vertices s' = Some [(num 0, num 0, num (-10)); (num 0, num 0, num (-20))].
Proof.
  eexists _, _. split; [vm_compute; reflexivity|]. split; [by left|]. split; reflexivity.
Qed.

(** C9 (amended): when [add_data] raises a validation error (values and
    depths or intervals of different lengths, intervals that are not pairs, no
    depth, from-to or OBJECT association, a collocation distance that is not
    positive), the error comes from one entry of the dictionary and is raised
    before anything is changed for that entry: the drillhole is left as the
    entries before it left it. A call with a single entry leaves the
    drillhole unchanged. *)
Theorem add_data_validation
    (desurvey_at : point → list (float * float * float) → float → point)
    (data : list (string * attr)) (s s' : Drillhole) (e : exn) :
  add_data desurvey_at data s = (s', Raise e) → validation_error e →
  (∃ before nm a after ks,
     data = before ++ (nm, a) :: after ∧
     add_entries desurvey_at before s = (s', Ok ks) ∧
     add_entry desurvey_at nm a s' = (s', Raise e)) ∧
  (length data = 1 → s' = s).
Proof.
  intros Hrun Hval. unfold add_data in Hrun. revert Hrun. unfold_M.
  destruct (add_entries desurvey_at data s) as [s1 [ks|e1]] eqn:E1.
  { destruct (sort_depths s1) as [s2 [[]|e2]] eqn:E2; [done|]. intros [= <- <-].
    exfalso. eapply internal_not_validation; [|exact Hval]. by eapply sort_depths_Raise. }
  intros [= <- <-].
  destruct (add_entries_Raise _ _ _ _ _ E1) as (before & nm & a & after & s2 & ks & -> & Hb & Ha).
  assert (s1 = s2) as ->.
  { destruct (add_entry_Raise _ _ _ _ _ _ Ha) as [?|Hi]; [done|].
    exfalso. by eapply internal_not_validation. }
  split; [by exists before, nm, a, after, ks|].
  rewrite length_app. cbn [length]. intros Hlen.
  destruct before; [|simpl in Hlen; lia]. by injection Hb as <-.
Qed.

Lemma add_data_validation_witness :
  add_data vertical [("B"%string, log_batch [num 30] [num 1; num 2] None)] two_sample_hole
  = (two_sample_hole,
     Raise (AssertionError "Mismatch between input 'depth' shape and 'values' shape")).
Proof.
  pose proof (add_data_validation vertical
                [("B"%string, log_batch [num 30] [num 1; num 2] None)] two_sample_hole) as H.
  destruct (add_data vertical _ two_sample_hole) as [s' [ks|e]] eqn:E;
    vm_compute in E; [discriminate E|].
  injection E as <- <-.
  destruct (H _ _ eq_refl ltac:(by left)) as [_ Hs]. by rewrite (Hs eq_refl) at 1.
Defined.

(** ** Merging twice *)

Lemma close_refl (eps q : Q) : (0 < eps)%Q → close eps (Num q) (Num q) = true.
Proof.
  intros H. apply close_spec. exists q, q. split_and!; [done..|].
  apply Qabs_Qlt_condition. lra.
Qed.

Lemma merge_arrays_mapping_none (head tail : list float) (replace : string) (eps : Q)
    (m : merged) :
  merge_arrays head tail replace None eps = Ok m →
  match_values head tail eps = Ok (m_mapping m).
Proof.
  unfold merge_arrays. destruct (match_values head tail eps) as [mp|]; [|done].
  cbn [mbind result_bind]. case_decide; [|by intros [= <-]].
  destruct (if String.eqb replace "B->A" then _ else _) as [[h t]|]; [|done].
  cbn [mbind result_bind]. destruct (np_delete t mp.*2); [|done]. by intros [= <-].
Qed.

(** When every entry of the tail has an entry of the head within the
    tolerance, the merge returns the head. *)
Lemma merge_all_matched (out t : list float) (eps : Q) :
  (∀ j y, t !! j = Some y → ∃ i x, out !! i = Some x ∧ close eps x y = true) →
  ∃ m, merge_arrays out t "A->B" None eps = Ok m ∧ m_out m = out ∧
       np_delete (m_tail m) (m_mapping m).*2 = Ok [] ∧ length (m_tail m) = length t ∧
       Forall (λ i, i < length out) (m_mapping m).*1 ∧
       Forall (λ j, j < length t) (m_mapping m).*2.
Proof.
  intros Hall. destruct t as [|y0 t0].
  { eexists. unfold merge_arrays. rewrite match_values_nil_r. cbn.
    split_and!; [done|by rewrite app_nil_r|done..]. }
  set (t := y0 :: t0) in *.
  assert (Hne : out ≠ []).
  { destruct (Hall 0 y0 eq_refl) as (i & x & Hi & _). by intros ->. }
  destruct (match_values_total out t eps (or_introl Hne)) as [res Hres].
  assert (Hcover : ∀ j, j < length t → j ∈ res.*2).
  { intros j Hj. destruct (lookup_lt_is_Some_2 _ _ Hj) as [y Hy].
    destruct (Hall j y Hy) as (i & x & Hi & Hc).
    destruct (match_values_complete _ _ _ _ _ _ _ _ Hres Hi Hy Hc) as [i' Hin].
    apply list_elem_of_fmap. by exists (i', j). }
  assert (Hrange1 : Forall (λ i, i < length out) res.*1).
  { apply Forall_forall. intros i Hi. apply list_elem_of_fmap in Hi as ([i' j] & -> & Hin).
    destruct (match_values_close _ _ _ _ _ _ Hres Hin) as (x & y & Hx & _).
    by eapply lookup_lt_Some. }
  assert (Hrange2 : Forall (λ j, j < length t) res.*2).
  { apply Forall_forall. intros j Hj. apply list_elem_of_fmap in Hj as ([i j'] & -> & Hin).
    destruct (match_values_close _ _ _ _ _ _ Hres Hin) as (x & y & _ & Hy & _).
    by eapply lookup_lt_Some. }
  unfold merge_arrays. rewrite Hres. cbn [mbind result_bind].
  rewrite decide_True.
  2:{ assert (0 ∈ res.*2) as Hin by (apply Hcover; simpl; lia).
      apply list_elem_of_fmap in Hin as (p & _ & Hin). destruct res; [by apply elem_of_nil in Hin|].
      simpl. lia. }
  cbn [String.eqb Ascii.eqb Bool.eqb]. rewrite (take_idx_total out) by done.
  cbn [mbind result_bind].
  destruct (put_total t res.*2 ((out !!!.) <$> res.*1)) as [t' Ht']; [|done|].
  { by rewrite !length_fmap. }
  rewrite Ht'. cbn [mbind result_bind mret result_ret].
  destruct (put_spec _ _ _ _ Ht') as (Hlen' & _).
  destruct (np_delete_total t' res.*2) as [rest Hrest]; [by rewrite Hlen'|].
  rewrite Hrest. cbn [mbind result_bind mret result_ret].
  assert (rest = []) as ->.
  { apply (np_delete_all _ _ _ Hrest). intros j Hj. apply Hcover. by rewrite <- Hlen'. }
  eexists. split; [done|]. cbn [m_out m_tail m_mapping].
  split_and!; [by rewrite app_nil_r|done..].
Qed.

(** After a merge every entry of the tail, as passed and as left behind, has
    an entry of the merged array within the tolerance. *)
Lemma merge_arrays_covers (head tail : list float) (eps : Q) (m1 : merged) :
  (0 < eps)%Q → Forall is_num tail →
  merge_arrays head tail "A->B" None eps = Ok m1 →
  (∀ j y, tail !! j = Some y → ∃ i x, m_out m1 !! i = Some x ∧ close eps x y = true) ∧
  (∀ j y, m_tail m1 !! j = Some y → ∃ i x, m_out m1 !! i = Some x ∧ close eps x y = true).
Proof.
  intros Heps Hnum Hm.
  pose proof (merge_arrays_mapping_none _ _ _ _ _ Hm) as Hmv.
  destruct (merge_arrays_inv _ _ _ _ _ _ Hm) as ((rest & Hrest & Hout) & Hnil & Hne).
  destruct (merge_arrays_default _ _ _ _ _ Hm) as [Hhead _].
  rewrite Hhead in Hout.
  assert (Hkept : ∀ j y, j ∉ (m_mapping m1).*2 → m_tail m1 !! j = Some y →
                         ∃ i, m_out m1 !! i = Some y).
  { intros j y Hj Hy. apply list_elem_of_lookup_1. rewrite Hout. apply elem_of_app. right.
    apply (np_delete_elem _ _ _ y Hrest). eauto. }
  assert (Htail : ∀ j, j ∉ (m_mapping m1).*2 → m_tail m1 !! j = tail !! j).
  { intros j Hj. destruct (decide (m_mapping m1 = [])) as [He|He].
    - by rewrite (proj2 (Hnil He)).
    - destruct (Hne He) as (_ & _ & Hjj). by apply Hjj. }
  assert (Hmatched : ∀ j, j ∈ (m_mapping m1).*2 →
            ∃ i x q, head !! i = Some (Num x) ∧ tail !! j = Some (Num q) ∧
                     (Qabs (x - q) < eps)%Q ∧ m_tail m1 !! j = Some (Num x)).
  { intros j Hj. assert (He : m_mapping m1 ≠ []).
    { intros He. rewrite He in Hj. by apply elem_of_nil in Hj. }
    destruct (Hne He) as (_ & _ & Hjj).
    destruct (proj2 (Hjj j) Hj) as (i & x & Hin & Hx & Ht).
    destruct (match_values_close _ _ _ _ _ _ Hmv Hin) as (x' & q & Hx' & Hq & Hc).
    rewrite Hx in Hx'. injection Hx' as ->. exists i, x', q. done. }
  assert (Hhd : ∀ i x, head !! i = Some x → m_out m1 !! i = Some x).
  { intros i x Hx. rewrite Hout. by apply lookup_app_l_Some. }
  split; intros j y Hy.
  - destruct (decide (j ∈ (m_mapping m1).*2)) as [Hj|Hj].
    + destruct (Hmatched j Hj) as (i & x & q & Hx & Hq & Hc & _).
      rewrite Hq in Hy. injection Hy as <-. exists i, (Num x). split; [by apply Hhd|].
      apply close_spec. eauto 10.
    + rewrite <- (Htail j Hj) in Hy. destruct (Hkept j y Hj Hy) as [i Hi].
      exists i, y. split; [done|].
      rewrite (Htail j Hj) in Hy. eapply Forall_forall in Hnum as [q ->];
        [|by eapply list_elem_of_lookup_2]. by apply close_refl.
  - destruct (decide (j ∈ (m_mapping m1).*2)) as [Hj|Hj].
    + destruct (Hmatched j Hj) as (i & x & q & Hx & Hq & Hc & Ht).
      rewrite Ht in Hy. injection Hy as <-. exists i, (Num x). split; [by apply Hhd|].
      by apply close_refl.
    + destruct (Hkept j y Hj Hy) as [i Hi]. exists i, y. split; [done|].
      rewrite (Htail j Hj) in Hy. eapply Forall_forall in Hnum as [q ->];
        [|by eapply list_elem_of_lookup_2]. by apply close_refl.
Qed.

(** Merging the same tail a second time, with the same tolerance, returns
    the array of the first merge; this holds for the tail as it was passed
    and for the tail array as the first call left it. *)
Lemma merge_arrays_idempotent (head tail : list float) (eps : Q) (m1 : merged) :
  (0 < eps)%Q → Forall is_num tail →
  merge_arrays head tail "A->B" None eps = Ok m1 →
  (∃ m2, merge_arrays (m_out m1) tail "A->B" None eps = Ok m2 ∧ m_out m2 = m_out m1) ∧
  (∃ m2, merge_arrays (m_out m1) (m_tail m1) "A->B" None eps = Ok m2 ∧ m_out m2 = m_out m1).
Proof.
  intros Heps Hnum Hm.
  destruct (merge_arrays_covers _ _ _ _ Heps Hnum Hm) as [H1 H2].
  split.
  - destruct (merge_all_matched _ _ _ H1) as (m2 & Hm2 & Ho2 & _). by exists m2.
  - destruct (merge_all_matched _ _ _ H2) as (m2 & Hm2 & Ho2 & _). by exists m2.
Qed.

(** ** Interval ingestion on the examples of the specification *)

Section interval_examples.
Variable desurvey_at : point → list (float * float * float) → float → point.


(** Ingesting [0, 10] reuses segment 0: its value goes to position 0 of the
    new field, and no vertex and no segment is added. *)
Lemma interval_reuse_example (a b v : float) :
  let r := add_data desurvey_at
             [("B"%string, interval_batch [[num 0; num 10]] [v] None)]
             (two_segment_hole desurvey_at a b) in
  r.2 = Ok [3] ∧
  vertices r.1 = vertices (two_segment_hole desurvey_at a b) ∧
  cells r.1 = cells (two_segment_hole desurvey_at a b) ∧
  get_data "FROM" r.1 = get_data "FROM" (two_segment_hole desurvey_at a b) ∧
  get_data "TO" r.1 = get_data "TO" (two_segment_hole desurvey_at a b) ∧
  get_data "B" r.1 = [mkData "B" CELL (Some [v; NaN])].
Proof. cbv zeta. split_and!; vm_compute; reflexivity. Qed.

(** Ingesting [0, 15] adds one segment, from the existing vertex of depth 0
    to a new vertex desurveyed at depth 15. *)
Lemma interval_new_segment_example (a b v : float) :
  let r := add_data desurvey_at
             [("B"%string, interval_batch [[num 0; num 15]] [v] None)]
             (two_segment_hole desurvey_at a b) in
  r.2 = Ok [3] ∧
  vertices r.1 = Some [at_depth desurvey_at 0; at_depth desurvey_at 10; at_depth desurvey_at 20; at_depth desurvey_at 15] ∧
  cells r.1 = Some [(0, 1); (1, 2); (0, 3)] ∧
  get_data "FROM" r.1 = [mkData "FROM" CELL (Some [num 0; num 10; num 0])] ∧
  get_data "TO" r.1 = [mkData "TO" CELL (Some [num 10; num 20; num 15])] ∧
  get_data "B" r.1 = [mkData "B" CELL (Some [NaN; NaN; v])].
Proof. cbv zeta. split_and!; vm_compute; reflexivity. Qed.

Lemma shared_from_hole_eq (a b : float) :
  shared_from_hole desurvey_at a b =
    mkDrillhole (Some (num 0, num 0, num 0)) (Some [(num 0, num (-90), num 0)])
      (Some [at_depth desurvey_at 0; at_depth desurvey_at 5; at_depth desurvey_at 10])
      (Some [(0, 2); (0, 1)])
      [mkData "FROM" CELL (Some [num 0; num 0]); mkData "TO" CELL (Some [num 10; num 5]);
       mkData "A" CELL (Some [a; b])]
      (1 # 100).
Proof. vm_compute. reflexivity. Qed.

(** C3 at the failing input: the interval [0, 5] has both endpoints equal
    to those of the existing segment 1, yet a segment is appended for it (a
    copy of segment 1), and segment 1 receives the value [v0] of the other
    interval, [0, 10]. *)
Theorem interval_reuse_shared_from (a b v0 v1 : float) :
  let s := shared_from_hole desurvey_at a b in
  let r := add_data desurvey_at
             [("B"%string, interval_batch [[num 0; num 10]; [num 0; num 5]] [v0; v1] None)]
             s in
  match_values [num 0; num 0] [num 0; num 0] (1 # 100) = Ok [(1, 0); (0, 0); (1, 1); (0, 1)] ∧
  match_values [num 10; num 5] [num 10; num 5] (1 # 100) = Ok [(0, 0); (1, 1)] ∧
  r.2 = Ok [3] ∧
  cells s = Some [(0, 2); (0, 1)] ∧
  cells r.1 = Some [(0, 2); (0, 1); (0, 1)] ∧
  get_data "B" r.1 = [mkData "B" CELL (Some [NaN; v0; v1])].
Proof. cbv zeta. split_and!; vm_compute; reflexivity. Qed.

(** C5 at the failing input: ingesting the batch [[0, 10], [0, 5]] a second
    time leaves the three vertices but turns two segments into three. *)
Theorem interval_reingestion_duplicates (a b : float) :
  let s := shared_from_hole desurvey_at a b in
  let r := add_data desurvey_at
             [("A"%string, interval_batch [[num 0; num 10]; [num 0; num 5]] [a; b] None)]
             s in
  r.2 = Ok [3] ∧
  n_vertices s = Some 3 ∧ n_vertices r.1 = Some 3 ∧
  n_cells s = Some 2 ∧ n_cells r.1 = Some 3 ∧
  get_data "FROM" r.1 = [mkData "FROM" CELL (Some [num 0; num 0; num 0])] ∧
  get_data "TO" r.1 = [mkData "TO" CELL (Some [num 10; num 5; num 5])].
Proof. cbv zeta. split_and!; vm_compute; reflexivity. Qed.

(** Ingesting the log batch of C4 a second time adds no vertex. *)
Lemma log_reingestion_example (a b c v0 v1 : float) :
  let s1 := (add_data desurvey_at
               [("A"%string, log_batch [num 10; num 20; num 30] [a; b; c] None)]
               fresh_hole).1 in
  let batch := [("B"%string, log_batch [Num (20001 # 1000); num 40] [v0; v1]
                               (Some (Num (1 # 100))))] in
  let s2 := (add_data desurvey_at batch s1).1 in
  let r := add_data desurvey_at batch s2 in
  r.2 = Ok [3] ∧ n_vertices s2 = Some 4 ∧ n_vertices r.1 = Some 4 ∧
  vertices r.1 = vertices s2 ∧ cells r.1 = cells s2.
Proof. cbv zeta. split_and!; vm_compute; reflexivity. Qed.

(** The arrays the caller passed, after the call: the depth 20.001 matched
  to the vertex at 20 reads 20, and the interval [0.001, 10.002] matched to
  segment 0 reads [0, 10]. *)
Lemma validate_log_data_writes_depth (a b c v0 v1 : float) :
let s1 := (add_data desurvey_at
             [("A"%string, log_batch [num 10; num 20; num 30] [a; b; c] None)]
             fresh_hole).1 in
(validate_log_data desurvey_at [Num (20001 # 1000); num 40] [v0; v1] (1 # 100) s1).2
= Ok ([NaN; v0; NaN; v1], [num 20; num 40]).
Proof. vm_compute. reflexivity. Qed.

Lemma validate_interval_data_writes_from_to (a b v : float) :
(validate_interval_data desurvey_at
   (FromToArray (mkArray2 2 [[Num (1 # 1000); Num (10002 # 1000)]])) [v] (1 # 100)
   (two_segment_hole desurvey_at a b)).2
= Ok ([v; NaN], mkArray2 2 [[num 0; num 10]]).
Proof. vm_compute. reflexivity. Qed.
End interval_examples.

(** ** Ingesting a log batch twice *)

Lemma sorted_of_perm (v : list float) : sorted_of v ≡ₚ v.
Proof.
  unfold sorted_of. rewrite sort_pairs_perm. rewrite fst_zip; [done|].
  rewrite length_seq. lia.
Qed.

Lemma merge_arrays_some_total (head tail : list float) (mp : list (nat * nat)) (eps : Q) :
  Forall (λ i, i < length head) mp.*1 → Forall (λ j, j < length tail) mp.*2 →
  ∃ m, merge_arrays head tail "B->A" (Some mp) eps = Ok m.
Proof.
  intros H1 H2. unfold merge_arrays. cbn [mbind result_bind]. case_decide; [|by eexists].
  cbn [String.eqb Ascii.eqb Bool.eqb]. rewrite (take_idx_total tail) by done.
  cbn [mbind result_bind].
  destruct (put_total head mp.*1 ((tail !!!.) <$> mp.*2)) as [h' Hh']; [|done|].
  { by rewrite !length_fmap. }
  rewrite Hh'. cbn [mbind result_bind mret result_ret].
  destruct (np_delete_total tail mp.*2 H2) as [rest Hrest]. rewrite Hrest. by eexists.
Qed.

Section reingestion.
Variable desurvey_at : point → list (float * float * float) → float → point.

Lemma sort_depths_sorted (s : Drillhole) (d : Data) (dv : list float) :
head (get_data "DEPTH" s) = Some d → data_values s d = Some dv →
all_diff_ge0 dv = true → sort_depths s = (s, Ok ()).
Proof.
intros Hd Hdv Hs. unfold sort_depths. unfold_M.
destruct (get_data "DEPTH" s) as [|d' tl]; [done|]. injection Hd as ->.
unfold data_values in Hdv. by rewrite Hdv, Hs.
Qed.

(** What the sort pass keeps of a drillhole that log ingestion left. *)
Lemma sort_depths_keeps (s : Drillhole) :
log_invariant false s →
∃ s', sort_depths s = (s', Ok ()) ∧ log_invariant true s' ∧
      collar s' = collar s ∧ surveys s' = surveys s ∧
      default_collocation_distance s' = default_collocation_distance s ∧
      (is_Some (vertices s) → is_Some (vertices s')) ∧
      (∀ d dv, head (get_data "DEPTH" s) = Some d → values d = Some dv →
               ∃ d' dv', head (get_data "DEPTH" s') = Some d' ∧ values d' = Some dv' ∧
                         dv' ≡ₚ dv).
Proof.
intros Hinv. destruct (sort_depths_log_invariant s Hinv) as (s' & Hrun & Hinv').
exists s'. split; [done|]. split; [done|]. destruct Hinv as [Hv Hd Hc].
destruct (head (get_data "DEPTH" s)) as [d|] eqn:Ed.
2:{ assert (sort_depths s = (s, Ok ())) as Hrun'.
    { unfold sort_depths. unfold_M. by destruct (get_data "DEPTH" s). }
    rewrite Hrun' in Hrun. injection Hrun as <-. split_and!; done. }
destruct Hd as (Hassoc & dv & Hdv & Hlen & Hnum & _).
assert (Hdd : data_values s d = Some dv) by (by apply (data_values_depth false)).
destruct (sort_depths_spec s d dv Ed Hdd) as (s'' & Hrun' & Hsame & Hperm).
{ intros c Hin Hvx. destruct (Hv c Hin Hvx) as (v & Hval & Hle).
  rewrite Hlen. by eapply data_values_vertex. }
{ intros v Hvs. rewrite Hlen. unfold nv, n_vertices. by rewrite Hvs. }
{ intros cs p Hcs Hp. rewrite Hlen. by eapply Hc. }
rewrite Hrun in Hrun'. injection Hrun' as <-.
destruct (all_diff_ge0 dv) eqn:Hsorted.
{ rewrite (Hsame eq_refl). split_and!; [done..|].
  intros d0 dv0 [= <-] Hdv0. by exists d, dv0. }
destruct (Hperm eq_refl) as (_ & (dv' & Hdv' & _) & Hco & Hsu & Hdc & Hvert & Hch & _).
split_and!; [done..| |].
- intros [v Hvs]. rewrite Hvs in Hvert. inversion Hvert. by eexists.
- intros d0 dv0 Hd0 Hdv0. injection Hd0 as <-. rewrite Hdv in Hdv0. injection Hdv0 as <-.
  pose proof (Forall2_filter_name "DEPTH" _ _ Hch) as Hf.
  fold (get_data "DEPTH" s) in Hf. fold (get_data "DEPTH" s') in Hf.
  destruct (get_data "DEPTH" s) as [|d0 tl]; [done|]. injection Ed as ->.
  apply Forall2_cons_inv_l in Hf as (d' & tl' & (_ & _ & Hcs) & _ & Heq).
  rewrite Heq. cbn [head]. rewrite decide_True in Hcs by done.
  destruct Hcs as (v & v' & Hdv0 & Htake & Hval). rewrite Hdd in Hdv0.
  injection Hdv0 as <-. exists d', v'. split_and!; [done..|].
  rewrite take_idx_argsort_float in Htake. injection Htake as <-. apply sorted_of_perm.
Qed.

(** A later batch, run forward. *)
Lemma validate_log_data_merge_run (depth vals : list float) (eps : Q) (s : Drillhole)
  (d : Data) (dv : list float) (m mv : merged) (rest : list float) (vs : list point)
  (sv : list (float * float * float)) (c : point) :
head (get_data "DEPTH" s) = Some d → values d = Some dv →
length depth = length vals →
merge_arrays dv depth "A->B" None eps = Ok m → vertices s = Some vs →
merge_arrays (replicate (length vs) NaN) vals "B->A" (Some (m_mapping m)) (1 # 10000)
  = Ok mv →
np_delete (m_tail m) (m_mapping m).*2 = Ok rest →
surveys s = Some sv → collar s = Some c →
validate_log_data desurvey_at depth vals eps s =
  (set_children (set_first_values "DEPTH" (m_out m) (children s))
     (set_vertices (vs ++ (desurvey_at c sv <$> rest)) s),
   Ok (m_out mv, m_tail m)).
Proof.
intros Hd Hdv Hlen Hm Hvs Hmv Hrest Hsv Hc. unfold validate_log_data. unfold_M.
rewrite bool_decide_true by done. cbv beta iota.
destruct (decide (get_data "DEPTH" s = [])) as [Hnil|_]; [by rewrite Hnil in Hd|].
cbv beta iota. rewrite Hd, Hdv, Hm. unfold n_vertices. rewrite Hvs.
cbn [fmap option_fmap option_map]. rewrite Hmv, Hrest. rewrite desurvey_run, Hsv, Hc.
rewrite add_vertices_run, Hvs. done.
Qed.

Lemma set_first_values_same (nm : string) (v : list float) (ch : list Data) (d : Data) :
head (filter (λ d, name d = nm) ch) = Some d → values d = Some v →
set_first_values nm v ch = ch.
Proof.
induction ch as [|c ch IH]; [done|]. rewrite filter_cons. simpl. case_decide as Hc.
- intros [= ->] Hv. destruct d as [n a vv]. simpl in *. by rewrite Hv.
- intros Hd Hv. by rewrite IH.
Qed.

Lemma add_data_log_single_inv (nm : string) (depth vals : list float) (cd : option float)
  (s s1 : Drillhole) (ks : list nat) :
add_data desurvey_at [(nm, log_batch depth vals cd)] s = (s1, Ok ks) →
∃ eps sa r, tolerance cd s = Some eps ∧
  validate_log_data desurvey_at depth vals eps s = (sa, Ok r) ∧
  sort_depths (set_children (children sa ++ [mkData nm VERTEX (Some r.1)]) sa)
    = (s1, Ok ()).
Proof.
unfold add_data, add_entries, add_entry, log_batch, tolerance. unfold_M.
cbn [a_values a_depth a_from_to a_collocation_distance].
destruct cd as [[|q]|]; [done| |].
- destruct (Qltb 0 q); [|done]. cbv beta iota.
  destruct (validate_log_data desurvey_at depth vals q s) as [sa [r|e]] eqn:Ev; [|done].
  destruct (sort_depths _) as [s2 [[]|e]] eqn:Es; [|done]. intros [= <- _].
  by exists q, sa, r.
- cbv beta iota.
  destruct (validate_log_data desurvey_at depth vals _ s) as [sa [r|e]] eqn:Ev; [|done].
  destruct (sort_depths _) as [s2 [[]|e]] eqn:Es; [|done]. intros [= <- _].
  by eexists _, sa, r.
Qed.

Lemma add_data_log_single_run (nm : string) (depth vals : list float) (cd : option float)
  (s sa s1 : Drillhole) (eps : Q) (r : list float * list float) :
tolerance cd s = Some eps →
validate_log_data desurvey_at depth vals eps s = (sa, Ok r) →
sort_depths (set_children (children sa ++ [mkData nm VERTEX (Some r.1)]) sa)
  = (s1, Ok ()) →
add_data desurvey_at [(nm, log_batch depth vals cd)] s = (s1, Ok [length (children sa)]).
Proof.
unfold add_data, add_entries, add_entry, log_batch, tolerance. unfold_M.
cbn [a_values a_depth a_from_to a_collocation_distance].
destruct cd as [[|q]|]; [done| |].
- destruct (Qltb 0 q); [|done]. intros [= <-] Hv Hs. cbv beta iota. rewrite Hv, Hs. done.
- intros [= <-] Hv Hs. cbv beta iota. rewrite Hv, Hs. done.
Qed.

Lemma tolerance_pos (cd : option float) (s : Drillhole) (eps : Q) :
(0 < default_collocation_distance s)%Q → tolerance cd s = Some eps → (0 < eps)%Q.
Proof.
unfold tolerance. intros Hd. destruct cd as [[|q]|]; [done| |by intros [= <-]].
destruct (Qltb 0 q) eqn:E; [|done]. intros [= <-]. by apply Qltb_lt.
Qed.

(** Ingesting the depths of a log batch a second time, with the same
  collocation distance, adds no vertex and leaves the cells alone. *)
Lemma log_reingestion (nm nm' : string) (depth vals vals' : list float) (cd : option float)
  (s s1 : Drillhole) (ks : list nat) :
log_invariant true s → Forall is_num depth →
(0 < default_collocation_distance s)%Q → length vals' = length depth →
add_data desurvey_at [(nm, log_batch depth vals cd)] s = (s1, Ok ks) →
∃ s2 ks',
  add_data desurvey_at [(nm', log_batch depth vals' cd)] s1 = (s2, Ok ks') ∧
  vertices s2 = vertices s1 ∧ cells s2 = cells s1.
Proof.
intros Hinv Hnum Hpos Hlen' Hrun.
destruct (add_data_log_single_inv _ _ _ _ _ _ _ Hrun) as (eps & sa & r & Htol & Hval & Hsort).
pose proof (tolerance_pos _ _ _ Hpos Htol) as Heps.
(* the state after the first validation *)
assert (Hcover : ∃ da Da sv c, head (get_data "DEPTH" sa) = Some da ∧ values da = Some Da ∧
          surveys sa = Some sv ∧ collar sa = Some c ∧ is_Some (vertices sa) ∧
          default_collocation_distance sa = default_collocation_distance s ∧
          ∀ j y, depth !! j = Some y → ∃ x, x ∈ Da ∧ close eps x y = true).
{ destruct (head (get_data "DEPTH" s)) as [d|] eqn:Ed.
  - pose proof (inv_depth _ _ Hinv) as Hd. rewrite Ed in Hd.
    destruct Hd as (_ & dv & Hdv & _).
    destruct (validate_log_data_merge _ _ _ _ _ _ _ _ _ Ed Hdv Hval)
      as (_ & m & mv & rest & vs & sv & c & Hm & Hvs & _ & _ & Hsv & Hc & -> & _).
    destruct (merge_arrays_covers _ _ _ _ Heps Hnum Hm) as [Hcov _].
    assert (Hfilter : ∃ tl, get_data "DEPTH" s = d :: tl).
    { destruct (get_data "DEPTH" s) as [|d' tl]; [done|]. injection Ed as ->. eauto. }
    destruct Hfilter as [tl Hfilter].
    eexists _, (m_out m), sv, c. split_and!; [| |done|done|by eexists|done|].
    + unfold get_data. cbn [children set_children]. rewrite set_first_values_filter.
      unfold get_data in Hfilter. rewrite Hfilter. done.
    + done.
    + intros j y Hy. destruct (Hcov j y Hy) as (i & x & Hx & Hcl). exists x.
      split; [by eapply list_elem_of_lookup_2|done].
  - assert (Hnil : get_data "DEPTH" s = []) by (by destruct (get_data "DEPTH" s)).
    destruct (validate_log_data_first _ _ _ _ _ _ _ Hnil Hval)
      as (Hl & sv & c & Hsv & Hc & -> & _).
    pose proof (inv_depth _ _ Hinv) as Hd. rewrite Ed in Hd. rewrite Hd.
    cbn [default app]. rewrite length_fmap, Nat.sub_diag. cbn [replicate app].
    eexists _, depth, sv, c. split_and!; [| |done|done|by eexists|done|].
    + rewrite get_data_set_children, filter_app. unfold get_data in Hnil. rewrite Hnil.
      cbn [app]. rewrite filter_cons. by rewrite decide_True.
    + done.
    + intros j y Hy. exists y. split; [by eapply list_elem_of_lookup_2|].
      eapply Forall_forall in Hnum as [q ->]; [|by eapply list_elem_of_lookup_2].
      by apply close_refl. }
destruct Hcover as (da & Da & sv & c & Hda & HDa & Hsv & Hc & Hvsa & Hdcd & Hcov).
(* the state after the new field and the sort *)
set (sb := set_children (children sa ++ [mkData nm VERTEX (Some r.1)]) sa) in *.
assert (Hinvb : log_invariant false sb).
{ assert (Hentry : add_entry desurvey_at nm (log_batch depth vals cd) s
                   = (sb, Ok (length (children sa)))).
  { revert Htol. unfold add_entry, log_batch, tolerance. unfold_M.
    cbn [a_values a_depth a_from_to a_collocation_distance].
    destruct cd as [[|q]|]; [done| |].
    - destruct (Qltb 0 q); [|done]. intros [= <-]. cbv beta iota. by rewrite Hval.
    - intros [= <-]. cbv beta iota. by rewrite Hval. }
  eapply add_entry_log_invariant; [|exact Hinv|exact Hentry].
  exists depth. done. }
destruct (sort_depths_keeps sb Hinvb) as (s1' & Hsort' & Hinv1 & Hc1 & Hsv1 & Hdcd1 & Hvs1 & HD1).
rewrite Hsort in Hsort'. injection Hsort' as <-.
assert (Hdb : head (get_data "DEPTH" sb) = Some da).
{ unfold sb. rewrite get_data_app. by destruct (get_data "DEPTH" sa). }
destruct (HD1 da Da Hdb HDa) as (d1 & dv1 & Hd1 & Hdv1 & Hperm).
destruct (Hvs1 Hvsa) as [vs1 Hvs1'].
pose proof (inv_depth _ _ Hinv1) as Hdep1. rewrite Hd1 in Hdep1.
destruct Hdep1 as (Hassoc1 & dv1' & Hdv1' & Hlen1 & Hnum1 & Hsorted1).
rewrite Hdv1 in Hdv1'. injection Hdv1' as <-.
assert (Hnv1 : nv s1 = length vs1) by (unfold nv, n_vertices; by rewrite Hvs1').
(* the second ingestion *)
destruct (merge_all_matched dv1 depth eps) as (m & Hm & Hout & Hnone & Hlt & Hr1 & Hr2).
{ intros j y Hy. destruct (Hcov j y Hy) as (x & Hx & Hcl).
  rewrite <- Hperm in Hx. apply list_elem_of_lookup_1 in Hx as [i Hi]. eauto. }
destruct (merge_arrays_some_total (replicate (length vs1) NaN) vals' (m_mapping m) (1 # 10000))
  as [mv Hmv].
{ rewrite length_replicate. by rewrite <- Hnv1, <- Hlen1. }
{ by rewrite Hlen'. }
assert (Htol1 : tolerance cd s1 = Some eps).
{ revert Htol. unfold tolerance. destruct cd as [[|q]|]; [done..|].
  unfold sb in Hdcd1. cbn [default_collocation_distance set_children] in Hdcd1.
  by rewrite Hdcd1, Hdcd. }
assert (Hval2 : validate_log_data desurvey_at depth vals' eps s1 = (s1, Ok (m_out mv, m_tail m))).
{ erewrite validate_log_data_merge_run; [|done|done|done|done|done|done|done| |].
  - f_equal. rewrite Hout.
    rewrite (set_first_values_same "DEPTH" dv1 (children s1) d1 Hd1 Hdv1).
    cbn [fmap list_fmap]. rewrite app_nil_r.
    destruct s1 as [co su vv cc ch dd]. simpl in *. by subst.
  - by rewrite Hsv1.
  - by rewrite Hc1. }
set (s2 := set_children (children s1 ++ [mkData nm' VERTEX (Some (m_out mv))]) s1).
assert (Hsort2 : sort_depths s2 = (s2, Ok ())).
{ apply (sort_depths_sorted s2 d1 dv1).
  - unfold s2. rewrite get_data_app. by destruct (get_data "DEPTH" s1).
  - apply (data_values_depth true); [done..|]. by rewrite Hlen1.
  - by apply Hsorted1. }
exists s2, [length (children s1)]. split; [|done].
by apply (add_data_log_single_run nm' depth vals' cd s1 s1 s2 eps (m_out mv, m_tail m)).
Qed.
End reingestion.

(** ** Which intervals reuse a segment *)

Lemma reshape2_length {A} (l : list A) (m : nat) :
  length l = 2 * m → length (reshape2 l) = m.
Proof.
  revert l. induction m as [|m IH]; intros l Hl.
  - by destruct l.
  - destruct l as [|a [|b l]]; simpl in Hl; try lia. simpl. f_equal. apply IH. lia.
Qed.

Lemma flatten2_length {A} (l : list (A * A)) : length (flatten2 l) = 2 * length l.
Proof.
  unfold flatten2. induction l as [|p l IH]; [done|]. csimpl. rewrite IH. lia.
Qed.



Section interval_reuse.
Variable desurvey_at : point → list (float * float * float) → float → point.

End interval_reuse.

(** * Further properties of the code *)

(** ** match_values: completeness, shape of the result, edge cases *)

Lemma np_where_length_gen (l : list bool) (k : nat) :
  length ((imap (λ i (b : bool), if b then [k + i] else []) l) ≫= id) ≤ length l.
Proof.
  revert k. induction l as [|b l IH]; intros k; [done|]. csimpl.
  rewrite length_app.
  rewrite (imap_ext _ (λ i (b : bool), if b then [S k + i] else [])).
  2:{ intros i y _. simpl. by replace (k + S i) with (S (k + i)) by lia. }
  specialize (IH (S k)). destruct b; cbn [length]; lia.
Qed.

Lemma np_where_length (l : list bool) : length (np_where l) ≤ length l.
Proof. apply (np_where_length_gen l 0). Qed.

Lemma length_filter_fmap {A B} (f : A → B) (P : B → Prop) `{!∀ x, Decision (P x)}
    (l : list A) :
  length (filter P (f <$> l)) = length (filter (λ x, P (f x)) l).
Proof.
  induction l as [|x l IH]; [done|]. csimpl. rewrite !filter_cons.
  destruct (decide (P (f x))); simpl; by rewrite IH.
Qed.

Lemma length_filter_all {A} (P : A → Prop) `{!∀ x, Decision (P x)} (l : list A) :
  Forall P l → length (filter P l) = length l.
Proof.
  induction 1 as [|x l Hx _ IH]; [done|]. rewrite filter_cons_True by done.
  simpl. by rewrite IH.
Qed.

(** The row indices of [np.where] on a matrix: ascending, and row [j] as often
    as it holds [True]. *)
Lemma np_where2_rows_gen (m : list (list bool)) (k : nat) :
  let w := (imap (λ r row, (λ c, (k + r, c)) <$> np_where row) m) ≫= id in
  StronglySorted le (w.*1) ∧ Forall (λ p, k ≤ p.1) w ∧
  ∀ j, length (filter (λ p, p.1 = k + j) w) = length (np_where (default [] (m !! j))).
Proof.
  revert k. induction m as [|row m IH]; intros k.
  { cbn. split_and!; [constructor|constructor|by intros []]. }
  cbn zeta. csimpl.
  rewrite (imap_ext _ (λ r row, (λ c, (S k + r, c)) <$> np_where row)).
  2:{ intros i y _. simpl. by replace (k + S i) with (S (k + i)) by lia. }
  destruct (IH (S k)) as (Hs & Hge & Hcnt). cbn zeta in Hs, Hge, Hcnt.
  set (w := imap _ m ≫= id) in *.
  assert (Hrow : ∀ p, p ∈ ((λ c, (k + 0, c)) <$> np_where row) → p.1 = k).
  { intros p (c & -> & _)%list_elem_of_fmap. simpl. lia. }
  split_and!.
  - rewrite fmap_app. apply StronglySorted_app_2; [| |done].
    + intros x1 x2 (p1 & -> & H1)%list_elem_of_fmap (p2 & -> & H2)%list_elem_of_fmap.
      apply Hrow in H1. eapply Forall_forall in Hge; [|exact H2]. lia.
    + rewrite <- list_fmap_compose. clear Hrow.
      induction (np_where row) as [|c cs IHc]; [constructor|].
      csimpl. constructor; [exact IHc|]. apply Forall_forall.
      intros x (c' & -> & _)%list_elem_of_fmap. simpl. lia.
  - apply Forall_app. split.
    + apply Forall_forall. intros p Hp. apply Hrow in Hp. lia.
    + eapply Forall_impl; [exact Hge|]. simpl. intros; lia.
  - intros j. rewrite filter_app, length_app. destruct j as [|j].
    + simpl. rewrite (proj2 (length_zero_iff_nil (filter _ w))).
      2:{ apply elem_of_nil_inv. intros p [Hp Hin]%list_elem_of_filter.
          eapply Forall_forall in Hge; [|exact Hin]. lia. }
      rewrite Nat.add_0_r. rewrite length_filter_fmap.
      apply length_filter_all. apply Forall_forall. intros c _. simpl. lia.
    + simpl. replace (k + S j) with (S k + j) by lia. rewrite Hcnt.
      rewrite (proj2 (length_zero_iff_nil (filter _ (_ <$> _)))); [done|].
      apply elem_of_nil_inv. intros p [Hp Hin]%list_elem_of_filter.
      apply Hrow in Hin. lia.
Qed.

Lemma match_values_rows (a b : list float) (eps : Q) (res : list (nat * nat)) :
  match_values a b eps = Ok res →
  StronglySorted le (res.*2) ∧ ∀ j, length (filter (λ p, p.2 = j) res) ≤ 2.
Proof.
  intros Hm. destruct (decide (a = [])) as [->|Ha].
  { destruct b; [|done]. injection Hm as <-. split; [constructor|]. intros j. cbn. lia. }
  rewrite match_values_eq in Hm by done. injection Hm as <-.
  set (m := (λ bj, _) <$> b).
  destruct (np_where2_rows_gen m 0) as (Hs & _ & Hcnt). cbn zeta in Hs, Hcnt.
  fold (np_where2 m) in Hs, Hcnt. split.
  - rewrite <- list_fmap_compose.
    erewrite (list_fmap_ext _ fst); [exact Hs|]. by intros _ [r c] _.
  - intros j. rewrite length_filter_fmap.
    erewrite (list_filter_iff _ (λ p, p.1 = 0 + j)); [|by intros [r c]].
    rewrite Hcnt. etrans; [apply np_where_length|].
    unfold m. rewrite list_lookup_fmap. destruct (b !! j) as [bj|]; simpl; [|lia].
    lia.
Qed.



(** X2: the shape of the result of [match_values]. The pairs are listed in
    the order of the query positions, and a query position is in at most two
    pairs (one for each of its two candidates). *)
Theorem match_values_two_per_query (A B : list float) (eps : Q) (res : list (nat * nat)) :
  match_values A B eps = Ok res →
  StronglySorted le (res.*2) ∧ ∀ j, length (filter (λ p, p.2 = j) res) ≤ 2.
Proof. apply match_values_rows. Qed.

Lemma match_values_two_per_query_witness :
  StronglySorted le ([(1, 0); (0, 0); (2, 1); (1, 1)].*2) ∧
  ∀ j, length (filter (λ p, p.2 = j) [(1, 0); (0, 0); (2, 1); (1, 1)]) ≤ 2.
Proof.
  apply (match_values_two_per_query [num 1; num 2; num 3] [Num (3 # 2); Num (5 # 2)] 1).
  reflexivity.
Defined.

Lemma fmap_imap_bind {A B C} (g : B → C) (F : nat → A → list B) (l : list A) :
  g <$> (imap F l ≫= id) = imap (λ i x, g <$> F i x) l ≫= id.
Proof.
  revert F. induction l as [|x l IH]; intros F; [done|]. csimpl.
  rewrite fmap_app. f_equal. apply IH.
Qed.

Lemma candidates_single (x bj : float) : candidates [x] bj = [0; 0].
Proof.
  unfold candidates, neighbours. cbn [length]. cbv zeta.
  replace (1 - 1) with 0 by lia. rewrite Nat.min_0_r. done.
Qed.

(** X3: with a reference array of one entry both candidates of a query are
    that entry (the index -1 reads it again), so every query within the
    tolerance is reported twice, with the same pair. *)
Theorem match_values_single_reference (x : float) (B : list float) (eps : Q) :
  match_values [x] B eps =
    Ok ((imap (λ j bj, if close eps x bj then [(0, j); (0, j)] else []) B) ≫= id).
Proof.
  rewrite match_values_eq by done. f_equal. unfold np_where2.
  rewrite imap_fmap. rewrite fmap_imap_bind. f_equal. apply imap_ext.
  intros j bj Hb. cbn [compose]. rewrite candidates_single.
  rewrite <- list_fmap_compose.
  assert (Hx : sorted_of [x] !!! 0 = x) by done.
  cbn [fmap list_fmap]. rewrite Hx.
  destruct (close eps x bj); [|done].
  change (np_where [true; true]) with [0; 1].
  cbn [fmap list_fmap compose fst snd]. by rewrite !candidates_single.
Qed.

(** X4: below the first entry the candidates wrap around. A query value whose
    insertion point is 0 (it is below every entry of [A]) is compared with
    the smallest entry of [A] and, through the index -1, with the entry that
    is last in sorted order: the pairs returned for it are exactly those
    with one of these two entries within the tolerance. *)
Theorem match_values_wraps_below (A B : list float) (eps : Q) (res : list (nat * nat))
    (j : nat) (bj : float) :
  match_values A B eps = Ok res → B !! j = Some bj →
  searchsorted_right (sorted_of A) bj = 0 →
  ∀ i, (i, j) ∈ res ↔
       ∃ k x, (k = 0 ∨ k = length A - 1) ∧ sorted_of A !! k = Some x ∧
              argsort A !! k = Some i ∧ close eps x bj = true.
Proof.
  intros Hm Hb Hss i. destruct (decide (A = [])) as [->|Hne].
  { destruct B; [done|done]. }
  rewrite (match_values_elem A B eps res Hne Hm).
  assert (Hc : ∀ k, k ∈ candidates A bj ↔ k = 0 ∨ k = length A - 1).
  { intros k. unfold candidates, neighbours. cbv zeta. rewrite Hss. cbn [Nat.min].
    rewrite decide_True by done. rewrite !elem_of_cons, elem_of_nil. tauto. }
  split.
  - intros (bj' & k & x & Hb' & Hk & Hp & Hcl). rewrite Hb in Hb'. injection Hb' as <-.
    exists k, x. split_and!; [by apply Hc| | |done].
    + unfold sorted_of. by rewrite list_lookup_fmap, Hp.
    + unfold argsort, argsort_by. by rewrite list_lookup_fmap, Hp.
  - intros (k & x & Hk & Hx & Hi & Hcl). exists bj, k, x.
    split_and!; [done|by apply Hc| |done].
    unfold sorted_of in Hx. unfold argsort, argsort_by in Hi.
    rewrite list_lookup_fmap in Hx. rewrite list_lookup_fmap in Hi.
    destruct (sort_pairs fle A !! k) as [[x' i']|]; [|done].
    simpl in Hx, Hi. by simplify_eq.
Qed.

Lemma match_values_wraps_below_witness :
  (2, 0) ∈ [(0, 0); (2, 0)] ↔
  ∃ k x, (k = 0 ∨ k = length [num 1; num 2; num 3] - 1) ∧
         sorted_of [num 1; num 2; num 3] !! k = Some x ∧
         argsort [num 1; num 2; num 3] !! k = Some 2 ∧ close 10 x (Num (1 # 2)) = true.
Proof.
  apply (match_values_wraps_below [num 1; num 2; num 3] [Num (1 # 2)] 10 _ 0 (Num (1 # 2)));
    reflexivity.
Defined.

Lemma match_values_injective (A B : list float) (eps : Q) (res : list (nat * nat)) :
  match_values A B eps = Ok res →
  (separated eps A → ∀ i i' j, (i, j) ∈ res → (i', j) ∈ res → i = i') ∧
  (separated eps B → ∀ i j j', (i, j) ∈ res → (i, j') ∈ res → j = j').
Proof.
  intros Hm. split.
  - intros Hsep i i' j H1 H2. destruct (decide (i = i')) as [|Hne]; [done|]. exfalso.
    destruct (match_values_close _ _ _ _ _ _ Hm H1) as (x & y & Hx & Hy & Hxy).
    destruct (match_values_close _ _ _ _ _ _ Hm H2) as (x' & y' & Hx' & Hy' & Hxy').
    rewrite Hy in Hy'. injection Hy' as <-.
    pose proof (Hsep i i' x x' Hne Hx Hx') as Hs.
    revert Hxy Hxy' Hs. apply Qabs_case; apply Qabs_case; apply Qabs_case; intros; lra.
  - intros Hsep i j j' H1 H2. destruct (decide (j = j')) as [|Hne]; [done|]. exfalso.
    destruct (match_values_close _ _ _ _ _ _ Hm H1) as (x & y & Hx & Hy & Hxy).
    destruct (match_values_close _ _ _ _ _ _ Hm H2) as (x' & y' & Hx' & Hy' & Hxy').
    rewrite Hx in Hx'. injection Hx' as <-.
    pose proof (Hsep j j' y y' Hne Hy Hy') as Hs.
    revert Hxy Hxy' Hs. apply Qabs_case; apply Qabs_case; apply Qabs_case; intros; lra.
Qed.

(** X5: when the entries of [A] are at least twice the tolerance apart, a
    query is matched with at most one entry of [A]; when the entries of [B]
    are, an entry of [A] is matched by at most one query. *)
Theorem match_values_one_to_one (A B : list float) (eps : Q) (res : list (nat * nat)) :
  match_values A B eps = Ok res →
  (separated eps A → ∀ i i' j, (i, j) ∈ res → (i', j) ∈ res → i = i') ∧
  (separated eps B → ∀ i j j', (i, j) ∈ res → (i, j') ∈ res → j = j').
Proof. apply match_values_injective. Qed.

Lemma match_values_one_to_one_witness :
  separated (1 # 100) [num 10; num 30; num 20] ∧
  separated (1 # 100) [Num (20001 # 1000); num 40] ∧
  (∀ i i' j, (i, j) ∈ [(2, 0)] → (i', j) ∈ [(2, 0)] → i = i') ∧
  (∀ i j j', (i, j) ∈ [(2, 0)] → (i, j') ∈ [(2, 0)] → j = j').
Proof.
  assert (H1 : separated (1 # 100) [num 10; num 30; num 20]).
  { intros [|[|[|?]]] [|[|[|?]]] x y Hne; try done; intros [= <-] [= <-]; by vm_compute. }
  assert (H2 : separated (1 # 100) [Num (20001 # 1000); num 40]).
  { intros [|[|?]] [|[|?]] x y Hne; try done; intros [= <-] [= <-]; by vm_compute. }
  pose proof (match_values_one_to_one [num 10; num 30; num 20] [Num (20001 # 1000); num 40]
                (1 # 100) [(2, 0)] eq_refl) as [Ha Hb].
  split_and!; [exact H1|exact H2|exact (Ha H1)|exact (Hb H2)].
Defined.

(** ** merge_arrays: what is kept, twice, and when it raises *)

(** X6: merging loses no value of the tail. With the default replace "A->B",
    a positive tolerance and a tail of numbers, every value of the tail (as
    passed, and as the call leaves the caller's tail array) has an entry of
    the returned array within the tolerance; the head is the prefix of the
    returned array, unchanged. *)
Theorem merge_arrays_keeps_values (head tail : list float) (eps : Q) (m : merged) :
  (0 < eps)%Q → Forall is_num tail →
  merge_arrays head tail "A->B" None eps = Ok m →
  take (length head) (m_out m) = head ∧
  (∀ j y, tail !! j = Some y → ∃ i x, m_out m !! i = Some x ∧ close eps x y = true) ∧
  (∀ j y, m_tail m !! j = Some y → ∃ i x, m_out m !! i = Some x ∧ close eps x y = true).
Proof.
  intros Heps Hnum Hm. split; [|by apply (merge_arrays_covers head)].
  destruct (merge_arrays_shape _ _ _ _ _ _ Hm) as (rest & _ & -> & _ & _).
  destruct (merge_arrays_default _ _ _ _ _ Hm) as [-> _].
  by rewrite take_app_length.
Qed.

Lemma merge_arrays_keeps_values_witness :
  ∃ m, merge_arrays [num 10; num 20; num 30] [Num (20001 # 1000); num 40] "A->B" None (1 # 100)
       = Ok m ∧
  take 3 (m_out m) = [num 10; num 20; num 30] ∧
  (∀ j y, [Num (20001 # 1000); num 40] !! j = Some y →
          ∃ i x, m_out m !! i = Some x ∧ close (1 # 100) x y = true).
Proof.
  eexists. split; [reflexivity|].
  destruct (merge_arrays_keeps_values [num 10; num 20; num 30] [Num (20001 # 1000); num 40]
              (1 # 100) _ eq_refl
              ltac:(repeat constructor; eexists; reflexivity) eq_refl) as (H1 & H2 & _).
  split; [exact H1|exact H2].
Defined.

(** X7: merging is idempotent. With the default replace "A->B", a positive
    tolerance and a tail of numbers, merging the same tail into the returned
    array a second time returns that array again, for the tail as it was
    passed and for the tail array as the first call left it. *)
Theorem merge_arrays_twice (head tail : list float) (eps : Q) (m1 : merged) :
  (0 < eps)%Q → Forall is_num tail →
  merge_arrays head tail "A->B" None eps = Ok m1 →
  (∃ m2, merge_arrays (m_out m1) tail "A->B" None eps = Ok m2 ∧ m_out m2 = m_out m1) ∧
  (∃ m2, merge_arrays (m_out m1) (m_tail m1) "A->B" None eps = Ok m2 ∧ m_out m2 = m_out m1).
Proof. apply merge_arrays_idempotent. Qed.

Lemma merge_arrays_twice_witness :
  ∃ m1 m2,
    merge_arrays [num 10; num 20; num 30] [Num (20001 # 1000); num 40] "A->B" None (1 # 100)
      = Ok m1 ∧
    merge_arrays (m_out m1) [Num (20001 # 1000); num 40] "A->B" None (1 # 100) = Ok m2 ∧
    m_out m2 = m_out m1.
Proof.
  eexists.
  destruct (merge_arrays_twice [num 10; num 20; num 30] [Num (20001 # 1000); num 40]
              (1 # 100) _ eq_refl
              ltac:(repeat constructor; eexists; reflexivity) eq_refl) as [[m2 [H1 H2]] _].
  exists m2. split; [reflexivity|]. split; [exact H1|exact H2].
Defined.

(** X8: when no entry of the head is within the tolerance of an entry of the
    tail, [merge_arrays] with [mapping=None] returns the concatenation of the
    two arrays and writes to neither, whatever [replace] is. *)
Theorem merge_arrays_no_match (head tail : list float) (replace : string) (eps : Q) :
  head ≠ [] ∨ tail = [] →
  (∀ i j x y, head !! i = Some (Num x) → tail !! j = Some (Num y) →
              ¬ (Qabs (x - y) < eps)%Q) →
  merge_arrays head tail replace None eps = Ok (Merged (head ++ tail) [] head tail).
Proof.
  intros Hne Hfar. destruct (match_values_total head tail eps Hne) as [res Hres].
  assert (res = []) as ->.
  { destruct res as [|[i j] res]; [done|]. exfalso.
    destruct (match_values_close _ _ _ _ i j Hres) as (x & y & Hx & Hy & Hxy); [by left|].
    by eapply Hfar. }
  unfold merge_arrays. rewrite Hres. cbn [mbind result_bind length].
  by rewrite decide_False by lia.
Qed.

Lemma merge_arrays_no_match_witness :
  merge_arrays [num 10; num 20] [num 15; num 40] "A->B" None (1 # 100)
  = Ok (Merged [num 10; num 20; num 15; num 40] [] [num 10; num 20] [num 15; num 40]).
Proof.
  apply (merge_arrays_no_match [num 10; num 20] [num 15; num 40] "A->B" (1 # 100)).
  - left. discriminate.
  - intros [|[|?]] [|[|?]] x y; try done; intros [= <-] [= <-]; by vm_compute.
Defined.

(** X9: the length of the merged array: the length of the head plus one
    entry for every position of the tail that is in no pair of the mapping;
    so it is never shorter than the head nor longer than head and tail
    together. *)
Theorem merge_arrays_length (head tail : list float) (replace : string)
    (mapping : option (list (nat * nat))) (eps : Q) (m : merged) :
  merge_arrays head tail replace mapping eps = Ok m →
  length (m_out m) =
    length head + length (filter (λ j, j ∉ (m_mapping m).*2) (seq 0 (length tail))) ∧
  length head ≤ length (m_out m) ≤ length head + length tail.
Proof.
  intros Hm. destruct (merge_arrays_shape _ _ _ _ _ _ Hm) as (rest & Hd & -> & Hh & Ht).
  rewrite length_app, Hh. rewrite (np_delete_length _ _ _ Hd), Ht.
  split; [done|].
  pose proof (length_filter (λ j, j ∉ (m_mapping m).*2) (seq 0 (length tail))) as Hle.
  rewrite length_seq in Hle. lia.
Qed.

Lemma merge_arrays_length_witness :
  length [num 10; num 20; num 30; num 40] =
    length [num 10; num 20; num 30] +
    length (filter (λ j, j ∉ [(1, 0)].*2) (seq 0 (length [Num (20001 # 1000); num 40]))) ∧
  length [num 10; num 20; num 30] ≤ length [num 10; num 20; num 30; num 40]
    ≤ length [num 10; num 20; num 30] + length [Num (20001 # 1000); num 40].
Proof.
  apply (merge_arrays_length [num 10; num 20; num 30] [Num (20001 # 1000); num 40]
           "A->B" None (1 # 100)
           (Merged [num 10; num 20; num 30; num 40] [(1, 0)] [num 10; num 20; num 30]
              [num 20; num 40])).
  reflexivity.
Defined.

(** X10: with [mapping=None], [merge_arrays] raises in one case only: an
    empty head with a non-empty tail, where [match_values] raises IndexError.
    In every other case it returns, whatever [replace] and the tolerance
    are. *)
Theorem merge_arrays_raises (head tail : list float) (replace : string) (eps : Q) (e : exn) :
  merge_arrays head tail replace None eps = Raise e ↔
  head = [] ∧ tail ≠ [] ∧ e = IndexError.
Proof.
  split.
  2:{ intros (-> & Ht & ->). destruct tail as [|y tail]; [done|]. reflexivity. }
  intros Hr. destruct (decide (head = [] ∧ tail ≠ [])) as [[-> Ht]|Hok].
  { destruct tail as [|y tail]; [done|]. cbn in Hr. by injection Hr as <-. }
  exfalso. assert (Hne : head ≠ [] ∨ tail = []).
  { destruct head; [right|left; done]. destruct tail; [done|]. by destruct Hok. }
  destruct (match_values_total head tail eps Hne) as [res Hres].
  assert (H1 : Forall (λ i, i < length head) res.*1).
  { apply Forall_forall. intros i ([i' j] & -> & Hin)%list_elem_of_fmap.
    destruct (match_values_close _ _ _ _ _ _ Hres Hin) as (x & y & Hx & _).
    by eapply lookup_lt_Some. }
  assert (H2 : Forall (λ j, j < length tail) res.*2).
  { apply Forall_forall. intros j ([i j'] & -> & Hin)%list_elem_of_fmap.
    destruct (match_values_close _ _ _ _ _ _ Hres Hin) as (x & y & _ & Hy & _).
    by eapply lookup_lt_Some. }
  revert Hr. unfold merge_arrays. rewrite Hres. cbn [mbind result_bind].
  case_decide; [|done]. destruct (String.eqb replace "B->A").
  - rewrite (take_idx_total tail) by done. cbn [mbind result_bind].
    destruct (put_total head res.*1 ((tail !!!.) <$> res.*2)) as [h' Hh']; [|done|].
    { by rewrite !length_fmap. }
    rewrite Hh'. cbn [mbind result_bind mret result_ret].
    destruct (np_delete_total tail res.*2 H2) as [rest ->]. done.
  - rewrite (take_idx_total head) by done. cbn [mbind result_bind].
    destruct (put_total tail res.*2 ((head !!!.) <$> res.*1)) as [t' Ht']; [|done|].
    { by rewrite !length_fmap. }
    rewrite Ht'. cbn [mbind result_bind mret result_ret].
    destruct (np_delete_total t' res.*2) as [rest ->]; [|done].
    destruct (put_spec _ _ _ _ Ht') as (-> & _). done.
Qed.

(** ** add_vertices and the first log batch *)


(** X11: [add_vertices] appends. The vertices present before the call keep
    their rows, the returned indices are those of the new rows, in order:
    reading the vertex array at the returned indices gives back the points
    that were added. Nothing else of the drillhole changes. *)
Theorem add_vertices_lookup (xyz : list point) (s : Drillhole) :
  ∃ idx s', add_vertices xyz s = (s', Ok idx) ∧
    vertices s' = Some (default [] (vertices s) ++ xyz) ∧
    take_idx (default [] (vertices s')) idx = Ok xyz ∧
    nv s' = nv s + length xyz ∧
    cells s' = cells s ∧ children s' = children s.
Proof.
  rewrite add_vertices_run. eexists _, _. split; [reflexivity|].
  cbn [vertices set_vertices cells children default]. unfold id.
  split_and!; [done| | |done..].
  2:{ unfold nv, n_vertices. cbn [vertices set_vertices fmap option_fmap option_map default].
      unfold id. rewrite length_app. by destruct (vertices s). }
  set (v := default [] (vertices s)).
  rewrite take_idx_total.
  2:{ apply Forall_forall. intros i Hi%elem_of_seq. rewrite length_app. lia. }
  f_equal. apply list_eq. intros k. rewrite list_lookup_fmap.
  destruct (decide (k < length xyz)) as [Hk|Hk].
  - rewrite lookup_seq_lt by done. cbn.
    rewrite list_lookup_total_alt. rewrite lookup_app_r by lia.
    match goal with |- context [xyz !! ?e] => replace e with k by lia end.
    destruct (lookup_lt_is_Some_2 _ _ Hk) as [x Hx]. by rewrite Hx.
  - rewrite lookup_seq_ge by lia. cbn. symmetry. apply lookup_ge_None. lia.
Qed.

Section first_log_batch.
Variable desurvey_at : point → list (float * float * float) → float → point.


(** X13: a log batch on a drillhole without surveys or without collar. The
  DEPTH data entity is created before [desurvey] checks for them, so the
  call raises the AssertionError of [desurvey] and leaves the drillhole
  with a new DEPTH entity that has no values; nothing else changes. *)
Theorem add_data_log_without_survey (nm : string) (depth vals : list float) (s : Drillhole) :
get_data "DEPTH" s = [] → length depth = length vals →
surveys s = None ∨ collar s = None →
add_data desurvey_at [(nm, log_batch depth vals None)] s =
  (set_children (children s ++ [mkData "DEPTH" VERTEX None]) s,
   Raise (AssertionError
            "'surveys' and 'collar' attributes required for desurvey operation")).
Proof.
intros Hnone Hlen Hsv.
unfold add_data, add_entries, add_entry, log_batch, validate_log_data. unfold_M.
cbn [a_values a_depth a_from_to a_collocation_distance].
rewrite bool_decide_true by done. cbv beta iota.
rewrite decide_True by done. cbv beta iota.
rewrite get_data_app, Hnone. cbn [filter list_filter app head values].
rewrite decide_True by done. cbn [head values].
rewrite desurvey_run. cbn [surveys collar set_children].
destruct Hsv as [-> | ->]; [done|]. by destruct (surveys s).
Qed.

End first_log_batch.


Lemma add_data_log_without_survey_witness :
  add_data vertical [("Au"%string, log_batch [num 10] [num 1] None)]
    (mkDrillhole (Some (num 0, num 0, num 0)) None None None [] (1 # 100)) =
    (mkDrillhole (Some (num 0, num 0, num 0)) None None None [mkData "DEPTH" VERTEX None]
       (1 # 100),
     Raise (AssertionError
              "'surveys' and 'collar' attributes required for desurvey operation")).
Proof.
  apply (add_data_log_without_survey vertical "Au" [num 10] [num 1]
           (mkDrillhole (Some (num 0, num 0, num 0)) None None None [] (1 # 100)));
    [reflexivity|reflexivity|by left].
Defined.

(** ** Where log ingestion puts the values *)



Section log_values.
Variable desurvey_at : point → list (float * float * float) → float → point.



End log_values.



(** ** sort_depths once more, and ingestion once more *)

Lemma unsorted_hole_invariant : log_invariant false unsorted_hole.
Proof.
  split.
  - intros c Hin Hv. cbn [children unsorted_hole] in Hin.
    rewrite !elem_of_cons, elem_of_nil in Hin.
    destruct Hin as [->|[->|[->|[]]]]; try discriminate Hv;
      eexists; (split; [reflexivity|]); vm_compute; lia.
  - cbn. split; [done|]. eexists. split_and!; [reflexivity|reflexivity| |done].
    repeat constructor; by eexists.
  - intros cs c [= <-] Hin. rewrite !elem_of_cons, elem_of_nil in Hin.
    destruct Hin as [->|[->|[]]]; vm_compute; lia.
Qed.

(** X16: a second pass of [sort_depths] changes nothing. On a drillhole as
    log ingestion leaves it (per-vertex arrays no longer than the vertices,
    DEPTH with one number for each vertex, cells within the vertices) the
    pass returns, and running it again on the result returns the same
    drillhole. *)
Theorem sort_depths_idempotent (s : Drillhole) :
  log_invariant false s →
  ∃ s', sort_depths s = (s', Ok ()) ∧ sort_depths s' = (s', Ok ()).
Proof.
  intros Hinv. destruct (sort_depths_keeps s Hinv) as (s' & Hrun & Hinv' & _).
  exists s'. split; [done|].
  pose proof (inv_depth _ _ Hinv') as Hd.
  destruct (head (get_data "DEPTH" s')) as [d|] eqn:Ed.
  - destruct Hd as (Ha & v & Hv & Hl & _ & Hs).
    eapply sort_depths_sorted; [exact Ed| |by apply Hs].
    by apply (data_values_depth true).
  - unfold sort_depths. unfold_M. by destruct (get_data "DEPTH" s').
Qed.

Lemma sort_depths_idempotent_witness :
  ∃ s', sort_depths unsorted_hole = (s', Ok ()) ∧ sort_depths s' = (s', Ok ()).
Proof. apply (sort_depths_idempotent unsorted_hole). apply unsorted_hole_invariant. Defined.

Section once_more.
Variable desurvey_at : point → list (float * float * float) → float → point.

(** X17: ingesting the depths of a log batch a second time adds nothing to
  the geometry. On a sorted drillhole with a positive default collocation
  distance, after a log batch of numbers has been ingested, a second call
  with the same depths and the same collocation distance (under any name,
  with any values of the right length) returns, adds no vertex and leaves
  the cells as they are. *)
Theorem log_reingestion_adds_nothing (nm nm' : string) (depth vals vals' : list float)
  (cd : option float) (s s1 : Drillhole) (ks : list nat) :
log_invariant true s → Forall is_num depth →
(0 < default_collocation_distance s)%Q → length vals' = length depth →
add_data desurvey_at [(nm, log_batch depth vals cd)] s = (s1, Ok ks) →
∃ s2 ks',
  add_data desurvey_at [(nm', log_batch depth vals' cd)] s1 = (s2, Ok ks') ∧
  vertices s2 = vertices s1 ∧ cells s2 = cells s1.
Proof. apply log_reingestion. Qed.
End once_more.

Lemma log_reingestion_adds_nothing_witness :
  ∃ s1 ks s2 ks',
    add_data vertical [("Cu"%string, log_batch [num 30; num 5] [num 7; num 8] None)]
      two_sample_hole = (s1, Ok ks) ∧
    add_data vertical [("Zn"%string, log_batch [num 30; num 5] [num 1; num 2] None)] s1
      = (s2, Ok ks') ∧
    vertices s2 = vertices s1 ∧ cells s2 = cells s1.
Proof.
  eexists _, _.
  destruct (log_reingestion_adds_nothing vertical "Cu" "Zn" [num 30; num 5] [num 7; num 8]
              [num 1; num 2] None two_sample_hole _ _ two_sample_hole_invariant
              ltac:(repeat constructor; eexists; reflexivity) eq_refl eq_refl
              ltac:(vm_compute; reflexivity))
    as (s2 & ks' & H1 & H2 & H3).
  exists s2, ks'. split; [vm_compute; reflexivity|]. split_and!; [exact H1|exact H2|exact H3].
Defined.

(** ** What ingestion leaves alone *)

Section preserves.
Context (R : relation Drillhole) `{!Reflexive R, !Transitive R}.

Lemma preserves_ret {A} (a : A) : preserves R (mret a).
Proof. intros s. reflexivity. Qed.

Lemma preserves_bind {A B} (m : M A) (f : A → M B) :
preserves R m → (∀ a, preserves R (f a)) → preserves R (m ≫= f).
Proof.
intros Hm Hf s. unfold mbind, M_bind. specialize (Hm s).
destruct (m s) as [s1 [a|e]]; [|done]. cbn [fst] in Hm.
etrans; [exact Hm|apply Hf].
Qed.

Lemma preserves_lift {A} (r : result A) : preserves R (lift r).
Proof. intros s. reflexivity. Qed.

Lemma preserves_get : preserves R get.
Proof. intros s. reflexivity. Qed.

Lemma preserves_raise {A} (e : exn) : preserves R (@raise A e).
Proof. intros s. reflexivity. Qed.

Lemma preserves_assert (b : bool) (msg : string) : preserves R (assert_ b msg).
Proof. destruct b; [apply preserves_ret|apply preserves_raise]. Qed.

Lemma preserves_finalize : preserves R finalize.
Proof. apply preserves_ret. Qed.

Lemma preserves_modify (f : Drillhole → Drillhole) :
(∀ s, R s (f s)) → preserves R (modify f).
Proof. intros Hf s. apply Hf. Qed.
End preserves.

Ltac preserves_step :=
  first [ apply preserves_bind; [apply _| |intros ?]
        | apply preserves_ret; apply _ | apply preserves_get; apply _
        | apply preserves_lift; apply _ | apply preserves_raise; apply _
        | apply preserves_assert; apply _ | apply preserves_finalize; apply _
        | progress case_match ].

#[global] Instance same_survey_refl : Reflexive same_survey.
Proof. intros s. repeat split. Qed.
#[global] Instance same_survey_trans : Transitive same_survey.
Proof. intros s1 s2 s3 (? & ? & ?) (? & ? & ?). unfold same_survey. split_and!; congruence. Qed.
#[global] Instance children_extended_refl : Reflexive children_extended.
Proof. intros s. unfold children_extended. done. Qed.
#[global] Instance children_extended_trans : Transitive children_extended.
Proof. intros s1 s2 s3 ? ?. unfold children_extended in *. by etrans. Qed.
#[global] Instance vertices_extended_refl : Reflexive vertices_extended.
Proof. intros s. unfold vertices_extended. done. Qed.
#[global] Instance vertices_extended_trans : Transitive vertices_extended.
Proof. intros s1 s2 s3 ? ?. unfold vertices_extended in *. by etrans. Qed.

Section ingestion_preserves.
Variable desurvey_at : point → list (float * float * float) → float → point.
Context (R : relation Drillhole) `{!Reflexive R, !Transitive R}.
Hypothesis R_add_vertices : ∀ xyz, preserves R (add_vertices xyz).
Hypothesis R_set_cells : ∀ c, preserves R (modify (set_cells c)).
Hypothesis R_create_entity : ∀ d, preserves R (create_entity d).
Hypothesis R_set_data_values : ∀ nm v, preserves R (set_data_values nm v).

Ltac ingestion_step :=
first [ apply R_add_vertices | apply R_set_cells | apply R_create_entity
      | apply R_set_data_values | preserves_step ].

Lemma preserves_desurvey (depths : list float) : preserves R (desurvey desurvey_at depths).
Proof using Type*. unfold desurvey. repeat preserves_step. Qed.

Lemma preserves_validate_log_data (depth vals : list float) (eps : Q) :
preserves R (validate_log_data desurvey_at depth vals eps).
Proof using Type*.
unfold validate_log_data.
repeat first [apply preserves_desurvey | ingestion_step].
Qed.

Lemma preserves_validate_interval_data (ft : from_to_arg) (vals : list float) (eps : Q) :
preserves R (validate_interval_data desurvey_at ft vals eps).
Proof using Type*.
unfold validate_interval_data.
repeat first [apply preserves_desurvey | ingestion_step].
Qed.

Lemma preserves_add_entry (nm : string) (a : attr) :
preserves R (add_entry desurvey_at nm a).
Proof using Type*.
unfold add_entry.
repeat first [apply preserves_validate_log_data | apply preserves_validate_interval_data
             | ingestion_step].
Qed.

Lemma preserves_add_entries (data : list (string * attr)) :
preserves R (add_entries desurvey_at data).
Proof using Type*.
induction data as [|[nm a] data IH]; [preserves_step|]. cbn [add_entries].
preserves_step; [apply preserves_add_entry|].
preserves_step; [exact IH|]. preserves_step.
Qed.
End ingestion_preserves.

Section add_data_preserves.
Variable desurvey_at : point → list (float * float * float) → float → point.
Context (R : relation Drillhole) `{!Reflexive R, !Transitive R}.
Hypothesis R_add_vertices : ∀ xyz, preserves R (add_vertices xyz).
Hypothesis R_set_cells : ∀ c, preserves R (modify (set_cells c)).
Hypothesis R_create_entity : ∀ d, preserves R (create_entity d).
Hypothesis R_set_data_values : ∀ nm v, preserves R (set_data_values nm v).
Hypothesis R_set_vertices : ∀ v, preserves R (modify (set_vertices v)).
Hypothesis R_sort_children : ∀ s σ,
preserves R (λ s', let '(ch, res) := sort_children s σ (children s') in
                   (set_children ch s', res)).

Lemma preserves_sort_depths : preserves R sort_depths.
Proof using Type*.
unfold sort_depths.
repeat first [apply R_sort_children | apply R_set_vertices | apply R_set_cells
             | preserves_step].
Qed.

Lemma preserves_add_data (data : list (string * attr)) :
preserves R (add_data desurvey_at data).
Proof using Type*.
unfold add_data.
repeat first [by apply preserves_add_entries | apply preserves_sort_depths
             | preserves_step].
Qed.
End add_data_preserves.

Lemma add_vertices_fst (xyz : list point) (s : Drillhole) :
  (add_vertices xyz s).1 = set_vertices (default [] (vertices s) ++ xyz) s.
Proof. by rewrite add_vertices_run. Qed.

Lemma set_first_values_key (nm : string) (v : list float) (ch : list Data) :
  key <$> set_first_values nm v ch = key <$> ch.
Proof.
  induction ch as [|d ch IH]; [done|]. cbn [set_first_values].
  case_decide; [done|]. csimpl. by rewrite IH.
Qed.

Lemma sort_children_key (s : Drillhole) (σ : list nat) (ch : list Data) :
  key <$> (sort_children s σ ch).1 = key <$> ch.
Proof.
  induction ch as [|d ch IH]; [done|]. cbn [sort_children].
  case_decide.
  - destruct (check_vector_length s d (values d)) as [v|]; [|done].
    destruct (take_idx v σ) as [v'|]; [|done].
    destruct (sort_children s σ ch) as [r res]. csimpl in *. by rewrite IH.
  - destruct (sort_children s σ ch) as [r res]. csimpl in *. by rewrite IH.
Qed.

Section what_add_data_keeps.
Variable desurvey_at : point → list (float * float * float) → float → point.

Lemma add_data_same_survey (data : list (string * attr)) (s : Drillhole) :
let s' := (add_data desurvey_at data s).1 in
collar s' = collar s ∧ surveys s' = surveys s ∧
default_collocation_distance s' = default_collocation_distance s.
Proof.
apply (preserves_add_data desurvey_at same_survey).
- intros xyz s0. by rewrite add_vertices_fst.
- by intros c s0.
- by intros d s0.
- by intros nm v s0.
- by intros v s0.
- intros s0 σ s1. by destruct (sort_children s0 σ (children s1)).
Qed.

(** X18: [add_data] never touches the collar, the surveys or the default
  collocation distance of the drillhole, whether it returns or raises: the
  geometry that [desurvey] reads is the same for every batch. *)
Theorem add_data_keeps_survey (data : list (string * attr)) (s : Drillhole) :
let s' := (add_data desurvey_at data s).1 in
collar s' = collar s ∧ surveys s' = surveys s ∧
default_collocation_distance s' = default_collocation_distance s.
Proof. apply add_data_same_survey. Qed.

(** X19: [add_data] removes and renames no data entity, whether it returns
  or raises: the names and associations of the children before the call
  are, in the same order, the first ones after the call. *)
Theorem add_data_keeps_children (data : list (string * attr)) (s : Drillhole) :
(key <$> children s) `prefix_of` (key <$> children (add_data desurvey_at data s).1).
Proof.
apply (preserves_add_data desurvey_at children_extended).
- intros xyz s0. rewrite add_vertices_fst. unfold children_extended. done.
- intros c s0. unfold children_extended. done.
- intros d s0. unfold children_extended. cbn. rewrite fmap_app. by apply prefix_app_r.
- intros nm v s0. unfold children_extended. cbn. by rewrite set_first_values_key.
- intros v s0. unfold children_extended. done.
- intros s0 σ s1. unfold children_extended.
  pose proof (sort_children_key s0 σ (children s1)) as Hk.
  destruct (sort_children s0 σ (children s1)) as [r res]. cbn in *. by rewrite Hk.
Qed.

(** X20: validation only appends vertices. Whether they return or raise,
  [validate_log_data] and [validate_interval_data] leave the vertices that
  were there before the call in their rows; new vertices come after them.
  (Only [sort_depths] moves vertices.) *)
Theorem validation_appends_vertices (s : Drillhole) (eps : Q) (vals : list float) :
(∀ depth, default [] (vertices s) `prefix_of`
          default [] (vertices (validate_log_data desurvey_at depth vals eps s).1)) ∧
(∀ from_to, default [] (vertices s) `prefix_of`
            default [] (vertices (validate_interval_data desurvey_at from_to vals eps s).1)).
Proof.
assert (H1 : ∀ xyz, preserves vertices_extended (add_vertices xyz)).
{ intros xyz s0. rewrite add_vertices_fst. unfold vertices_extended. cbn.
  by apply prefix_app_r. }
assert (H2 : ∀ c, preserves vertices_extended (modify (set_cells c))).
{ intros c s0. unfold vertices_extended. done. }
assert (H3 : ∀ d, preserves vertices_extended (create_entity d)).
{ intros d s0. unfold vertices_extended. done. }
assert (H4 : ∀ nm v, preserves vertices_extended (set_data_values nm v)).
{ intros nm v s0. unfold vertices_extended. done. }
split.
- intros depth. by apply (preserves_validate_log_data desurvey_at vertices_extended).
- intros ft. by apply (preserves_validate_interval_data desurvey_at vertices_extended).
Qed.
End what_add_data_keeps.

(** ** The data entities add_data returns *)

Lemma children_extended_steps :
  (∀ xyz, preserves children_extended (add_vertices xyz)) ∧
  (∀ c, preserves children_extended (modify (set_cells c))) ∧
  (∀ d, preserves children_extended (create_entity d)) ∧
  (∀ nm v, preserves children_extended (set_data_values nm v)) ∧
  (∀ v, preserves children_extended (modify (set_vertices v))) ∧
  (∀ s σ, preserves children_extended
            (λ s', let '(ch, res) := sort_children s σ (children s') in
                   (set_children ch s', res))).
Proof.
  split_and!.
  - intros xyz s0. rewrite add_vertices_fst. unfold children_extended. done.
  - intros c s0. unfold children_extended. done.
  - intros d s0. unfold children_extended. cbn. rewrite fmap_app. by apply prefix_app_r.
  - intros nm v s0. unfold children_extended. cbn. by rewrite set_first_values_key.
  - intros v s0. unfold children_extended. done.
  - intros s0 σ s1. unfold children_extended.
    pose proof (sort_children_key s0 σ (children s1)) as Hk.
    destruct (sort_children s0 σ (children s1)) as [r res]. cbn in *. by rewrite Hk.
Qed.

Lemma children_extended_lookup (s s' : Drillhole) (k : nat) (x : string * Association) :
  children_extended s s' → (key <$> children s) !! k = Some x →
  (key <$> children s') !! k = Some x.
Proof. intros Hp Hk. by eapply prefix_lookup_Some. Qed.

Section returned_children.
Variable desurvey_at : point → list (float * float * float) → float → point.

Lemma add_entry_child (nm : string) (a : attr) (s s1 : Drillhole) (k : nat) :
add_entry desurvey_at nm a s = (s1, Ok k) →
(key <$> children s1) !! k = Some (nm, kind a).
Proof.
assert (Hnew : ∀ s2 assoc vals,
          (key <$> children
             (set_children (children s2 ++ [mkData nm assoc (Some vals)]) s2))
            !! length (children s2) = Some (nm, assoc)).
{ intros s2 assoc vals. cbn [children set_children]. rewrite list_lookup_fmap.
  by rewrite lookup_app_r, Nat.sub_diag by lia. }
unfold add_entry, kind. destruct (a_values a) as [vals|]; [|done]. unfold_M.
destruct (a_collocation_distance a) as [[|q]|]; [done| |].
- destruct (Qltb 0 q); [|done]. cbv beta iota.
  destruct (a_depth a) as [depth|].
  + destruct (validate_log_data _ _ _ _ _) as [s2 [r|e]]; [|done].
    intros [= <- <-]. apply Hnew.
  + destruct (a_from_to a) as [ft|].
    * destruct (validate_interval_data _ _ _ _ _) as [s2 [r|e]]; [|done].
      intros [= <- <-]. apply Hnew.
    * destruct (a_association a) as [assoc|]; [|done].
      destruct (String.eqb assoc "OBJECT"); [|done]. intros [= <- <-]. apply Hnew.
- cbv beta iota. destruct (a_depth a) as [depth|].
  + destruct (validate_log_data _ _ _ _ _) as [s2 [r|e]]; [|done].
    intros [= <- <-]. apply Hnew.
  + destruct (a_from_to a) as [ft|].
    * destruct (validate_interval_data _ _ _ _ _) as [s2 [r|e]]; [|done].
      intros [= <- <-]. apply Hnew.
    * destruct (a_association a) as [assoc|]; [|done].
      destruct (String.eqb assoc "OBJECT"); [|done]. intros [= <- <-]. apply Hnew.
Qed.

Lemma add_entries_children (data : list (string * attr)) (s s1 : Drillhole) (ks : list nat) :
add_entries desurvey_at data s = (s1, Ok ks) →
Forall2 (λ e k, (key <$> children s1) !! k = Some (e.1, kind e.2)) data ks.
Proof.
destruct children_extended_steps as (H1 & H2 & H3 & H4 & _).
revert s ks. induction data as [|[nm a] data IH]; intros s ks.
{ intros [= <- <-]. constructor. }
cbn [add_entries]. unfold mbind at 1, M_bind at 1.
destruct (add_entry desurvey_at nm a s) as [sa [k|e]] eqn:Ea; [|done].
unfold mbind at 1, M_bind at 1.
destruct (add_entries desurvey_at data sa) as [sb [ks'|e]] eqn:Eb; [|done].
intros [= <- <-]. constructor; [|by eapply IH].
eapply children_extended_lookup; [|by eapply add_entry_child].
pose proof (preserves_add_entries desurvey_at children_extended H1 H2 H3 H4 data sa) as Hp.
by rewrite Eb in Hp.
Qed.

(** X21: [add_data] returns the data entities it created, one for each entry
  of the dictionary and in the order of the dictionary: the entity for an
  entry carries the entry's name, and the association VERTEX when the entry
  has a depth, CELL when it has a from-to and no depth, OBJECT otherwise.
  (The source returns the entity itself, not a list, when the dictionary
  has one entry; entities are given here as positions among the
  children.) *)
Theorem add_data_returns_children (data : list (string * attr)) (s s' : Drillhole)
  (ks : list nat) :
add_data desurvey_at data s = (s', Ok ks) →
Forall2 (λ e k, ∃ d, children s' !! k = Some d ∧ name d = e.1 ∧ association d = kind e.2)
  data ks.
Proof.
destruct children_extended_steps as (H1 & H2 & H3 & H4 & H5 & H6).
unfold add_data. unfold mbind at 1, M_bind at 1.
destruct (add_entries desurvey_at data s) as [s1 [ks1|e]] eqn:E1; [|done].
unfold mbind at 1, M_bind at 1.
pose proof (preserves_sort_depths children_extended H1 H2 H3 H4 H5 H6 s1) as Hs.
destruct (sort_depths s1) as [s2 [[]|e]]; [|done]. unfold_M. intros [= <- <-].
pose proof (add_entries_children _ _ _ _ E1) as HF.
eapply Forall2_impl; [exact HF|]. intros [nm a] k Hk. cbn [fst snd] in *.
eapply children_extended_lookup in Hk; [|exact Hs].
rewrite list_lookup_fmap in Hk. destruct (children s2 !! k) as [d|]; [|done].
injection Hk as Hn Ha. by exists d.
Qed.
End returned_children.

Lemma add_data_returns_children_witness :
  ∃ s' ks,
    add_data vertical
      [("Zn"%string, log_batch [Num (20001 # 1000); num 15] [num 3; num 4] None);
       ("Pb"%string, interval_batch [[num 0; num 10]] [num 9] None)] two_sample_hole
    = (s', Ok ks) ∧
    Forall2 (λ e k, ∃ d, children s' !! k = Some d ∧ name d = e.1 ∧ association d = kind e.2)
      [("Zn"%string, log_batch [Num (20001 # 1000); num 15] [num 3; num 4] None);
       ("Pb"%string, interval_batch [[num 0; num 10]] [num 9] None)] ks.
Proof.
  eexists _, _. split; [vm_compute; reflexivity|].
  apply (add_data_returns_children vertical _ two_sample_hole). vm_compute. reflexivity.
Defined.

(** ** The invariant of log ingestion on any drillhole *)



Section hole_invariant.
Variable desurvey_at : point → list (float * float * float) → float → point.







End hole_invariant.







(** ** The first interval batch *)

Lemma feq_refl (x : float) : feq x x = true.
Proof. destruct x as [|q]; [done|]. cbn. apply Qeq_bool_iff. reflexivity. Qed.

Lemma feq_compat (x x' y : float) : feq x x' = true → feq x y = feq x' y.
Proof.
  destruct x as [|a], x' as [|b], y as [|c]; cbn; try done.
  intros H%Qeq_bool_iff. destruct (Qeq_bool b c) eqn:E.
  - apply Qeq_bool_iff. apply Qeq_bool_iff in E. by rewrite H.
  - destruct (Qeq_bool a c) eqn:E'; [|done]. apply Qeq_bool_iff in E'.
    assert (Qeq_bool b c = true) by (apply Qeq_bool_iff; by rewrite <- H). congruence.
Qed.

Lemma uniq_repr (l : list float) (x : float) :
  x ∈ l → ∃ y, y ∈ uniq l ∧ feq x y = true.
Proof.
  induction l as [|a l IH]; [by intros ?%elem_of_nil|].
  intros [->|Hin]%elem_of_cons; cbn [uniq].
  - destruct (uniq l) as [|y r]; [exists a; split; [by left|apply feq_refl]|].
    destruct (feq a y) eqn:E; [exists y; split; [by left|done]|].
    exists a. split; [by left|apply feq_refl].
  - destruct (IH Hin) as (y & Hy & Hxy). exists y. split; [|done].
    destruct (uniq l) as [|y0 r]; [by apply elem_of_nil in Hy|].
    destruct (feq a y0); [done|by right].
Qed.

Lemma find_index_spec (x : float) (u : list float) :
  (∃ y, y ∈ u ∧ feq x y = true) →
  ∃ y, u !! find_index x u = Some y ∧ feq x y = true.
Proof.
  induction u as [|a u IH]; [by intros (y & ?%elem_of_nil & _)|].
  intros (y & Hy & Hxy). cbn [find_index]. destruct (feq x a) eqn:E; [by exists a|].
  apply elem_of_cons in Hy as [->|Hy]; [congruence|]. apply IH. eauto.
Qed.

Lemma find_index_compat (x x' : float) (u : list float) :
  feq x x' = true → find_index x u = find_index x' u.
Proof.
  intros H. induction u as [|a u IH]; [done|]. cbn [find_index].
  rewrite (feq_compat x x' a H). by rewrite IH.
Qed.

Lemma np_unique_spec (a : list float) (x : float) :
  x ∈ a →
  ∃ y, (np_unique a).1 !! find_index x (np_unique a).1 = Some y ∧ feq x y = true.
Proof.
  intros Hin. unfold np_unique. cbn [fst]. apply find_index_spec. apply uniq_repr.
  fold (sorted_of a). by rewrite sorted_of_perm.
Qed.

Lemma flatten2_fmap {A B} (f : A → B) (l : list (A * A)) :
  f <$> flatten2 l = flatten2 ((λ p, (f p.1, f p.2)) <$> l).
Proof.
  unfold flatten2. induction l as [|p l IH]; [done|]. csimpl. by rewrite IH.
Qed.

Lemma elem_of_flatten2 {A} (l : list (A * A)) (x : A) :
  x ∈ flatten2 l ↔ ∃ p, p ∈ l ∧ (x = p.1 ∨ x = p.2).
Proof.
  unfold flatten2. rewrite list_elem_of_bind. split.
  - intros (p & Hx & Hp). exists p. split; [done|].
    rewrite !elem_of_cons, elem_of_nil in Hx. tauto.
  - intros (p & Hp & Hx). exists p. split; [|done].
    rewrite !elem_of_cons, elem_of_nil. tauto.
Qed.

Section first_interval_batch.
Variable desurvey_at : point → list (float * float * float) → float → point.

Lemma validate_interval_data_first_run (ft : ndarray2) (vals : list float) (eps : Q)
  (s s' : Drillhole) (r : list float * ndarray2) :
get_data "FROM" s = [] → get_data "TO" s = [] →
validate_interval_data desurvey_at (FromToArray ft) vals eps s = (s', Ok r) →
length (rows ft) = length vals ∧ shape1 ft = 2 ∧
∃ sv c, surveys s = Some sv ∧ collar s = Some c ∧
  let froms := column 0 ft in
  let tos := column 1 ft in
  let u := (np_unique (flatten2 (zip froms tos))).1 in
  let n0 := length (default [] (vertices s)) in
  s' = set_children
         (children s ++ [mkData "FROM" CELL (Some froms); mkData "TO" CELL (Some tos)])
         (set_cells ((λ p, (n0 + find_index p.1 u, n0 + find_index p.2 u)) <$> zip froms tos)
            (set_vertices (default [] (vertices s) ++ (desurvey_at c sv <$> u)) s)) ∧
  r = (vals, ft).
Proof.
intros HF HT. unfold validate_interval_data. unfold_M.
case_bool_decide as Hlen; cbv beta iota; [|done].
case_bool_decide as Hshape; cbv beta iota; [|done].
rewrite HF, HT. cbn [head].
set (froms := column 0 ft). set (tos := column 1 ft).
pose proof (λ x, np_unique_spec (flatten2 (zip froms tos)) x) as Hspec.
unfold np_unique in *. cbn [fst] in Hspec. cbv zeta in Hspec.
set (u := uniq (sort_pairs fle (flatten2 (zip froms tos))).*1) in *.
cbv beta iota zeta.
rewrite desurvey_run.
destruct (surveys s) as [sv|] eqn:Esv; [|done].
destruct (collar s) as [c|] eqn:Ec; [|done].
rewrite add_vertices_run. cbv beta iota.
set (n0 := length (default [] (vertices s))).
rewrite length_fmap.
rewrite flatten2_fmap.
rewrite (take_idx_flatten2 (seq n0 (length u))).
2:{ apply Forall_forall. intros p (z & -> & Hz)%list_elem_of_fmap. cbn [fst snd].
    rewrite length_seq.
    destruct (Hspec z.1) as (y1 & H1 & _).
    { apply elem_of_flatten2. exists z. eauto. }
    destruct (Hspec z.2) as (y2 & H2 & _).
    { apply elem_of_flatten2. exists z. eauto. }
    apply lookup_lt_Some in H1, H2. done. }
cbv beta iota. rewrite reshape2_flatten2.
intros [= <- <-]. split_and!; [done..|]. exists sv, c. split_and!; [done..| |done].
cbv zeta. unfold set_children, set_cells, set_vertices. cbn. f_equal.
- f_equal. rewrite <- list_fmap_compose. apply list_fmap_ext.
  intros i z Hz. cbn [compose fst snd].
  destruct (Hspec z.1) as (y1 & H1 & _).
  { apply elem_of_flatten2. exists z. split; [by eapply list_elem_of_lookup_2|by left]. }
  destruct (Hspec z.2) as (y2 & H2 & _).
  { apply elem_of_flatten2. exists z. split; [by eapply list_elem_of_lookup_2|by right]. }
  apply lookup_lt_Some in H1, H2.
  rewrite !lookup_total_seq_lt by done. done.
- by rewrite <- app_assoc.
Qed.

(** X22: the first interval batch of a drillhole (no FROM and no TO entity
  yet). One segment is created for each interval, FROM and TO hold the two
  columns as given, the values are returned as given; segment [j] joins the
  vertex desurveyed at the from depth of interval [j] to the vertex
  desurveyed at its to depth; and when the to depth of one interval is the
  from depth of another, the two segments share that vertex. *)
Theorem first_interval_batch_geometry (ft : ndarray2) (vals : list float) (eps : Q)
  (s s' : Drillhole) (r : list float * ndarray2) :
get_data "FROM" s = [] → get_data "TO" s = [] →
validate_interval_data desurvey_at (FromToArray ft) vals eps s = (s', Ok r) →
∃ sv c vs' cs',
  surveys s = Some sv ∧ collar s = Some c ∧
  vertices s' = Some vs' ∧ cells s' = Some cs' ∧
  length cs' = length (rows ft) ∧ r.1 = vals ∧
  get_data "FROM" s' = [mkData "FROM" CELL (Some (column 0 ft))] ∧
  get_data "TO" s' = [mkData "TO" CELL (Some (column 1 ft))] ∧
  (∀ j f t, column 0 ft !! j = Some f → column 1 ft !! j = Some t →
     ∃ p q f' t', cs' !! j = Some (p, q) ∧ feq f f' = true ∧ feq t t' = true ∧
       vs' !! p = Some (desurvey_at c sv f') ∧ vs' !! q = Some (desurvey_at c sv t')) ∧
  (∀ j k t f cj ck, column 1 ft !! j = Some t → column 0 ft !! k = Some f →
     feq t f = true → cs' !! j = Some cj → cs' !! k = Some ck → cj.2 = ck.1).
Proof.
intros HF HT Hrun.
destruct (validate_interval_data_first_run _ _ _ _ _ _ HF HT Hrun)
  as (Hlen & Hshape & sv & c & Hsv & Hc & Hs' & Hr). cbv zeta in Hs'.
set (froms := column 0 ft) in *. set (tos := column 1 ft) in *.
set (u := (np_unique (flatten2 (zip froms tos))).1) in *.
set (n0 := length (default [] (vertices s))) in *.
assert (Hlf : length froms = length (rows ft)) by (unfold froms, column; by rewrite length_fmap).
assert (Hlt : length tos = length (rows ft)) by (unfold tos, column; by rewrite length_fmap).
eexists sv, c, _, _. subst s' r. cbn [vertices cells set_children set_cells set_vertices fst].
split_and!; [done|done|done|done| |done| | | |].
- rewrite length_fmap, length_zip. lia.
- rewrite get_data_set_children, filter_app. cbn [set_cells set_vertices children].
  fold (get_data "FROM" s). by rewrite HF.
- rewrite get_data_set_children, filter_app. cbn [set_cells set_vertices children].
  fold (get_data "TO" s). by rewrite HT.
- intros j f t Hf Ht.
  assert (Hz : zip froms tos !! j = Some (f, t)) by (apply lookup_zip_with_Some; eauto).
  destruct (np_unique_spec (flatten2 (zip froms tos)) f) as (f' & Hf' & Hff).
  { apply elem_of_flatten2. exists (f, t). split; [by eapply list_elem_of_lookup_2|by left]. }
  destruct (np_unique_spec (flatten2 (zip froms tos)) t) as (t' & Ht' & Htt).
  { apply elem_of_flatten2. exists (f, t). split; [by eapply list_elem_of_lookup_2|by right]. }
  fold u in Hf', Ht'.
  exists (n0 + find_index f u), (n0 + find_index t u), f', t'.
  rewrite list_lookup_fmap, Hz. cbn [fmap option_fmap option_map fst snd].
  split_and!; [done..| |].
  + rewrite lookup_app_r by (unfold n0; lia).
    replace (n0 + find_index f u - length (default [] (vertices s)))
      with (find_index f u) by (unfold n0; lia).
    by rewrite list_lookup_fmap, Hf'.
  + rewrite lookup_app_r by (unfold n0; lia).
    replace (n0 + find_index t u - length (default [] (vertices s)))
      with (find_index t u) by (unfold n0; lia).
    by rewrite list_lookup_fmap, Ht'.
- intros j k t f cj ck Ht Hf Htf Hj Hk.
  rewrite list_lookup_fmap in Hj, Hk.
  destruct (zip froms tos !! j) as [[fj tj]|] eqn:Ej; [|done].
  destruct (zip froms tos !! k) as [[fk tk]|] eqn:Ek; [|done].
  apply lookup_zip_with_Some in Ej as (a & b & [= <- <-] & _ & Hb).
  apply lookup_zip_with_Some in Ek as (a' & b' & [= <- <-] & Ha' & _).
  cbn in Hj, Hk. injection Hj as <-. injection Hk as <-. cbn [fst snd].
  rewrite Ht in Hb. injection Hb as <-. rewrite Hf in Ha'. injection Ha' as <-.
  f_equal. by apply find_index_compat.
Qed.
End first_interval_batch.

Lemma first_interval_batch_geometry_witness :
  ∃ sv c vs' cs',
    surveys fresh_hole = Some sv ∧ collar fresh_hole = Some c ∧
    length vs' = 3 ∧ cs' = [(0, 1); (1, 2)] ∧
    (∀ j f t, [num 0; num 10] !! j = Some f → [num 10; num 20] !! j = Some t →
       ∃ p q f' t', cs' !! j = Some (p, q) ∧ feq f f' = true ∧ feq t t' = true ∧
         vs' !! p = Some (vertical c sv f') ∧ vs' !! q = Some (vertical c sv t')).
Proof.
  destruct (first_interval_batch_geometry vertical
              (mkArray2 2 [[num 0; num 10]; [num 10; num 20]]) [num 1; num 2] (1 # 100)
              fresh_hole _ _ eq_refl eq_refl eq_refl)
    as (sv & c & vs' & cs' & Hsv & Hc & Hvs & Hcs & _ & _ & _ & _ & Hgeo & _).
  exists sv, c, vs', cs'. injection Hvs as <-. injection Hcs as <-.
  split_and!; [exact Hsv|exact Hc|reflexivity|reflexivity|exact Hgeo].
Defined.

(** ** Later interval batches *)

Lemma reshape2_lookup {A} (l : list A) (j : nat) (p : A * A) :
  reshape2 l !! j = Some p → l !! (2 * j) = Some p.1 ∧ l !! (2 * j + 1) = Some p.2.
Proof.
  revert l. induction j as [|j IH]; intros [|a [|b l]]; cbn [reshape2]; try done.
  - by intros [= <-].
  - intros H. replace (2 * S j) with (S (S (2 * j))) by lia. cbn. by apply IH.
Qed.

Lemma flatten2_lookup {A} (l : list (A * A)) (j : nat) (p : A * A) :
  l !! j = Some p →
  flatten2 l !! (2 * j) = Some p.1 ∧ flatten2 l !! (2 * j + 1) = Some p.2.
Proof.
  unfold flatten2. revert j. induction l as [|q l IH]; intros [|j]; try done.
  - by intros [= <-].
  - intros H. replace (2 * S j) with (S (S (2 * j))) by lia.
    rewrite bind_cons. cbn [app lookup list_lookup]. by apply IH.
Qed.

Lemma set_first_values_filter_ne (nm nm' : string) (v : list float) (ch : list Data) :
  nm ≠ nm' →
  filter (λ d, name d = nm) (set_first_values nm' v ch) = filter (λ d, name d = nm) ch.
Proof.
  intros Hne. induction ch as [|d ch IH]; [done|]. cbn [set_first_values].
  case_decide as Hd.
  - rewrite !filter_cons. cbn [name]. rewrite Hd. by rewrite !decide_False by done.
  - rewrite !filter_cons. by rewrite IH.
Qed.

(** One column of the new cells: every entry has received a vertex index,
    from an existing segment or from a vertex that was just added. *)
Lemma filled_column (n m : nat) (cs_col : list nat) (ind : list (nat * nat))
    (newk : list bool) (nc base col : list (option nat)) (ind_new fresh cells_k : list nat)
    (off : nat → nat) :
  put (replicate n true) ind.*2 (replicate (length ind) false) = Ok newk →
  (∀ j, newk !! j = Some true → off j ∈ ind_new) →
  put (replicate (2 * n) None) ind_new (Some <$> fresh) = Ok nc →
  Forall (λ a, a < m) fresh →
  length base = n → (∀ j, base !! j = nc !! off j) →
  take_idx cs_col ind.*1 = Ok cells_k → Forall (λ a, a < m) cs_col →
  put base ind.*2 (Some <$> cells_k) = Ok col →
  length col = n ∧ Forall (λ x, ∃ a, x = Some a ∧ a < m) col.
Proof.
  intros Hnew Hoff Hnc Hfresh Hlb Hbase Hck Hcol Hput.
  destruct (put_spec _ _ _ _ Hput) as (Hl & _ & _ & Hi).
  destruct (put_spec _ _ _ _ Hnew) as (Hln & _ & _ & Hni).
  destruct (put_spec _ _ _ _ Hnc) as (_ & _ & _ & Hnci).
  split; [lia|]. apply Forall_forall. intros x Hx.
  apply list_elem_of_lookup_1 in Hx as [j Hj].
  assert (Hjn : j < n) by (apply lookup_lt_Some in Hj; lia).
  destruct (decide (j ∈ ind.*2)) as [Hin|Hnin].
  - destruct (proj2 (Hi j) Hin) as (k & v & Hk & Hv & Hc). rewrite Hc in Hj.
    injection Hj as <-. rewrite list_lookup_fmap in Hv.
    destruct (cells_k !! k) as [a|] eqn:Ea; [|done]. injection Hv as <-.
    exists a. split; [done|].
    assert (∃ i, ind.*1 !! k = Some i) as [i Hik].
    { apply lookup_lt_is_Some. apply lookup_lt_Some in Hk. by rewrite length_fmap in *. }
    destruct (take_idx_lookup _ _ _ _ _ Hck Hik) as (y & Hy & Hcy).
    rewrite Ea in Hy. injection Hy as <-.
    eapply Forall_forall in Hcol; [exact Hcol|]. by eapply list_elem_of_lookup_2.
  - rewrite (proj1 (Hi j) Hnin), Hbase in Hj.
    assert (Htrue : newk !! j = Some true).
    { rewrite (proj1 (Hni j) Hnin). apply lookup_replicate_2. lia. }
    destruct (proj2 (Hnci _) (Hoff j Htrue)) as (k & v & Hk & Hv & Hc).
    rewrite Hc in Hj. injection Hj as <-. rewrite list_lookup_fmap in Hv.
    destruct (fresh !! k) as [a|] eqn:Ea; [|done]. injection Hv as <-.
    exists a. split; [done|].
    eapply Forall_forall in Hfresh; [exact Hfresh|]. by eapply list_elem_of_lookup_2.
Qed.

Section later_interval_batch.
Variable desurvey_at : point → list (float * float * float) → float → point.

(** X23: a later interval batch keeps the per-segment arrays and the cells
  aligned. On a drillhole whose FROM and TO arrays have one entry for each
  segment and whose cells hold valid vertex indices, when the call returns:
  the segments, FROM and TO entries that were there keep their rows; FROM,
  TO, the cells and the returned values again have one entry for each
  segment; and every vertex index in the cells, the appended ones included,
  is below the number of vertices. *)
Theorem later_interval_batch_aligned (ft : ndarray2) (vals : list float) (eps : Q)
  (s s' : Drillhole) (r : list float * ndarray2) (dF dT : Data) (F T : list float)
  (cs : list (nat * nat)) :
head (get_data "FROM" s) = Some dF → values dF = Some F →
head (get_data "TO" s) = Some dT → values dT = Some T →
cells s = Some cs → length F = length cs → length T = length cs →
(∀ p, p ∈ cs → p.1 < nv s ∧ p.2 < nv s) →
validate_interval_data desurvey_at (FromToArray ft) vals eps s = (s', Ok r) →
∃ dF' dT' F' T' cs',
  head (get_data "FROM" s') = Some dF' ∧ values dF' = Some F' ∧
  head (get_data "TO" s') = Some dT' ∧ values dT' = Some T' ∧
  cells s' = Some cs' ∧
  take (length cs) cs' = cs ∧ take (length cs) F' = F ∧ take (length cs) T' = T ∧
  length F' = length cs' ∧ length T' = length cs' ∧ length r.1 = length cs' ∧
  nv s ≤ nv s' ∧
  ∀ p, p ∈ cs' → p.1 < nv s' ∧ p.2 < nv s'.
Proof.
intros HdF HF HdT HT Hcs HlF HlT Hrange. unfold validate_interval_data. unfold_M.
case_bool_decide as Hlen; cbv beta iota; [|done].
case_bool_decide as Hshape; cbv beta iota; [|done].
rewrite HdF, HdT, HF, HT.
set (froms := column 0 ft). set (tos := column 1 ft).
assert (Hlfr : length froms = length (rows ft)) by (unfold froms, column; by rewrite length_fmap).
assert (Hlto : length tos = length (rows ft)) by (unfold tos, column; by rewrite length_fmap).
set (n := length (rows ft)) in *.
destruct (match_values F froms eps) as [from_ind|] eqn:Hfrom; [|done].
destruct (match_values T tos eps) as [to_ind|] eqn:Hto; [|done].
destruct (put (replicate (length F) None) from_ind.*1 _) as [in0|] eqn:Hin0; [|done].
destruct (put (replicate (length F) None) to_ind.*1 _) as [in1|] eqn:Hin1; [|done].
destruct (put _ from_ind.*2 (Some <$> from_ind.*1)) as [out0|] eqn:Hout0; [|done].
destruct (put _ to_ind.*2 (Some <$> to_ind.*1)) as [out1|] eqn:Hout1; [|done].
set (in_hit := np_where (zip_with eq_index in0 in1)).
set (out_hit := np_where (zip_with eq_index out0 out1)).
destruct (decide (length in_hit = length out_hit)) as [Hhit|]; [|done].
cbv beta iota.
assert (Hmap : (zip in_hit out_hit).*2 = out_hit) by (apply snd_zip; lia).
rewrite !Hmap.
destruct (put (replicate (length froms) true) from_ind.*2 _) as [new0|] eqn:Hnew0; [|done].
destruct (put (replicate (length froms) true) to_ind.*2 _) as [new1|] eqn:Hnew1; [|done].
set (flat := flatten2 (zip froms tos)).
set (ind_new := np_where (flatten2 (zip new0 new1))).
destruct (take_idx flat ind_new) as [picked|] eqn:Hpicked; [|done].
destruct (np_unique picked) as [uni_new inv_map] eqn:Huni.
rewrite desurvey_run.
destruct (surveys s) as [sv|] eqn:Esv; [|done].
destruct (collar s) as [c|] eqn:Ec; [|done].
rewrite add_vertices_run. cbv beta iota.
set (v0 := default [] (vertices s)). rewrite length_fmap.
destruct (take_idx (seq (length v0) (length uni_new)) inv_map) as [fresh|] eqn:Hfresh; [|done].
destruct (put (replicate (length flat) None) ind_new (Some <$> fresh)) as [nc|] eqn:Hnc;
  [|done].
cbn [cells set_vertices]. rewrite Hcs.
destruct (take_idx cs.*1 from_ind.*1) as [from_cells|] eqn:Hfc; [|done].
destruct (put (reshape2 nc).*1 from_ind.*2 (Some <$> from_cells)) as [col0|] eqn:Hcol0;
  [|done].
destruct (take_idx cs.*2 to_ind.*1) as [to_cells|] eqn:Htc; [|done].
destruct (put (reshape2 nc).*2 to_ind.*2 (Some <$> to_cells)) as [col1|] eqn:Hcol1;
  [|done].
destruct (np_delete (zip col0 col1) out_hit) as [new_cells|] eqn:Hdel; [|done].
destruct (merge_arrays (replicate (length cs) NaN) vals "B->A" _ _) as [mv|] eqn:Hmv;
  [|done].
destruct (merge_arrays F froms "A->B" _ _) as [mf|] eqn:Hmf; [|done].
destruct (merge_arrays T tos "A->B" _ _) as [mt|] eqn:Hmt; [|done].
intros [= <- <-].
(* lengths *)
assert (Hnv : nv s = length v0).
{ unfold nv, n_vertices, v0. by destruct (vertices s). }
set (m := length v0 + length uni_new).
assert (Hlz : length (zip froms tos) = n) by (rewrite length_zip; lia).
assert (Hlflat : length flat = 2 * n) by (unfold flat; rewrite flatten2_length; lia).
rewrite Hlflat in Hnc. rewrite Hlfr in Hnew0, Hnew1.
destruct (put_spec _ _ _ _ Hnc) as (Hlnc & _ & _ & _). rewrite length_replicate in Hlnc.
destruct (put_spec _ _ _ _ Hnew0) as (Hln0 & _ & _ & _).
destruct (put_spec _ _ _ _ Hnew1) as (Hln1 & _ & _ & _).
rewrite length_replicate in Hln0, Hln1.
assert (Hlre : length (reshape2 nc) = n) by (by apply reshape2_length).
(* the vertex indices at hand are valid *)
assert (Hfreshm : Forall (λ a, a < m) fresh).
{ apply Forall_forall. intros y Hy. apply list_elem_of_lookup_1 in Hy as [k Hk].
  assert (∃ i, inv_map !! k = Some i) as [i Hi].
  { apply lookup_lt_is_Some. apply lookup_lt_Some in Hk.
    by rewrite <- (take_idx_length _ _ _ Hfresh). }
  destruct (take_idx_lookup _ _ _ _ _ Hfresh Hi) as (y' & Hy' & Hs).
  rewrite Hk in Hy'. injection Hy' as <-. apply lookup_seq in Hs as [-> ?].
  unfold m. lia. }
assert (Hcsm : Forall (λ a, a < m) cs.*1 ∧ Forall (λ a, a < m) cs.*2).
{ split; apply Forall_forall; intros a (p & -> & Hp)%list_elem_of_fmap;
    destruct (Hrange p Hp); unfold m; lia. }
assert (Hzip : ∀ j, j < n → ∃ b0 b1, zip new0 new1 !! j = Some (b0, b1) ∧
                   new0 !! j = Some b0 ∧ new1 !! j = Some b1).
{ intros j Hj.
  destruct (lookup_lt_is_Some_2 new0 j) as [b0 H0]; [lia|].
  destruct (lookup_lt_is_Some_2 new1 j) as [b1 H1]; [lia|].
  exists b0, b1. split_and!; [|done..]. apply lookup_zip_with_Some. eauto. }
assert (Hbase : ∀ j, (reshape2 nc).*1 !! j = nc !! (2 * j) ∧
                     (reshape2 nc).*2 !! j = nc !! (2 * j + 1)).
{ intros j. rewrite !list_lookup_fmap.
  destruct (reshape2 nc !! j) as [p|] eqn:Ep.
  - destruct (reshape2_lookup _ _ _ Ep) as [-> ->]. done.
  - apply lookup_ge_None in Ep. cbn.
    split; symmetry; apply lookup_ge_None; lia. }
destruct (filled_column n m cs.*1 from_ind new0 nc (reshape2 nc).*1 col0 ind_new fresh
            from_cells (λ j, 2 * j)) as [Hl0 Hc0]; try done.
{ intros j Htrue. assert (Hj : j < n) by (apply lookup_lt_Some in Htrue; lia).
  destruct (Hzip j Hj) as (b0 & b1 & Hz & H0 & _).
  rewrite Htrue in H0. injection H0 as <-.
  apply elem_of_np_where. by destruct (flatten2_lookup _ _ _ Hz) as [-> _]. }
{ by rewrite length_fmap. }
{ intros j. apply Hbase. }
{ apply Hcsm. }
destruct (filled_column n m cs.*2 to_ind new1 nc (reshape2 nc).*2 col1 ind_new fresh
            to_cells (λ j, 2 * j + 1)) as [Hl1 Hc1]; try done.
{ intros j Htrue. assert (Hj : j < n) by (apply lookup_lt_Some in Htrue; lia).
  destruct (Hzip j Hj) as (b0 & b1 & Hz & _ & H1).
  rewrite Htrue in H1. injection H1 as <-.
  apply elem_of_np_where. by destruct (flatten2_lookup _ _ _ Hz) as [_ ->]. }
{ by rewrite length_fmap. }
{ intros j. apply Hbase. }
{ apply Hcsm. }
(* the merged arrays *)
set (k := length (filter (λ j, j ∉ out_hit) (seq 0 n))).
assert (Hlnew : length new_cells = k).
{ rewrite (np_delete_length _ _ _ Hdel), length_zip. unfold k. repeat f_equal. lia. }
assert (Hmerged : ∀ head tail replace mm,
          merge_arrays head tail replace (Some (zip in_hit out_hit)) (1 # 10000) = Ok mm →
          length tail = n →
          ∃ rest, m_out mm = m_head mm ++ rest ∧ length (m_head mm) = length head ∧
                  length rest = k).
{ intros head tail replace mm Hmm Hlt.
  destruct (merge_arrays_shape _ _ _ _ _ _ Hmm) as (rest & Hd & Ho & Hh & Ht).
  rewrite (merge_arrays_mapping_some _ _ _ _ _ _ Hmm), Hmap in Hd.
  exists rest. split_and!; [done..|]. rewrite (np_delete_length _ _ _ Hd), Ht, Hlt. done. }
destruct (Hmerged _ _ _ _ Hmv) as (restv & Hov & Hhv & Hrv); [by rewrite <- Hlen|].
destruct (Hmerged _ _ _ _ Hmf Hlfr) as (restF & HoF & _ & HrF).
destruct (Hmerged _ _ _ _ Hmt Hlto) as (restT & HoT & _ & HrT).
destruct (merge_arrays_default _ _ _ _ _ Hmf) as [HhF _].
destruct (merge_arrays_default _ _ _ _ _ Hmt) as [HhT _].
rewrite HhF in HoF. rewrite HhT in HoT. rewrite length_replicate in Hhv.
(* the entities *)
assert (HgF : ∃ tl, get_data "FROM" s = dF :: tl).
{ destruct (get_data "FROM" s) as [|d' tl]; [done|]. injection HdF as ->. eauto. }
assert (HgT : ∃ tl, get_data "TO" s = dT :: tl).
{ destruct (get_data "TO" s) as [|d' tl]; [done|]. injection HdT as ->. eauto. }
destruct HgF as [tlF HgF]. destruct HgT as [tlT HgT]. unfold get_data in HgF, HgT.
exists (mkData (name dF) (association dF) (Some (m_out mf))),
       (mkData (name dT) (association dT) (Some (m_out mt))),
       (m_out mf), (m_out mt),
       (cs ++ ((λ r, (default 0 r.1, default 0 r.2)) <$> new_cells)).
cbn [cells set_cells set_children set_vertices values fst].
split_and!.
- unfold get_data. cbn [children set_cells set_children].
  rewrite set_first_values_filter_ne by done. by rewrite set_first_values_filter, HgF.
- done.
- unfold get_data. cbn [children set_cells set_children].
  rewrite set_first_values_filter, set_first_values_filter_ne by done. by rewrite HgT.
- done.
- done.
- by rewrite take_app_length.
- by rewrite HoF, <- HlF, take_app_length.
- by rewrite HoT, <- HlT, take_app_length.
- rewrite HoF, !length_app, length_fmap. lia.
- rewrite HoT, !length_app, length_fmap. lia.
- rewrite Hov, !length_app, length_fmap. lia.
- rewrite Hnv. unfold nv, n_vertices. cbn. rewrite length_app, length_fmap. lia.
- assert (Hnv' : ∀ st, nv (set_cells st
                    (set_children
                       (set_first_values "TO" (m_out mt)
                          (set_first_values "FROM" (m_out mf) (children s)))
                       (set_children (set_first_values "FROM" (m_out mf) (children s))
                          (set_vertices (v0 ++ (desurvey_at c sv <$> uni_new)) s)))) = m).
  { intros st. unfold nv, n_vertices. cbn. by rewrite length_app, length_fmap. }
  rewrite Hnv'. intros p [Hp|Hp]%elem_of_app.
  + destruct (Hrange p Hp). unfold m. lia.
  + apply list_elem_of_fmap in Hp as ([x y] & -> & Hxy).
    apply (np_delete_elem _ _ _ _ Hdel) in Hxy as (j & _ & Hj).
    apply lookup_zip_with_Some in Hj as (a & b & [= <- <-] & Ha & Hb).
    eapply Forall_forall in Hc0; [|by eapply list_elem_of_lookup_2].
    eapply Forall_forall in Hc1; [|by eapply list_elem_of_lookup_2].
    destruct Hc0 as (a' & -> & ?). destruct Hc1 as (b' & -> & ?). done.
Qed.
End later_interval_batch.

Lemma later_interval_batch_aligned_witness :
  ∃ s' r F' T' cs',
    validate_interval_data vertical
      (FromToArray (mkArray2 2 [[num 0; num 10]; [num 20; num 30]])) [num 7; num 8] (1 # 100)
      (two_segment_hole vertical (num 1) (num 2)) = (s', Ok r) ∧
    cells s' = Some cs' ∧ cs' = [(0, 1); (1, 2); (3, 4)] ∧
    F' = [num 0; num 10; num 20] ∧ T' = [num 10; num 20; num 30] ∧
    r.1 = [num 7; NaN; num 8] ∧
    length F' = length cs' ∧ length T' = length cs' ∧ length r.1 = length cs' ∧
    ∀ p, p ∈ cs' → p.1 < nv s' ∧ p.2 < nv s'.
Proof.
  eexists _, _.
  destruct (later_interval_batch_aligned vertical
              (mkArray2 2 [[num 0; num 10]; [num 20; num 30]]) [num 7; num 8] (1 # 100)
              (two_segment_hole vertical (num 1) (num 2)) _ _
              (mkData "FROM" CELL (Some [num 0; num 10]))
              (mkData "TO" CELL (Some [num 10; num 20]))
              [num 0; num 10] [num 10; num 20] [(0, 1); (1, 2)]
              eq_refl eq_refl eq_refl eq_refl eq_refl eq_refl eq_refl
              ltac:(intros p Hp; rewrite !elem_of_cons, elem_of_nil in Hp;
                    destruct Hp as [->|[->|[]]]; vm_compute; lia)
              ltac:(vm_compute; reflexivity))
    as (dF' & dT' & F' & T' & cs' & HdF' & HF' & HdT' & HT' & Hcs' & _ & _ & _ &
        H1 & H2 & H3 & _ & Hr).
  exists F', T', cs'. injection HdF' as <-. injection HF' as <-.
  injection HdT' as <-. injection HT' as <-. injection Hcs' as <-.
  split; [vm_compute; reflexivity|].
  split_and!; [reflexivity|reflexivity|reflexivity|reflexivity|reflexivity|
               exact H1|exact H2|exact H3|exact Hr].
Defined.

Section interval_reuse_both_ends.
Variable desurvey_at : point → list (float * float * float) → float → point.

End interval_reuse_both_ends.


(** ** The default collocation distance *)

Section tolerance.
Variable desurvey_at : point → list (float * float * float) → float → point.

Lemma set_default_collocation_distance_pos (tol : float) (s : Drillhole) :
(0 < default_collocation_distance s)%Q →
(0 < default_collocation_distance (set_default_collocation_distance tol s).1)%Q.
Proof.
intros Hpos. unfold set_default_collocation_distance. destruct tol as [|q]; [done|].
unfold_M. destruct (Qltb 0 q) eqn:E; [|done]. cbn. by apply Qltb_lt.
Qed.

(** X25: the default collocation distance stays positive. Its setter rejects
  every value that is not greater than 0 (NaN included) with an
  AssertionError and leaves the distance as it was, and [add_data] never
  writes it: after any sequence of calls of the setter and of [add_data] on
  a drillhole whose distance is positive (a new drillhole has 0.01), each
  call returning or raising, the distance is positive, and it is the
  distance of the last setter call that was accepted, if there is one. *)
Theorem default_collocation_distance_positive (cs : list call) (s : Drillhole) :
(0 < default_collocation_distance s)%Q →
(0 < default_collocation_distance (run_sequence desurvey_at cs s))%Q ∧
(∀ cs' data, cs = cs' ++ [AddData data] →
   default_collocation_distance (run_sequence desurvey_at cs s)
   = default_collocation_distance (run_sequence desurvey_at cs' s)) ∧
(∀ cs' q, cs = cs' ++ [SetTolerance (Num q)] → (0 < q)%Q →
   default_collocation_distance (run_sequence desurvey_at cs s) = q) ∧
(∀ cs' tol, cs = cs' ++ [SetTolerance tol] →
   (∀ q, tol = Num q → ¬ (0 < q)%Q) →
   run_sequence desurvey_at cs s = run_sequence desurvey_at cs' s).
Proof.
intros Hpos. split_and!.
- revert s Hpos. induction cs as [|c cs IH]; intros s Hpos; [done|].
  cbn [run_sequence foldl]. apply IH. destruct c as [tol|data]; cbn [run_call].
  + by apply set_default_collocation_distance_pos.
  + destruct (add_data_same_survey desurvey_at data s) as (_ & _ & ->). done.
- intros cs' data ->. unfold run_sequence. rewrite foldl_app. cbn [foldl run_call].
  by destruct (add_data_same_survey desurvey_at data
                 (foldl (λ s c, run_call desurvey_at c s) s cs')) as (_ & _ & ->).
- intros cs' q -> Hq. unfold run_sequence. rewrite foldl_app. cbn [foldl run_call].
  unfold set_default_collocation_distance. unfold_M.
  assert (Qltb 0 q = true) as -> by (by apply Qltb_lt). done.
- intros cs' tol -> Hbad. unfold run_sequence. rewrite foldl_app. cbn [foldl run_call].
  unfold set_default_collocation_distance. destruct tol as [|q]; [done|]. unfold_M.
  destruct (Qltb 0 q) eqn:E; [|done]. apply Qltb_lt in E. by destruct (Hbad q).
Qed.
End tolerance.

Lemma default_collocation_distance_positive_witness :
  (0 < default_collocation_distance
         (run_sequence vertical
            [SetTolerance (num 0);
             AddData [("Au"%string, log_batch [num 10] [num 1] None)];
             SetTolerance (Num (1 # 2)); SetTolerance NaN] fresh_hole))%Q ∧
  default_collocation_distance
    (run_sequence vertical
       [SetTolerance (num 0);
        AddData [("Au"%string, log_batch [num 10] [num 1] None)];
        SetTolerance (Num (1 # 2)); SetTolerance NaN] fresh_hole) = 1 # 2.
Proof.
  split; [|reflexivity].
  apply (default_collocation_distance_positive vertical _ fresh_hole). reflexivity.
Defined.
